(** * Smart subtitle reader: segmentation, alignment and synchronisation

    A shallow embedding of the text engine shared by [SmartSubtitle],
    [SmartSubtitleReader] and the two [SubtitleReader] revisions, and the
    properties of its sanitizer, segmenter, aligner and playback
    synchroniser.

    Conventions.
    - A JavaScript string is the list of its UTF-16 code units ([N]);
      [length], indexing and the regular expressions without the [u] flag
      all count code units, exactly as in the source.
    - Positions and lengths are [nat]; the cells of [charToUnitMap] are
      integers ([Z]) because of the sentinel [-1].
    - Rendered widths are finite numbers, modelled as rationals ([Q]). *)

From Stdlib Require Import NArith ZArith QArith Lia String Ascii Bool.
From stdpp Require Import base list.

Close Scope Q_scope.
Local Open Scope nat_scope.

Abbreviation str := (list N).

(** ** JavaScript strings *)

Module JS.

(** An ASCII literal as a string of code units. *)
Definition lit (s : string) : str :=
  List.map N_of_ascii (list_ascii_of_string s).

Definition in_range (lo hi c : N) : bool := ((lo <=? c) && (c <=? hi))%N.

Definition one_of (cs : list N) (c : N) : bool := existsb (N.eqb c) cs.

(** [\s] and the characters removed by [trim]: ECMAScript WhiteSpace and
    LineTerminator. *)
Definition isSpace (c : N) : bool :=
  in_range 9 13 c || one_of [32; 160; 5760; 8232; 8233; 8239; 8287; 12288; 65279]%N c
  || in_range 8192 8202 c.

Definition notSpace (c : N) : bool := negb (isSpace c).

Fixpoint trimStart (s : str) : str :=
  match s with
  | c :: t => if isSpace c then trimStart t else s
  | [] => []
  end.

Definition trim (s : str) : str := rev (trimStart (rev (trimStart s))).

(** Truthiness of a string: non-empty. *)
Definition truthy (s : str) : bool :=
  match s with [] => false | _ :: _ => true end.

(** [s.substring(from)] for [0 <= from]. *)
Definition substring (s : str) (from : nat) : str := drop from s.

Fixpoint isPrefix (p s : str) : bool :=
  match p, s with
  | [], _ => true
  | a :: p', b :: s' => N.eqb a b && isPrefix p' s'
  | _ :: _, [] => false
  end.

Fixpoint findFrom (pat suf : str) (k : nat) : option nat :=
  if isPrefix pat suf then Some k
  else match suf with
       | [] => None
       | _ :: t => findFrom pat t (S k)
       end.

(** [s.indexOf(pat, from)]: the start position is clamped to the length of
    [s]; [None] stands for the result [-1]. *)
Definition indexOf (s pat : str) (from : nat) : option nat :=
  let k := Nat.min from (length s) in
  findFrom pat (drop k s) k.

(** [s.split(sep)] for a one-character separator. *)
Fixpoint split (sep : N) (s : str) : list str :=
  match s with
  | [] => [[]]
  | c :: t =>
      if N.eqb c sep then [] :: split sep t
      else match split sep t with
           | w :: ws => (c :: w) :: ws
           | [] => [[c]]
           end
  end.

(** [parts.join(sep)]. *)
Fixpoint join (sep : str) (parts : list str) : str :=
  match parts with
  | [] => []
  | [p] => p
  | p :: ps => p ++ sep ++ join sep ps
  end.

(** *** Regular expressions

    The fragment of the pattern language the sources use: character
    classes, literals, sequencing, an optional group and a greedy class
    repetition [[...]{min,}].  [rmatch r s] lists the remainders of [s]
    after each way of matching [r] at its start, in the backtracking
    order of the engine; the head is the match [exec] reports. *)

Inductive regex : Type :=
| Cls (p : N -> bool)
| Lit (s : str)
| Seq (r1 r2 : regex)
| Opt (r : regex)
| Many (min : nat) (p : N -> bool).

Fixpoint many (p : N -> bool) (min : nat) (s : str) : list str :=
  match s with
  | c :: t =>
      (if p c then many p (Nat.pred min) t else [])
        ++ (if Nat.eqb min 0 then [s] else [])
  | [] => if Nat.eqb min 0 then [[]] else []
  end.

Fixpoint rmatch (r : regex) (s : str) : list str :=
  match r with
  | Cls p => match s with
             | c :: t => if p c then [t] else []
             | [] => []
             end
  | Lit l => if isPrefix l s then [drop (length l) s] else []
  | Seq r1 r2 => flat_map (rmatch r2) (rmatch r1 s)
  | Opt r1 => rmatch r1 s ++ [s]
  | Many min p => many p min s
  end.

(** One successful [exec]: where the match starts, its text, and what
    follows it. *)
Record found := { f_index : nat; f_text : str; f_rest : str }.

(** Scan forward from the suffix [suf] (which starts at [pos]) for the
    first position where [r] matches. *)
Fixpoint search (r : regex) (suf : str) (pos : nat) : option found :=
  match rmatch r suf with
  | rest :: _ =>
      Some {| f_index := pos;
              f_text := take (length suf - length rest) suf;
              f_rest := rest |}
  | [] => match suf with
          | [] => None
          | _ :: t => search r t (S pos)
          end
  end.

(** The successive matches of a global regular expression: after a match
    the scan resumes at its end ([lastIndex]), one code unit further when
    the match was empty.  Each round consumes at least one code unit or
    ends the scan, so [S (length s)] rounds are always enough. *)
Fixpoint matchAllFrom (fuel : nat) (r : regex) (suf : str) (pos : nat)
  : list (nat * str) :=
  match fuel with
  | 0 => []
  | S fuel' =>
      match search r suf pos with
      | None => []
      | Some f =>
          (f_index f, f_text f) ::
          match f_text f, f_rest f with
          | [], [] => []
          | [], _ :: t => matchAllFrom fuel' r t (S (f_index f))
          | _ :: _, rest =>
              matchAllFrom fuel' r rest (f_index f + length (f_text f))
          end
      end
  end.

Definition matchAll (r : regex) (s : str) : list (nat * str) :=
  matchAllFrom (S (length s)) r s 0.

(** Rebuild the string around the matches, each replaced by [f] of its
    text; [s] is the part of the string from position [pos] on. *)
Fixpoint stitch (f : str -> str) (s : str) (pos : nat) (ms : list (nat * str))
  : str :=
  match ms with
  | [] => s
  | (i, m) :: ms' =>
      take (i - pos) s ++ f m
        ++ stitch f (drop (i - pos + length m) s) (i + length m) ms'
  end.

(** [s.replace(/r/g, f)]. *)
Definition replace (r : regex) (f : str -> str) (s : str) : str :=
  stitch f s 0 (matchAll r s).

(** *** Code points (regular expressions with the [u] flag) *)

Definition isHighSurrogate (c : N) : bool := in_range 55296 56319 c.
Definition isLowSurrogate (c : N) : bool := in_range 56320 57343 c.

Definition codePoint (hi lo : N) : N :=
  (65536 + (hi - 55296) * 1024 + (lo - 56320))%N.

(** [s.replace(/[class]/gu, '')]: delete every code point of the class; a
    surrogate pair is one code point, a lone surrogate is its own. *)
Fixpoint removeCodePoints (p : N -> bool) (s : str) : str :=
  match s with
  | [] => []
  | h :: t =>
      match t with
      | l :: t' =>
          if isHighSurrogate h && isLowSurrogate l then
            if p (codePoint h l) then removeCodePoints p t'
            else h :: l :: removeCodePoints p t'
          else if p h then removeCodePoints p t
          else h :: removeCodePoints p t
      | [] => if p h then [] else [h]
      end
  end.

(** Unicode general categories, by major class.  The table itself belongs
    to the JavaScript engine; the sanitizers take it as a parameter. *)
Inductive GeneralCategory : Type :=
| gcL | gcM | gcN | gcP | gcS | gcZ | gcC.

(** The Basic Latin block (U+0000 to U+007F) of that table; every other
    code point is reported as unassigned.  It is exact on ASCII text. *)
Definition basic_latin (c : N) : GeneralCategory :=
  if in_range 65 90 c || in_range 97 122 c then gcL
  else if in_range 48 57 c then gcN
  else if N.eqb c 32 then gcZ
  else if one_of [36; 43; 60; 61; 62; 94; 96; 124; 126]%N c then gcS
  else if in_range 33 126 c then gcP
  else gcC.

(** *** Numbers and arrays

    A value that is a number or [undefined] is an [option Z].  An array of
    numbers is the list of its cells, [None] being a hole. *)

(** [a[k] = v]: assignment past the end extends the array, leaving holes. *)
Definition arraySet (a : list (option Z)) (k : nat) (v : Z) : list (option Z) :=
  if k <? length a then <[k := Some v]> a
  else a ++ replicate (k - length a) None ++ [Some v].

(** [a[k]] for a number array: [undefined] outside the array and on a hole. *)
Definition arrayGet (a : list (option Z)) (k : nat) : option Z :=
  default None (a !! k).

(** [a[i]] where [i] is any number or [undefined]. *)
Definition elementAt {A : Type} (a : list A) (i : option Z) : option A :=
  match i with
  | Some z => if (0 <=? z)%Z then a !! Z.to_nat z else None
  | None => None
  end.

(** [for (let k = from; k < to; k++) a[k] = v] *)
Definition fillRange (a : list (option Z)) (from to : nat) (v : Z)
  : list (option Z) :=
  fold_left (fun a k => arraySet a k v) (seq from (to - from)) a.

End JS.

(** ** The segmenter

    [smartSplitText], [splitByPunctuation] and [forceSplitText] are the
    same code in every class of the repository; they differ only in the
    width they compare ([measureTextWidth] against [config.maxLineWidth]
    in [SmartSubtitle], [getTextWidth] against [config.maxTextWidth] in the
    readers), so they are written once over that pair. *)

Record TextUnit : Type :=
  { u_text : str; u_start : nat; u_end : nat }.

Module Segmenter.
Import JS.

(** The marks of [sentenceRegex]: U+3002, U+FF01, U+FF1F, [!] and [?]. *)
Definition isSentenceEnd : N -> bool := one_of [12290; 65281; 65311; 33; 63]%N.

(** The marks of [punctRegex]: U+FF0C, U+3001, U+FF1B, [,], [.] and [;]. *)
Definition isClauseMark : N -> bool := one_of [65292; 12289; 65307; 44; 46; 59]%N.

(** [/[^。！？!?]+[。！？!?]/g] *)
Definition sentenceRegex : regex :=
  Seq (Many 1 (fun c => negb (isSentenceEnd c))) (Cls isSentenceEnd).

(** [/[^，、；,.;]+[，、；,.;]?/g] *)
Definition punctRegex : regex :=
  Seq (Many 1 (fun c => negb (isClauseMark c))) (Opt (Cls isClauseMark)).

(** The variables of the loop of [forceSplitText]. *)
Record ForceState : Type :=
  { fs_units : list TextUnit;
    fs_currentText : str;
    fs_startPos : nat;
    fs_i : nat }.

Section Segmenter.

Variable measure : str -> Q.
Variable maxWidth : Q.

(** [measure(s) <= maxWidth] *)
Definition fits (s : str) : bool := Qle_bool (measure s) maxWidth.

(** [measure(s) > maxWidth] *)
Definition tooWide (s : str) : bool := negb (Qle_bool (measure s) maxWidth).

(** [text[i]] as a string; the loop below only reads inside the text. *)
Definition charAt (text : str) (i : nat) : str :=
  match text !! i with
  | Some c => [c]
  | None => []
  end.

(** One round of the [for] loop of [forceSplitText]: the body, then
    [i++].  The accumulated text has more than one character only when
    [i >= 1], so the decrement is exact on [nat]. *)
Definition forceBody (text : str) (basePosition : nat) (st : ForceState)
  : ForceState :=
  let currentText := fs_currentText st ++ charAt text (fs_i st) in
  if tooWide currentText then
    let '(currentText, i) :=
      if 1 <? length currentText
      then (take (length currentText - 1) currentText, fs_i st - 1)
      else (currentText, fs_i st) in
    {| fs_units :=
         fs_units st ++
           [{| u_text := currentText;
               u_start := basePosition + fs_startPos st;
               u_end := basePosition + fs_startPos st + length currentText |}];
       fs_currentText := [];
       fs_startPos := i + 1;
       fs_i := i + 1 |}
  else
    {| fs_units := fs_units st;
       fs_currentText := currentText;
       fs_startPos := fs_startPos st;
       fs_i := fs_i st + 1 |}.

(** The loop, with a bound on the number of rounds: [None] when the bound
    is reached before the loop condition [i < text.length] fails. *)
Fixpoint forceLoop (fuel : nat) (text : str) (basePosition : nat)
    (st : ForceState) : option ForceState :=
  match fuel with
  | 0 => if fs_i st <? length text then None else Some st
  | S fuel' =>
      if fs_i st <? length text
      then forceLoop fuel' text basePosition (forceBody text basePosition st)
      else Some st
  end.

Definition forceInit : ForceState :=
  {| fs_units := []; fs_currentText := []; fs_startPos := 0; fs_i := 0 |}.

(** After the loop: the last part, when there is one. *)
Definition forceFinish (text : str) (basePosition : nat) (st : ForceState)
  : list TextUnit :=
  if truthy (fs_currentText st) then
    fs_units st ++
      [{| u_text := fs_currentText st;
          u_start := basePosition + fs_startPos st;
          u_end := basePosition + length text |}]
  else fs_units st.

Definition forceSplitTextFuel (fuel : nat) (text : str) (basePosition : nat)
  : option (list TextUnit) :=
  forceFinish text basePosition <$> forceLoop fuel text basePosition forceInit.

(** [forceSplitText(text, basePosition)], the loop being given two rounds
    per character, which is always enough for it to end. *)
Definition forceSplitText (text : str) (basePosition : nat) : list TextUnit :=
  default [] (forceSplitTextFuel (2 * length text) text basePosition).

(** [splitByPunctuation(text, basePosition)] *)
Definition splitByPunctuation (text : str) (basePosition : nat)
  : list TextUnit :=
  let matches := matchAll punctRegex text in
  if 0 <? length matches then
    let '(units, currentPos) :=
      fold_left
        (fun '(units, _) '(index, phrase) =>
           let start := basePosition + index in
           let end_ := start + length phrase in
           (if fits phrase
            then units ++ [{| u_text := phrase; u_start := start; u_end := end_ |}]
            else units ++ forceSplitText phrase start,
            index + length phrase))
        matches ([], 0) in
    if currentPos <? length text then
      let remaining := substring text currentPos in
      if truthy (trim remaining) then
        if fits remaining
        then units ++ [{| u_text := remaining;
                          u_start := basePosition + currentPos;
                          u_end := basePosition + length text |}]
        else units ++ forceSplitText remaining (basePosition + currentPos)
      else units
    else units
  else forceSplitText text basePosition.

(** [smartSplitText(text)] *)
Definition smartSplitText (text : str) : list TextUnit :=
  if fits text then
    [{| u_text := text; u_start := 0; u_end := length text |}]
  else
    let matches := matchAll sentenceRegex text in
    if 0 <? length matches then
      let '(units, currentPos) :=
        fold_left
          (fun '(units, _) '(index, sentence) =>
             let start := index in
             let end_ := start + length sentence in
             (if fits sentence
              then units ++ [{| u_text := sentence; u_start := start; u_end := end_ |}]
              else units ++ splitByPunctuation sentence start,
              end_))
          matches ([], 0) in
      if currentPos <? length text then
        let remaining := substring text currentPos in
        if truthy (trim remaining) then
          if fits remaining
          then units ++ [{| u_text := remaining;
                            u_start := currentPos;
                            u_end := length text |}]
          else units ++ splitByPunctuation remaining currentPos
        else units
      else units
    else splitByPunctuation text 0.

End Segmenter.
End Segmenter.


(** ** Sanitizing patterns *)

Module Patterns.
Import JS.

Declare Scope regex_scope.
Delimit Scope regex_scope with re.
Infix "+>" := Seq (at level 60, right associativity) : regex_scope.
Local Open Scope regex_scope.

Definition lower : N -> bool := in_range 97 122.
Definition alpha (c : N) : bool := in_range 97 122 c || in_range 65 90 c.
Definition alnum (c : N) : bool := alpha c || in_range 48 57 c.

(** [/https?:\/\/[^\s]+/g] *)
Definition httpRe : regex :=
  Lit (lit "http") +> Opt (Lit (lit "s")) +> Lit (lit "://") +> Many 1 notSpace.

(** [/www\.[^\s]+/g] *)
Definition wwwRe : regex := Lit (lit "www.") +> Many 1 notSpace.

(** [/www\.[^\s]+\.[a-z]{2,}/g] *)
Definition wwwTldRe : regex :=
  Lit (lit "www.") +> Many 1 notSpace +> Lit (lit ".") +> Many 2 lower.

(** [/[a-zA-Z0-9][a-zA-Z0-9-]*\.[a-zA-Z]{2,}(\.[a-zA-Z]{2,})?[^\s]*/g] *)
Definition domainRe : regex :=
  Cls alnum +> Many 0 (fun c => alnum c || N.eqb c 45) +> Lit (lit ".")
    +> Many 2 alpha +> Opt (Lit (lit ".") +> Many 2 alpha) +> Many 0 notSpace.

(** [/[a-zA-Z0-9._%+-]+@[a-zA-Z0-9.-]+\.[a-zA-Z]{2,}/g] *)
Definition emailRe : regex :=
  Many 1 (fun c => alnum c || one_of [46; 95; 37; 43; 45]%N c) +> Lit (lit "@")
    +> Many 1 (fun c => alnum c || one_of [46; 45]%N c) +> Lit (lit ".")
    +> Many 2 alpha.

(** [/\s+/g] *)
Definition spacesRe : regex := Many 1 isSpace.

(** The class of the emoji pattern of [cleanText]. *)
Definition emoji (c : N) : bool :=
  in_range 0x1F300 0x1F5FF c || in_range 0x1F600 0x1F64F c
  || in_range 0x1F680 0x1F6FF c || in_range 0x1F700 0x1F77F c
  || in_range 0x1F780 0x1F7FF c || in_range 0x1F800 0x1F8FF c
  || in_range 0x1F900 0x1F9FF c || in_range 0x1FA00 0x1FA6F c
  || in_range 0x1FA70 0x1FAFF c || in_range 0x2600 0x26FF c
  || in_range 0x2700 0x27BF c.

(** The class of the emoji pattern of [filterTextKeepLength] and
    [filterTextComplete]. *)
Definition emojiWide (c : N) : bool :=
  in_range 0x1F000 0x1FFFF c || in_range 0x2600 0x27BF c
  || N.eqb c 0x2B50 || N.eqb c 0x2B55.

Section Category.
Variable category : N -> GeneralCategory.

(** [[^\p{L}\p{N}\p{P}\p{Z}]] *)
Definition notLNPZ (c : N) : bool :=
  match category c with
  | gcL | gcN | gcP | gcZ => false
  | _ => true
  end.

(** [[^\p{L}\p{N}\p{P}\p{Z}\p{M}]] *)
Definition notLNPZM (c : N) : bool :=
  match category c with
  | gcL | gcN | gcP | gcZ | gcM => false
  | _ => true
  end.

End Category.

Definition erase (_ : str) : str := [].
Definition oneSpace (_ : str) : str := [32%N].

(** [match => ' '.repeat(match.length)] *)
Definition blank (m : str) : str := replicate (length m) 32%N.

End Patterns.

(** ** Display units and the result of the aligner *)

(** A display unit; [cleanedText] is absent from the units built by the
    length-preserving revision. *)
Record DisplayUnit : Type :=
  { d_text : str;
    d_cleanedText : option str;
    d_start : nat;
    d_end : nat }.

(** [{ displayUnits, charToUnitMap, cleanedText }] *)
Record Processed : Type :=
  { displayUnits : list DisplayUnit;
    charToUnitMap : list (option Z);
    cleanedText : str }.

(** The text nodes of a parsed HTML fragment, in document order, stand for
    the fragment: the tree walk itself is the browser's. *)
Module Lines.
Import JS.

(** [text.split('\n').map(line => line.trim()).filter(line => line)] *)
Definition linesOf (text : str) : list str :=
  List.filter truthy (List.map trim (split 10 text)).

(** [extractLinesFromHTML(htmlContent)] *)
Definition extractLinesFromHTML (nodes : list str) : list str :=
  let textNodes :=
    List.map trim (List.filter (fun n => truthy (trim n)) nodes) in
  fold_left (fun lines text => lines ++ linesOf text) textNodes [].

End Lines.

(** ** The alignment loop of [processSubtitleText] and [processText]

    [SmartSubtitle.processSubtitleText] and the [processText] of
    subtitle-reader.js run the same two nested loops; they differ in how a
    line is prepared for display, how a unit is cleaned and which width the
    segmenter compares. *)

Module Aligner.
Import JS.

(** The loop state: [displayUnits], [charToUnitMap] and [currentPos]. *)
Definition AlignState : Type := list DisplayUnit * list (option Z) * nat.

Section Aligner.

Variable smartSplitText : str -> list TextUnit.
Variable cleanUnitText : str -> str.
Variable displayLine : str -> str.

(** The body of the loop over the units of one line. *)
Definition alignUnit (cleanedText : str) (linePos : nat)
    (acc : list DisplayUnit * list (option Z)) (unit : TextUnit)
  : list DisplayUnit * list (option Z) :=
  let '(displayUnits, charToUnitMap) := acc in
  let unitIndex := length displayUnits in
  let cleanedUnitText := cleanUnitText (u_text unit) in
  match indexOf cleanedText cleanedUnitText linePos with
  | Some unitPos =>
      let unitEnd := unitPos + length cleanedUnitText in
      (displayUnits ++
         [{| d_text := u_text unit;
             d_cleanedText := Some cleanedUnitText;
             d_start := unitPos;
             d_end := unitEnd |}],
       fillRange charToUnitMap unitPos unitEnd (Z.of_nat unitIndex))
  | None => acc
  end.

(** The body of the loop over the lines, for the line at index [i];
    [cleanedLines[i]] is [undefined] past the end of [cleanedLines]. *)
Definition alignLine (cleanedText : str) (cleanedLines : list str)
    (st : AlignState) (i : nat) (mdLine : str) : AlignState :=
  let '(displayUnits, charToUnitMap, currentPos) := st in
  let originalLine := displayLine mdLine in
  match cleanedLines !! i with
  | None => st
  | Some cleanedLine =>
      if negb (truthy cleanedLine) then st
      else
        match indexOf cleanedText cleanedLine currentPos with
        | Some linePos =>
            let units := smartSplitText originalLine in
            let '(displayUnits, charToUnitMap) :=
              fold_left (alignUnit cleanedText linePos) units
                (displayUnits, charToUnitMap) in
            (displayUnits, charToUnitMap, linePos + length cleanedLine)
        | None => st
        end
  end.

(** [for (let i = 0; i < mdLines.length; i++)], over the lines from [i]. *)
Fixpoint alignLines (cleanedText : str) (cleanedLines : list str)
    (i : nat) (mdLines : list str) (st : AlignState) : AlignState :=
  match mdLines with
  | [] => st
  | mdLine :: rest =>
      alignLines cleanedText cleanedLines (S i) rest
        (alignLine cleanedText cleanedLines st i mdLine)
  end.

(** From [const displayUnits = []] to the [return]. *)
Definition align (cleanedText : str) (cleanedLines mdLines : list str)
  : Processed :=
  let '(displayUnits, charToUnitMap, _) :=
    alignLines cleanedText cleanedLines 0 mdLines
      ([], replicate (length cleanedText) (Some (-1)%Z), 0) in
  {| displayUnits := displayUnits;
     charToUnitMap := charToUnitMap;
     cleanedText := cleanedText |}.

End Aligner.
End Aligner.

(** ** [SmartSubtitle] (smart-subtitle-reader.js) *)

Module SmartSubtitle.
Import JS Patterns Lines.

Record Config : Type :=
  { maxLineWidth : Q;
    fontSize : Q;
    fontFamily : str;
    cleanEmoji : bool;
    cleanSpecialChars : bool;
    normalizeSpaces : bool }.

(** The instance: its configuration and the canvas context it measures
    with, [measureText text] being [context.measureText(text).width]. *)
Record t : Type :=
  { config : Config;
    measureText : str -> Q }.

Definition measureTextWidth (this : t) (text : str) : Q := measureText this text.

(** [smartSplitText(text)], with the two tiers below it, compares
    [measureTextWidth] with [config.maxLineWidth]. *)
Definition smartSplitText (this : t) (text : str) : list TextUnit :=
  Segmenter.smartSplitText (measureTextWidth this) (maxLineWidth (config this)) text.

Section Category.
Variable category : N -> GeneralCategory.

(** [cleanText(text)] *)
Definition cleanText (this : t) (text : str) : str :=
  let result := text in
  let result :=
    if cleanEmoji (config this) then removeCodePoints emoji result else result in
  let result :=
    if cleanSpecialChars (config this)
    then removeCodePoints (notLNPZ category) result else result in
  let result :=
    if normalizeSpaces (config this)
    then replace spacesRe oneSpace result else result in
  result.

(** [processSubtitleText(rawText, mdHtml)]; [mdHtml] is [None] when the
    argument is missing or empty. *)
Definition processSubtitleText (this : t) (rawText : str)
    (mdHtml : option (list str)) : Processed :=
  let cleanedText := cleanText this rawText in
  let mdLines :=
    match mdHtml with
    | Some nodes => extractLinesFromHTML nodes
    | None => linesOf rawText
    end in
  let cleanedLines := List.filter truthy (List.map (cleanText this) mdLines) in
  Aligner.align (smartSplitText this) (cleanText this) (fun line => line)
    cleanedText cleanedLines mdLines.

End Category.

(** What [getCurrentUnit] returns. *)
Inductive Lookup : Type :=
| Null
| Undefined
| Unit (u : DisplayUnit).

(** [getCurrentUnit(charIndex, charToUnitMap, displayUnits)] *)
Definition getCurrentUnit (charIndex : Z) (charToUnitMap : list (option Z))
    (displayUnits : list DisplayUnit) : Lookup :=
  if (charIndex <? Z.of_nat (length charToUnitMap))%Z then
    let unitIndex := mjoin (elementAt charToUnitMap (Some charIndex)) in
    if negb (bool_decide (unitIndex = Some (-1)%Z))
       && match unitIndex with
          | Some z => (z <? Z.of_nat (length displayUnits))%Z
          | None => false
          end
    then match elementAt displayUnits unitIndex with
         | Some u => Unit u
         | None => Undefined
         end
    else Null
  else Null.

End SmartSubtitle.

(** ** What the two revisions of [SubtitleReader] share *)

Module Reader.
Import JS.

Record Config : Type :=
  { targetVoiceName : str;
    speechRate : Q;
    minWindowWidth : Q;
    maxWindowWidth : Q;
    singleLineHeight : Q;
    multiLineHeight : Q;
    completionDelay : Q;
    maxTextWidth : Q;
    standalone : bool }.

(** The instance: its configuration and its canvas context,
    [measureText text] being [textContext.measureText(text).width]. *)
Record t : Type :=
  { config : Config;
    measureText : str -> Q }.

(** [getTextWidth(text)] *)
Definition getTextWidth (this : t) (text : str) : Q :=
  (measureText this text + 60)%Q.

(** [smartSplitText(text)], with the two tiers below it, compares
    [getTextWidth] with [config.maxTextWidth]. *)
Definition smartSplitText (this : t) (text : str) : list TextUnit :=
  Segmenter.smartSplitText (getTextWidth this) (maxTextWidth (config this)) text.

(** *** The playback synchroniser: [utterance.onboundary] in [startReading] *)

(** A boundary event of the speech engine; [ev_charIndex] is [None] when
    the event carries no [charIndex]. *)
Record BoundaryEvent : Type :=
  { ev_name : str;
    ev_charIndex : option nat }.

(** What the handler does to the page: [subtitle.innerHTML = text], then
    [adjustWindowSize(text)]. *)
Inductive Effect : Type :=
| SetSubtitle (html : str)
| AdjustWindowSize (text : str).

(** One run of the handler from the value [currentUnitIndex] of the
    closure: the new value and the effects. *)
Definition onboundary (displayUnits : list DisplayUnit)
    (charToUnitMap : list (option Z)) (event : BoundaryEvent)
    (currentUnitIndex : option Z) : option Z * list Effect :=
  if negb (bool_decide (ev_name event = lit "word"))
     && negb (bool_decide (ev_name event = lit "sentence"))
  then (currentUnitIndex, [])
  else
    let charIndex := default 0 (ev_charIndex event) in
    if charIndex <? length charToUnitMap then
      let unitIndex := arrayGet charToUnitMap charIndex in
      if negb (bool_decide (unitIndex = Some (-1)%Z))
         && negb (bool_decide (unitIndex = currentUnitIndex))
      then
        match elementAt displayUnits unitIndex with
        | Some unit =>
            (unitIndex, [SetSubtitle (d_text unit); AdjustWindowSize (d_text unit)])
        | None => (unitIndex, [])
        end
      else (currentUnitIndex, [])
    else (currentUnitIndex, []).

(** The handler over a stream of events, effects in order. *)
Fixpoint onboundaries (displayUnits : list DisplayUnit)
    (charToUnitMap : list (option Z)) (events : list BoundaryEvent)
    (currentUnitIndex : option Z) : option Z * list Effect :=
  match events with
  | [] => (currentUnitIndex, [])
  | event :: rest =>
      let '(current, effects) :=
        onboundary displayUnits charToUnitMap event currentUnitIndex in
      let '(final, more) := onboundaries displayUnits charToUnitMap rest current in
      (final, effects ++ more)
  end.

(** [let currentUnitIndex = -1] *)
Definition initialUnitIndex : option Z := Some (-1)%Z.

End Reader.

(** ** [SubtitleReader] (subtitle-reader.js) *)

Module SubtitleReader.
Import JS Patterns Lines Reader.

Section Category.
Variable category : N -> GeneralCategory.

(** The chain that cleans the whole text at the head of [processText]. *)
Definition cleanWhole (text : str) : str :=
  replace spacesRe oneSpace
    (removeCodePoints (notLNPZ category)
       (replace wwwTldRe erase
          (replace httpRe erase
             (removeCodePoints emoji text)))).

(** The chain applied to each line for [cleanedLines]. *)
Definition cleanLine (line : str) : str :=
  let filteredLine := replace wwwTldRe erase (replace httpRe erase line) in
  trim
    (replace spacesRe oneSpace
       (removeCodePoints (notLNPZ category)
          (removeCodePoints emoji filteredLine))).

(** The chain applied to [mdLines[i]] for display. *)
Definition filterLine (line : str) : str :=
  trim
    (replace spacesRe oneSpace
       (replace wwwTldRe erase (replace httpRe erase line))).

(** The chain applied to [unit.text]. *)
Definition cleanUnit (text : str) : str :=
  trim
    (replace spacesRe oneSpace
       (removeCodePoints (notLNPZ category)
          (replace wwwTldRe erase
             (replace httpRe erase
                (removeCodePoints emoji text))))).

(** [processText(text, mdHtml)] *)
Definition processText (this : t) (text : str) (mdHtml : list str) : Processed :=
  let cleanedText := cleanWhole text in
  let mdLines := extractLinesFromHTML mdHtml in
  let cleanedLines := List.filter truthy (List.map cleanLine mdLines) in
  Aligner.align (smartSplitText this) cleanUnit filterLine
    cleanedText cleanedLines mdLines.

End Category.
End SubtitleReader.

(** ** [SubtitleReader], length-preserving revision (unnamed/part_000) *)

Module SubtitleReaderKeepLength.
Import JS Patterns Lines Reader.

Section Category.
Variable category : N -> GeneralCategory.

(** [filterTextKeepLength(text)] *)
Definition filterTextKeepLength (text : str) : str :=
  replace spacesRe oneSpace
    (removeCodePoints (notLNPZM category)
       (removeCodePoints emojiWide
          (replace emailRe blank
             (replace domainRe blank
                (replace wwwRe blank
                   (replace httpRe blank text)))))).

(** [filterTextComplete(text)] *)
Definition filterTextComplete (text : str) : str :=
  trim
    (replace spacesRe oneSpace
       (removeCodePoints (notLNPZM category)
          (removeCodePoints emojiWide
             (replace emailRe erase
                (replace domainRe erase
                   (replace wwwRe erase
                      (replace httpRe erase text))))))).

(** The body of the loop over the units of one line: every unit searches
    for the whole [readingLine] from [currentPos]. *)
Definition claimLine (cleanedText readingLine : str)
    (st : Aligner.AlignState) (unit : TextUnit) : Aligner.AlignState :=
  let '(displayUnits, charToUnitMap, currentPos) := st in
  let unitIndex := length displayUnits in
  match indexOf cleanedText readingLine currentPos with
  | Some unitPos =>
      let unitEnd := unitPos + length readingLine in
      (displayUnits ++
         [{| d_text := u_text unit;
             d_cleanedText := None;
             d_start := unitPos;
             d_end := unitEnd |}],
       fillRange charToUnitMap unitPos unitEnd (Z.of_nat unitIndex),
       unitEnd)
  | None => st
  end.

(** The body of the loop over the lines; [displayLines] and
    [readingLines] are parallel arrays. *)
Definition alignPair (this : t) (cleanedText : str)
    (st : Aligner.AlignState) (line : str * str) : Aligner.AlignState :=
  let '(displayLine, readingLine) := line in
  if negb (truthy displayLine) then st
  else
    let units := smartSplitText this displayLine in
    fold_left (claimLine cleanedText readingLine) units st.

(** [processText(text, mdHtml)]; [text] is not used by the source either. *)
Definition processText (this : t) (text : str) (mdHtml : list str) : Processed :=
  let textLines :=
    fold_left
      (fun textLines node =>
         if truthy (trim node) then textLines ++ linesOf (trim node)
         else textLines)
      mdHtml [] in
  let readingLines := List.map filterTextKeepLength textLines in
  let displayLines := List.map filterTextComplete textLines in
  let cleanedText := join [32%N] readingLines in
  let '(displayUnits, charToUnitMap, _) :=
    fold_left (alignPair this cleanedText) (combine displayLines readingLines)
      ([], replicate (length cleanedText) (Some (-1)%Z), 0) in
  {| displayUnits := displayUnits;
     charToUnitMap := charToUnitMap;
     cleanedText := cleanedText |}.

End Category.
End SubtitleReaderKeepLength.

(** ** [SmartSubtitleReader] (smart-subtitle-reader.js) *)

Module SmartSubtitleReader.
Import JS Patterns Lines Reader.

Section Category.
Variable category : N -> GeneralCategory.

(** [cleanText(text)] *)
Definition cleanText (text : str) : str :=
  replace spacesRe oneSpace
    (removeCodePoints (notLNPZ category)
       (removeCodePoints emoji text)).

(** [processText(text, mdHtml)] *)
Definition processText (this : t) (text : str) (mdHtml : list str) : Processed :=
  let cleanedText := cleanText text in
  let mdLines := extractLinesFromHTML mdHtml in
  let cleanedLines := List.filter truthy (List.map cleanText mdLines) in
  Aligner.align (smartSplitText this) cleanText (fun line => line)
    cleanedText cleanedLines mdLines.

End Category.
End SmartSubtitleReader.

(** ** Voice selection, window sizing and the spoken text of the readers *)

Module Voices.
Import JS Reader.

(** What the reader looks at in a [SpeechSynthesisVoice]. *)
Record Voice : Type :=
  { v_name : str;
    v_lang : str }.

(** [s.includes(pat)] *)
Definition includes (s pat : str) : bool :=
  match indexOf s pat 0 with
  | Some _ => true
  | None => false
  end.

(** [findTargetVoice()], over the list [speechSynthesis.getVoices()]
    returns; [None] is [undefined]. *)
Definition findTargetVoice (this : t) (voices : list Voice) : option Voice :=
  match List.find (fun v => includes (v_name v) (targetVoiceName (config this))) voices with
  | Some v => Some v
  | None =>
      match List.find (fun v => includes (v_lang v) (lit "zh")) voices with
      | Some v => Some v
      | None => voices !! 0
      end
  end.

End Voices.

Module Window.
Import JS Reader.






End Window.

Module Playback.
Import JS Reader.

Section Category.
Variable category : N -> GeneralCategory.

(** The text [startReading] of unnamed/part_000 hands to
    [SpeechSynthesisUtterance]: [filterTextComplete(cleanedText)]. *)
Definition utteranceText (this : t) (text : str) (mdHtml : list str) : str :=
  SubtitleReaderKeepLength.filterTextComplete category
    (cleanedText
       (SubtitleReaderKeepLength.processText category this text mdHtml)).

End Category.
End Playback.

(** ** Vocabulary of the statements *)

Module SegmenterSpec.
Import JS Segmenter.

(** The units that carry [texts] one after the other from position [from]:
    each starts where the previous one ends. *)
Fixpoint layout (from : nat) (texts : list str) : list TextUnit :=
  match texts with
  | [] => []
  | t :: rest =>
      {| u_text := t; u_start := from; u_end := from + length t |}
        :: layout (from + length t) rest
  end.

(** What bounds the rounds left in the loop of [forceSplitText]: two per
    character still to read, one more while a part is being accumulated. *)
Definition rank (text : str) (st : ForceState) : nat :=
  2 * (length text - fs_i st) + (if truthy (fs_currentText st) then 1 else 0).

(** Within the budget, or a single character that is too wide alone. *)
Definition widthOk (measure : str -> Q) (maxWidth : Q) (t : str) : Prop :=
  fits measure maxWidth t = true
  \/ (length t = 1 /\ tooWide measure maxWidth t = true).

(** What the loop of [forceSplitText] maintains: the accumulated text is
    the part of [text] from [startPos] to [i], it was measured as fitting
    unless it is empty, and the units pushed so far are non-empty
    consecutive parts that make up [text] up to [startPos]. *)
Record ForceInv (measure : str -> Q) (maxWidth : Q) (text : str) (base : nat)
    (st : ForceState) : Prop :=
  { fi_bound : fs_i st <= length text;
    fi_pos : fs_startPos st + length (fs_currentText st) = fs_i st;
    fi_cur : fs_currentText st
             = take (length (fs_currentText st)) (drop (fs_startPos st) text);
    fi_cur_ok : fs_currentText st = []
                \/ fits measure maxWidth (fs_currentText st) = true;
    fi_units : exists texts,
        fs_units st = layout base texts
        /\ concat texts = take (fs_startPos st) text
        /\ Forall (fun t => t <> []) texts
        /\ Forall (widthOk measure maxWidth) texts }.

(** The matches that carry [phrases] one after the other from [from]. *)
Fixpoint matchesAt (from : nat) (phrases : list str) : list (nat * str) :=
  match phrases with
  | [] => []
  | p :: rest => (from, p) :: matchesAt (from + length p) rest
  end.

(** What is left of [s] from its first character of the class [q] on. *)
Fixpoint fromMark (q : N -> bool) (s : str) : str :=
  match s with
  | [] => []
  | c :: t => if q c then s else fromMark q t
  end.

(** The shape of both splitting patterns over a class [q] of marks: a run
    of other characters, then a mark, optional in the second. *)
Definition runThenMark (q : N -> bool) : regex :=
  Seq (Many 1 (fun c => negb (q c))) (Cls q).

Definition runMaybeMark (q : N -> bool) : regex :=
  Seq (Many 1 (fun c => negb (q c))) (Opt (Cls q)).

(** The two upper tiers have one shape: each match becomes a unit when it
    fits and is handed to the next tier otherwise, and so is what remains
    after the last match unless it is blank. *)
Definition emit (measure : str -> Q) (maxWidth : Q)
    (next : str -> nat -> list TextUnit) (base : nat) (m : nat * str)
  : list TextUnit :=
  let '(index, phrase) := m in
  if fits measure maxWidth phrase
  then [{| u_text := phrase;
           u_start := base + index;
           u_end := base + index + length phrase |}]
  else next phrase (base + index).

(** Where the last match ends; [pos] when there is none. *)
Definition endOf (pos : nat) (matches : list (nat * str)) : nat :=
  fold_left (fun _ '(index, phrase) => index + length phrase) matches pos.

(** One tier: the units of the matches, then what remains of [text]
    after the last match. *)
Definition tier (measure : str -> Q) (maxWidth : Q)
    (next : str -> nat -> list TextUnit) (base : nat) (text : str)
    (matches : list (nat * str)) : list TextUnit :=
  let units := flat_map (emit measure maxWidth next base) matches in
  let currentPos := endOf 0 matches in
  if currentPos <? length text then
    let remaining := drop currentPos text in
    if truthy (trim remaining) then
      if fits measure maxWidth remaining
      then units ++ [{| u_text := remaining;
                        u_start := base + currentPos;
                        u_end := base + length text |}]
      else units ++ next remaining (base + currentPos)
    else units
  else units.

(** The splitter [next] cuts [s] into non-empty consecutive units, losing
    nothing. *)
Definition covers (next : str -> nat -> list TextUnit) (s : str) : Prop :=
  forall base, exists texts,
    next s base = layout base texts
    /\ concat texts = s
    /\ Forall (fun t => t <> []) texts.

(** The units are cut from [s], which starts at position [pos], in order
    and without overlap: [s] is a gap, the text of the first unit, a gap,
    the text of the second unit, and so on, every unit being placed where
    its text stands. *)
Fixpoint cutFrom (s : str) (pos : nat) (units : list TextUnit) : Prop :=
  match units with
  | [] => True
  | u :: rest =>
      exists gap after,
        s = gap ++ u_text u ++ after
        /\ u_start u = pos + length gap
        /\ u_end u = u_start u + length (u_text u)
        /\ cutFrom after (u_end u) rest
  end.

(** The same for the matches of a pattern. *)
Fixpoint matchedIn (s : str) (pos : nat) (matches : list (nat * str)) : Prop :=
  match matches with
  | [] => True
  | (index, m) :: rest =>
      exists gap after,
        s = gap ++ m ++ after
        /\ index = pos + length gap
        /\ matchedIn after (index + length m) rest
  end.

(** A mark of either pattern. *)
Definition isMark (c : N) : bool := isSentenceEnd c || isClauseMark c.

(** No character of the class [q] stands first ([afterMark = true]) or
    directly after another one. *)
Fixpoint spaced (q : N -> bool) (afterMark : bool) (s : str) : bool :=
  match s with
  | [] => true
  | c :: t =>
      if q c then negb afterMark && spaced q true t else spaced q false t
  end.

(** No mark stands first in the line or directly after another mark. *)
Definition wellPunctuated (line : str) : bool := spaced isMark true line.

End SegmenterSpec.

(** ** Vocabulary of the aligner and the synchroniser *)

Module AlignerSpec.
Import JS Reader.

(** A cell holds the sentinel or the index of one of [units] units. *)
Definition cellOk (units : nat) (cell : option Z) : Prop :=
  cell = Some (-1)%Z \/ exists i, cell = Some (Z.of_nat i) /\ i < units.

(** The index has one cell per character of the spoken text, and every
    cell holds the sentinel or the index of an existing display unit. *)
Definition wellIndexed (r : Processed) : Prop :=
  length (charToUnitMap r) = length (cleanedText r)
  /\ Forall (cellOk (length (displayUnits r))) (charToUnitMap r).

(** What both alignment loops maintain: one cell per character, each the
    sentinel or the index of a unit already pushed. *)
Definition indexOk (cleanedText : str)
    (acc : list DisplayUnit * list (option Z)) : Prop :=
  length acc.2 = length cleanedText
  /\ Forall (cellOk (length acc.1)) acc.2.

(** The event is of one of the two kinds the handler reacts to. *)
Definition isBoundary (event : BoundaryEvent) : Prop :=
  ev_name event = lit "word" \/ ev_name event = lit "sentence".

(** The offset of the event falls on the cell [cell] of the index. *)
Definition resolves (charToUnitMap : list (option Z)) (event : BoundaryEvent)
    (cell : option Z) : Prop :=
  charToUnitMap !! default 0 (ev_charIndex event) = Some cell.

(** Showing a unit: the subtitle is set to its text, then the window is
    adjusted to it. *)
Definition showUnit (unit : DisplayUnit) : list Effect :=
  [SetSubtitle (d_text unit); AdjustWindowSize (d_text unit)].

End AlignerSpec.

(** ** Sample instances

    A width oracle that reports ten units per code unit, and instances
    that measure with it. *)

Module Samples.
Import JS.

Definition tenPerChar (s : str) : Q := inject_Z (10 * Z.of_nat (length s)).

(** An oracle for which nothing fits. *)
Definition alwaysWide (s : str) : Q := 1%Q.

Definition smartSubtitle (maxLineWidth : Z) : SmartSubtitle.t :=
  {| SmartSubtitle.config :=
       {| SmartSubtitle.maxLineWidth := inject_Z maxLineWidth;
          SmartSubtitle.fontSize := 22;
          SmartSubtitle.fontFamily := lit "Microsoft YaHei UI, Segoe UI, sans-serif";
          SmartSubtitle.cleanEmoji := true;
          SmartSubtitle.cleanSpecialChars := true;
          SmartSubtitle.normalizeSpaces := true |};
     SmartSubtitle.measureText := tenPerChar |}.

(** The same instance with another font and the cleaning switched off. *)
Definition smartSubtitlePlain (maxLineWidth : Z) : SmartSubtitle.t :=
  {| SmartSubtitle.config :=
       {| SmartSubtitle.maxLineWidth := inject_Z maxLineWidth;
          SmartSubtitle.fontSize := 30;
          SmartSubtitle.fontFamily := lit "serif";
          SmartSubtitle.cleanEmoji := false;
          SmartSubtitle.cleanSpecialChars := false;
          SmartSubtitle.normalizeSpaces := false |};
     SmartSubtitle.measureText := tenPerChar |}.

Definition reader (maxTextWidth : Z) : Reader.t :=
  {| Reader.config :=
       {| Reader.targetVoiceName := lit "Microsoft Yunxi Online";
          Reader.speechRate := 1;
          Reader.minWindowWidth := 300;
          Reader.maxWindowWidth := 900;
          Reader.singleLineHeight := 35;
          Reader.multiLineHeight := 70;
          Reader.completionDelay := 2000;
          Reader.maxTextWidth := inject_Z maxTextWidth;
          Reader.standalone := false |};
     Reader.measureText := tenPerChar |}.

(** Two lines, as raw text and as the only text node of the page. *)
Definition twoLines : str := lit "Hi." ++ [10%N] ++ lit "Yes.".

(** A line that cleans to nothing, then the same line twice. *)
Definition starThenTwice : str :=
  [0x2605%N] ++ [10%N] ++ lit "Yes." ++ [10%N] ++ lit "Yes.".

(** A line that is one link, then the same line twice. *)
Definition linkThenTwice : str :=
  lit "https://example.com/path" ++ [10%N] ++ lit "Yes." ++ [10%N] ++ lit "Yes.".

(** The text and the span of a display unit. *)
Definition span (unit : DisplayUnit) : str * nat * nat :=
  (d_text unit, d_start unit, d_end unit).

End Samples.

(** ** Vocabulary of the sanitizers *)

Module SanitizerSpec.
Import JS Patterns.

(** Every run of whitespace becomes one U+0020; [inRun] tells that the
    previous character was whitespace. *)
Fixpoint squeeze (inRun : bool) (s : str) : str :=
  match s with
  | [] => []
  | c :: t =>
      if isSpace c
      then if inRun then squeeze true t else 32%N :: squeeze true t
      else c :: squeeze false t
  end.

(** The only whitespace is U+0020, and never twice in a row. *)
Definition singleSpaced (s : str) : Prop :=
  Forall (fun c => isSpace c = true -> c = 32%N) s
  /\ forall k a b,
      s !! k = Some a -> s !! S k = Some b ->
      isSpace a = true -> isSpace b = false.

(** No whitespace at either end. *)
Definition trimmed (s : str) : Prop :=
  (forall c, head s = Some c -> isSpace c = false)
  /\ (forall c, last s = Some c -> isSpace c = false).

(** [out] is [s] with some characters replaced by U+0020, position by
    position. *)
Definition blanked (s out : str) : Prop :=
  Forall2 (fun a b => b = a \/ b = 32%N) s out.

(** The four link replacements at the head of [filterTextKeepLength]. *)
Definition blankLinks (text : str) : str :=
  replace emailRe blank
    (replace domainRe blank
       (replace wwwRe blank
          (replace httpRe blank text))).

(** Every match of the pattern contains the character [c]: it is in one
    of the literals the pattern goes through. *)
Fixpoint requires (c : N) (r : regex) : bool :=
  match r with
  | Lit l => one_of l c
  | Seq r1 r2 => requires c r1 || requires c r2
  | Cls _ | Opt _ | Many _ _ => false
  end.

(** The text holds no [c]. *)
Definition lacks (c : N) (s : str) : Prop := Forall (fun x => x <> c) s.

(** A text no link pattern can match in: no full stop, and no colon or no
    slash. *)
Definition linkFree (s : str) : Prop :=
  lacks 46%N s /\ (lacks 58%N s \/ lacks 47%N s).

End SanitizerSpec.

(** ** Vocabulary of the segmenter, continued *)

Module UnitSpec.
Import JS Segmenter.

(** The unit cannot take the character that follows it in [text], which
    starts at [base]: with it the unit is too wide, or the unit is one
    character that is too wide alone. *)
Definition maximal (measure : str -> Q) (maxWidth : Q) (text : str) (base : nat)
    (u : TextUnit) : Prop :=
  forall c, text !! (u_end u - base) = Some c ->
    tooWide measure maxWidth (u_text u ++ [c]) = true
    \/ (length (u_text u) = 1 /\ tooWide measure maxWidth (u_text u) = true).

(** The unit moved [base] positions to the right. *)
Definition shift (base : nat) (u : TextUnit) : TextUnit :=
  {| u_text := u_text u;
     u_start := base + u_start u;
     u_end := base + u_end u |}.

(** The state of the loop of [forceSplitText] when the text stands [base]
    positions further. *)
Definition shiftState (base : nat) (st : ForceState) : ForceState :=
  {| fs_units := List.map (shift base) (fs_units st);
     fs_currentText := fs_currentText st;
     fs_startPos := fs_startPos st;
     fs_i := fs_i st |}.

(** The unit is a non-empty part of a text of [n] characters that starts
    at [base]. *)
Definition inside (base n : nat) (u : TextUnit) : Prop :=
  u_text u <> []
  /\ base <= u_start u
  /\ u_end u = u_start u + length (u_text u)
  /\ u_end u <= base + n.

(** Each unit ends before the next one starts. *)
Fixpoint ordered (units : list TextUnit) : Prop :=
  match units with
  | u :: (v :: _) as rest => u_end u <= u_start v /\ ordered rest
  | _ => True
  end.

End UnitSpec.

(** ** Vocabulary of the aligner, continued *)

Module SpanSpec.
Import JS Reader AlignerSpec.

(** The span of the unit lies in the spoken text and reads [t] there. *)
Definition reads (cleanedText : str) (u : DisplayUnit) (t : str) : Prop :=
  d_end u = d_start u + length t
  /\ d_end u <= length cleanedText
  /\ take (length t) (drop (d_start u) cleanedText) = t.

(** The position [k] is in the span of the unit. *)
Definition spans (u : DisplayUnit) (k : nat) : Prop :=
  d_start u <= k < d_end u.

(** Every cell that names a unit lies in the span of that unit. *)
Definition pointsInside (units : list DisplayUnit) (map : list (option Z))
  : Prop :=
  forall k i, map !! k = Some (Some (Z.of_nat i)) ->
    exists u, units !! i = Some u /\ spans u k.

(** What the loops of [processSubtitleText] and of the [processText] of
    subtitle-reader.js maintain beside [indexOk]: the cells point inside
    the spans, every span reads the cleaned text of its unit, and the text
    of every unit has the property [P] of the units of the segmenter. *)
Definition spanInv (cleanUnitText : str -> str) (P : str -> Prop)
    (cleanedText : str) (acc : list DisplayUnit * list (option Z)) : Prop :=
  length acc.2 = length cleanedText
  /\ pointsInside acc.1 acc.2
  /\ Forall (fun u =>
               P (d_text u)
               /\ d_cleanedText u = Some (cleanUnitText (d_text u))
               /\ reads cleanedText u (cleanUnitText (d_text u))) acc.1.

(** Each unit ends before the next one starts. *)
Definition inOrder (units : list DisplayUnit) : Prop :=
  forall i j u v, i < j -> units !! i = Some u -> units !! j = Some v ->
    d_end u <= d_start v.

(** What the loops of the length-preserving [processText] maintain: the
    spans lie before the cursor, in order, and a cell holds the index of
    the unit whose span it is in, or the sentinel when it is in none. *)
Record KeepInv (cleanedText : str) (st : Aligner.AlignState) : Prop :=
  { ki_length : length st.1.2 = length cleanedText;
    ki_cursor : st.2 <= length cleanedText;
    ki_before : Forall (fun u => d_start u <= d_end u /\ d_end u <= st.2) st.1.1;
    ki_order : inOrder st.1.1;
    ki_cells : forall k c, st.1.2 !! k = Some c ->
        (c = Some (-1)%Z /\ forall u, u ∈ st.1.1 -> ~ spans u k)
        \/ (exists i u, c = Some (Z.of_nat i)
                        /\ st.1.1 !! i = Some u /\ spans u k) }.

(** The effects of showing the units at [indices], one after the other. *)
Definition shows (units : list DisplayUnit) (indices : list nat) : list Effect :=
  flat_map (fun i => from_option showUnit [] (units !! i)) indices.

(** No index stands directly after itself, nor first after [current]. *)
Fixpoint changing (current : option Z) (indices : list nat) : Prop :=
  match indices with
  | [] => True
  | i :: rest =>
      current <> Some (Z.of_nat i) /\ changing (Some (Z.of_nat i)) rest
  end.

(** The unit shown last, or [current] when none was shown. *)
Definition lastShown (current : option Z) (indices : list nat) : option Z :=
  match last indices with
  | Some i => Some (Z.of_nat i)
  | None => current
  end.

End SpanSpec.

(** * Properties *)

(** ** Strings, searches and arrays *)

Module JSFacts.
Import JS.

Lemma isPrefix_spec (p s : str) :
  isPrefix p s = true <-> exists rest, s = p ++ rest.
Proof.
  revert s; induction p as [|a p IH]; intros s; simpl.
  - split; [eauto | done].
  - destruct s as [|b s]; simpl.
    + split; [done | intros [rest H]; discriminate].
    + rewrite andb_true_iff, N.eqb_eq, IH. split.
      * intros [-> [rest ->]]. eauto.
      * intros [rest H]. injection H as -> ->. eauto.
Qed.

Lemma isPrefix_length (p s : str) :
  isPrefix p s = true -> length p <= length s.
Proof.
  rewrite isPrefix_spec. intros [rest ->]. rewrite length_app. lia.
Qed.

Lemma findFrom_bound (pat suf : str) (k p : nat) :
  findFrom pat suf k = Some p ->
  k <= p /\ p + length pat <= k + length suf.
Proof.
  revert k; induction suf as [|c suf IH]; intros k; simpl.
  - destruct (isPrefix pat []) eqn:E; [|done].
    intros [= <-]. apply isPrefix_length in E. simpl in E. lia.
  - destruct (isPrefix pat (c :: suf)) eqn:E.
    + intros [= <-]. apply isPrefix_length in E. simpl in E. lia.
    + intros H. apply IH in H. lia.
Qed.

(** A successful [indexOf] leaves room for the whole pattern. *)
Lemma indexOf_bound (s pat : str) (from p : nat) :
  indexOf s pat from = Some p ->
  Nat.min from (length s) <= p /\ p + length pat <= length s.
Proof.
  unfold indexOf. intros H. apply findFrom_bound in H.
  rewrite length_drop in H. lia.
Qed.

Lemma findFrom_here (pat suf : str) (k : nat) :
  isPrefix pat suf = true -> findFrom pat suf k = Some k.
Proof. intros H. destruct suf; simpl; rewrite H; done. Qed.

Lemma length_arraySet_in (a : list (option Z)) (k : nat) (v : Z) :
  k < length a -> length (arraySet a k v) = length a.
Proof.
  intros H. unfold arraySet.
  destruct (Nat.ltb_spec k (length a)); [|lia]. apply length_insert.
Qed.

Lemma Forall_arraySet_in (P : option Z -> Prop) (a : list (option Z))
    (k : nat) (v : Z) :
  k < length a -> P (Some v) -> Forall P a -> Forall P (arraySet a k v).
Proof.
  intros H Hv Ha. unfold arraySet.
  destruct (Nat.ltb_spec k (length a)); [|lia].
  by apply Forall_insert.
Qed.

Lemma fillRange_in (P : option Z -> Prop) (a : list (option Z))
    (from to : nat) (v : Z) :
  to <= length a -> P (Some v) -> Forall P a ->
  length (fillRange a from to v) = length a /\ Forall P (fillRange a from to v).
Proof.
  unfold fillRange. intros Hto Hv.
  assert (Hseq : forall k, k ∈ seq from (to - from) -> k < length a).
  { intros k Hk. apply elem_of_seq in Hk. lia. }
  revert Hseq. generalize (seq from (to - from)) as ks.
  intros ks; revert a Hto; induction ks as [|k ks IH]; intros a Hto Hks Ha; simpl.
  - done.
  - assert (k < length a) by (apply Hks; left).
    destruct (IH (arraySet a k v)) as [Hl HP].
    + by rewrite length_arraySet_in.
    + intros j Hj. rewrite length_arraySet_in by done. apply Hks. by right.
    + by apply Forall_arraySet_in.
    + split; [|done]. rewrite Hl. by apply length_arraySet_in.
Qed.

End JSFacts.

(** ** The string model at work *)

Module JSExamples.
Import JS Patterns Segmenter.

Example indexOf_from : indexOf (lit "Yes.Yes.") (lit "Yes.") 1 = Some 4.
Proof. reflexivity. Qed.

Example indexOf_missing : indexOf (lit "Yes.Yes.") (lit "Yes.") 5 = None.
Proof. reflexivity. Qed.

Example indexOf_empty_clamped : indexOf (lit "abc") [] 7 = Some 3.
Proof. reflexivity. Qed.

Example split_lines :
  split 10 (lit "a" ++ [10%N] ++ [10%N] ++ lit "b") = [lit "a"; []; lit "b"].
Proof. reflexivity. Qed.

Example trim_both : trim (lit "  a b ") = lit "a b".
Proof. reflexivity. Qed.

Example arraySet_extends :
  arraySet [Some 1%Z] 3 7 = [Some 1%Z; None; None; Some 7%Z].
Proof. reflexivity. Qed.

Example matchAll_sentences :
  matchAll sentenceRegex (lit "Hi! How? ok")
  = [(0, lit "Hi!"); (3, lit " How?")].
Proof. reflexivity. Qed.

Example matchAll_clauses :
  matchAll punctRegex (lit "a, b;c")
  = [(0, lit "a,"); (2, lit " b;"); (5, lit "c")].
Proof. reflexivity. Qed.

(** The greedy run gives characters back until the rest of the pattern
    matches. *)
Example wwwTld_backtracks :
  matchAll wwwTldRe (lit "see www.a.org/x1 now")
  = [(4, lit "www.a.org")].
Proof. reflexivity. Qed.

Example domain_then_path :
  matchAll domainRe (lit "at foo.bar.baz/q?x=1 and a.b")
  = [(3, lit "foo.bar.baz/q?x=1")].
Proof. reflexivity. Qed.

Example email_found :
  matchAll emailRe (lit "mail bob.j@site.co.uk!")
  = [(5, lit "bob.j@site.co.uk")].
Proof. reflexivity. Qed.

Example replace_blank :
  replace httpRe blank (lit "go http://a.b now") = lit "go            now".
Proof. reflexivity. Qed.

Example replace_spaces :
  replace spacesRe oneSpace (lit "a  b" ++ [9%N; 32%N] ++ lit "c ") = lit "a b c ".
Proof. reflexivity. Qed.

(** U+1F600 is one code point of two code units. *)
Example remove_pair :
  removeCodePoints emoji ([97; 0xD83D; 0xDE00; 98]%N) = [97; 98]%N.
Proof. reflexivity. Qed.

End JSExamples.

(** ** The hard split: [forceSplitText] *)

Module ForceFacts.
Import JS JSFacts Segmenter SegmenterSpec.

Lemma layout_app (from : nat) (xs ys : list str) :
  layout from (xs ++ ys) = layout from xs ++ layout (from + length (concat xs)) ys.
Proof.
  revert from; induction xs as [|x xs IH]; intros from; simpl.
  - by rewrite Nat.add_0_r.
  - rewrite IH, length_app. do 3 f_equal. lia.
Qed.

Lemma layout_texts (from : nat) (texts : list str) :
  List.map u_text (layout from texts) = texts.
Proof.
  revert from; induction texts as [|t texts IH]; intros from; simpl; [done|].
  by rewrite IH.
Qed.

Section Facts.

Variable measure : str -> Q.
Variable maxWidth : Q.

Local Abbreviation widthOk := (SegmenterSpec.widthOk measure maxWidth).
Local Abbreviation ForceInv := (SegmenterSpec.ForceInv measure maxWidth).

Lemma fits_not_tooWide (s : str) :
  fits measure maxWidth s = negb (tooWide measure maxWidth s).
Proof. unfold fits, tooWide. by rewrite negb_involutive. Qed.

(** *** Termination *)

Lemma charAt_in (text : str) (i : nat) :
  i < length text -> exists c, text !! i = Some c /\ charAt text i = [c].
Proof.
  intros H. destruct (lookup_lt_is_Some_2 text i H) as [c Hc].
  exists c. unfold charAt. by rewrite Hc.
Qed.

Lemma forceBody_rank (text : str) (base : nat) (st : ForceState) :
  fs_i st < length text ->
  rank text (forceBody measure maxWidth text base st) < rank text st.
Proof.
  intros Hi. destruct (charAt_in text _ Hi) as (c & _ & Hc).
  unfold forceBody, rank. rewrite Hc.
  destruct (tooWide measure maxWidth (fs_currentText st ++ [c])); simpl.
  - destruct (Nat.ltb_spec 1 (length (fs_currentText st ++ [c]))) as [H|H];
      simpl; rewrite length_app in H; simpl in H.
    + destruct (fs_currentText st); simpl in *; lia.
    + lia.
  - destruct (fs_currentText st); simpl; lia.
Qed.

Lemma forceLoop_enough (text : str) (base : nat) (fuel : nat) (st : ForceState) :
  rank text st <= fuel ->
  exists st', forceLoop measure maxWidth fuel text base st = Some st'
              /\ length text <= fs_i st'.
Proof.
  revert st; induction fuel as [|fuel IH]; intros st Hr; simpl.
  - destruct (Nat.ltb_spec (fs_i st) (length text)) as [H|H].
    + unfold rank in Hr. lia.
    + eauto.
  - destruct (Nat.ltb_spec (fs_i st) (length text)) as [H|H].
    + apply IH. pose proof (forceBody_rank text base st H). lia.
    + eauto.
Qed.

Lemma forceLoop_more (text : str) (base : nat) (fuel k : nat)
    (st st' : ForceState) :
  forceLoop measure maxWidth fuel text base st = Some st' ->
  forceLoop measure maxWidth (fuel + k) text base st = Some st'.
Proof.
  revert st; induction fuel as [|fuel IH]; intros st; simpl.
  - destruct (Nat.ltb_spec (fs_i st) (length text)) as [H|H]; [done|].
    intros [= <-]. destruct k; simpl;
      destruct (Nat.ltb_spec (fs_i st) (length text)); (done || lia).
  - destruct (Nat.ltb_spec (fs_i st) (length text)) as [H|H]; [apply IH | done].
Qed.

(** The loop started on [text] ends within [2 * length text] rounds. *)
Lemma forceLoop_ends (text : str) (base : nat) :
  exists st,
    (forall fuel, 2 * length text <= fuel ->
       forceLoop measure maxWidth fuel text base forceInit = Some st)
    /\ length text <= fs_i st.
Proof.
  destruct (forceLoop_enough text base (2 * length text) forceInit)
    as (st & Hst & Hi).
  { unfold rank, forceInit; simpl. lia. }
  exists st. split; [|done]. intros fuel Hf.
  replace fuel with (2 * length text + (fuel - 2 * length text)) by lia.
  by apply forceLoop_more.
Qed.

Lemma forceSplitText_unfold (text : str) (base : nat) :
  exists st,
    forceLoop measure maxWidth (2 * length text) text base forceInit = Some st
    /\ forceSplitText measure maxWidth text base = forceFinish text base st.
Proof.
  destruct (forceLoop_ends text base) as (st & Hst & _).
  exists st. split; [by apply Hst|].
  unfold forceSplitText, forceSplitTextFuel. by rewrite Hst.
Qed.

(** *** What the loop maintains *)

Lemma forceInit_inv (text : str) (base : nat) : ForceInv text base forceInit.
Proof.
  split; simpl; try done; try lia; [by left|].
  exists []. by rewrite take_0.
Qed.

Lemma forceBody_inv (text : str) (base : nat) (st : ForceState) :
  fs_i st < length text ->
  ForceInv text base st ->
  ForceInv text base (forceBody measure maxWidth text base st).
Proof.
  intros Hi [Hb Hpos Hcur Hok (texts & Hu & Hc & Hne & Hw)].
  destruct (charAt_in text _ Hi) as (c & Hlk & Hc').
  assert (Hnext : take (S (length (fs_currentText st))) (drop (fs_startPos st) text)
                  = fs_currentText st ++ [c]).
  { rewrite (take_S_r _ _ c), <- Hcur; [done|].
    rewrite lookup_drop, Hpos. done. }
  assert (Hlen : length (concat texts) = fs_startPos st).
  { rewrite Hc, length_take. lia. }
  unfold forceBody. rewrite Hc'.
  destruct (tooWide measure maxWidth (fs_currentText st ++ [c])) eqn:Hwide.
  - destruct (Nat.ltb_spec 1 (length (fs_currentText st ++ [c]))) as [H|H];
      rewrite length_app in H; simpl in H.
    + (* the last character goes back: the part emitted was measured before *)
      assert (Htake : take (length (fs_currentText st ++ [c]) - 1)
                        (fs_currentText st ++ [c]) = fs_currentText st).
      { rewrite length_app; simpl.
        replace (length (fs_currentText st) + 1 - 1)
          with (length (fs_currentText st)) by lia.
        by rewrite take_app_length. }
      rewrite Htake.
      split; simpl; [lia | lia | done | by left | ].
      exists (texts ++ [fs_currentText st]). repeat split.
      * rewrite layout_app, Hu, Hlen. done.
      * rewrite concat_app, Hc; simpl. rewrite app_nil_r.
        rewrite Hcur at 1.
        replace (fs_i st - 1 + 1) with (fs_startPos st + length (fs_currentText st)) by lia.
        by rewrite take_take_drop.
      * apply Forall_app. split; [done|]. constructor; [|done].
        intros E. rewrite E in H. simpl in H. lia.
      * apply Forall_app. split; [done|]. constructor; [|done].
        left. destruct Hok as [E|E]; [|done].
        rewrite E in H. simpl in H. lia.
    + (* a single character that is too wide alone *)
      assert (E : fs_currentText st = []).
      { destruct (fs_currentText st); [done | simpl in H; lia]. }
      rewrite E in *. simpl in *.
      split; simpl; [lia | lia | done | by left | ].
      exists (texts ++ [[c]]). repeat split.
      * rewrite layout_app, Hu, Hlen. done.
      * rewrite concat_app, Hc; simpl.
        replace (fs_i st + 1) with (S (fs_startPos st)) by lia.
        rewrite (take_S_r _ _ c); [done|].
        by replace (fs_startPos st) with (fs_i st) by lia.
      * apply Forall_app. split; [done|]. by constructor.
      * apply Forall_app. split; [done|]. constructor; [|done].
        right. done.
  - split; simpl.
    + lia.
    + rewrite length_app; simpl. lia.
    + rewrite length_app; simpl.
      replace (length (fs_currentText st) + 1)
        with (S (length (fs_currentText st))) by lia.
      by rewrite Hnext.
    + right. rewrite fits_not_tooWide, Hwide. done.
    + exists texts. done.
Qed.

Lemma forceLoop_inv (text : str) (base : nat) (fuel : nat) (st st' : ForceState) :
  ForceInv text base st ->
  forceLoop measure maxWidth fuel text base st = Some st' ->
  ForceInv text base st' /\ fs_i st' = length text.
Proof.
  revert st; induction fuel as [|fuel IH]; intros st Hinv; simpl.
  - destruct (Nat.ltb_spec (fs_i st) (length text)) as [H|H]; [done|].
    intros [= <-]. split; [done|]. destruct Hinv. lia.
  - destruct (Nat.ltb_spec (fs_i st) (length text)) as [H|H].
    + apply IH. by apply forceBody_inv.
    + intros [= <-]. split; [done|]. destruct Hinv. lia.
Qed.

(** The units of [forceSplitText] are its non-empty parts of [text], laid
    out one after the other from [basePosition]; each part is within the
    budget or is one character. *)
Lemma forceSplitText_layout (text : str) (base : nat) :
  exists texts,
    forceSplitText measure maxWidth text base = layout base texts
    /\ concat texts = text
    /\ Forall (fun t => t <> []) texts
    /\ Forall widthOk texts.
Proof.
  destruct (forceSplitText_unfold text base) as (st & Hloop & ->).
  destruct (forceLoop_inv text base _ _ _ (forceInit_inv text base) Hloop)
    as [[Hb Hpos Hcur Hok (texts & Hu & Hc & Hne & Hw)] Hend].
  assert (Hlen : length (concat texts) = fs_startPos st).
  { rewrite Hc, length_take. lia. }
  unfold forceFinish. destruct (fs_currentText st) as [|c cur] eqn:E; simpl.
  - exists texts. repeat split; try done.
    rewrite Hc. simpl in Hpos. rewrite take_ge; [done | lia].
  - exists (texts ++ [c :: cur]). repeat split.
    + rewrite layout_app, Hu, Hlen. simpl in *. do 3 f_equal. lia.
    + rewrite concat_app, Hc; simpl. rewrite app_nil_r.
      rewrite Hcur, take_take_drop, take_ge; [done | simpl in *; lia].
    + apply Forall_app. split; [done|]. by constructor.
    + apply Forall_app. split; [done|]. constructor; [|done].
      left. by destruct Hok.
Qed.

End Facts.
End ForceFacts.

(** ** The two splitting patterns *)

Module RegexFacts.
Import JS JSFacts Segmenter SegmenterSpec.

(** *** Every match is a part of the string *)

Lemma many_suffix (p : N -> bool) (min : nat) (s rest : str) :
  In rest (many p min s) -> exists m, s = m ++ rest.
Proof.
  revert min; induction s as [|c s IH]; intros min; simpl.
  - destruct (min =? 0); [|done]. intros [<- | []]. by exists [].
  - rewrite in_app_iff. intros [H | H].
    + destruct (p c); [|done]. apply IH in H as [m ->]. by exists (c :: m).
    + destruct (min =? 0); [|done]. destruct H as [<- | []]. by exists [].
Qed.

Lemma rmatch_suffix (r : regex) (s rest : str) :
  In rest (rmatch r s) -> exists m, s = m ++ rest.
Proof.
  revert s rest; induction r as [p | l | r1 IH1 r2 IH2 | r IH | min p];
    intros s rest; simpl.
  - destruct s as [|c t]; [done|]. destruct (p c); [|done].
    intros [<- | []]. by exists [c].
  - destruct (isPrefix l s) eqn:E; [|done]. intros [<- | []].
    apply isPrefix_spec in E as [rest' ->].
    exists l. by rewrite drop_app_length.
  - rewrite in_flat_map. intros (mid & H1 & H2).
    apply IH1 in H1 as [m1 ->]. apply IH2 in H2 as [m2 ->].
    exists (m1 ++ m2). by rewrite app_assoc.
  - rewrite in_app_iff. intros [H | [<- | []]]; [by apply IH | by exists []].
  - apply many_suffix.
Qed.

Lemma take_suffix (s m rest : str) :
  s = m ++ rest -> take (length s - length rest) s = m.
Proof.
  intros ->. rewrite length_app.
  replace (length m + length rest - length rest) with (length m) by lia.
  apply take_app_length.
Qed.

(** A successful search reports a part of the string and what follows
    it. *)
Lemma search_found (r : regex) (suf : str) (pos : nat) (f : found) :
  search r suf pos = Some f ->
  exists skipped,
    suf = skipped ++ f_text f ++ f_rest f
    /\ f_index f = pos + length skipped.
Proof.
  revert pos; induction suf as [|c suf IH]; intros pos;
    unfold search; fold search.
  - destruct (rmatch r []) as [|rest l] eqn:E; [done|]. intros [= <-]. simpl.
    destruct (rmatch_suffix r [] rest) as [m Hm]; [rewrite E; by left|].
    symmetry in Hm. apply app_eq_nil in Hm as [-> ->].
    exists []. split; [done | simpl; lia].
  - destruct (rmatch r (c :: suf)) as [|rest l] eqn:E.
    + intros H. apply IH in H as (skipped & -> & ->).
      exists (c :: skipped). split; [done | simpl; lia].
    + intros [= <-]. cbn [f_text f_rest f_index].
      destruct (rmatch_suffix r (c :: suf) rest) as [m Hm]; [rewrite E; by left|].
      change (S (length suf)) with (length (c :: suf)).
      rewrite (take_suffix _ _ _ Hm). exists []. split; [done | simpl; lia].
Qed.

(** [matchAll] gives [matchAllFrom] enough rounds: more change nothing. *)
Lemma matchAllFrom_fuel (r : regex) (fuel fuel' : nat) (suf : str) (pos : nat) :
  length suf < fuel -> length suf < fuel' ->
  matchAllFrom fuel r suf pos = matchAllFrom fuel' r suf pos.
Proof.
  revert fuel' suf pos; induction fuel as [|fuel IH]; intros fuel' suf pos H H';
    [lia|].
  destruct fuel' as [|fuel']; [lia|].
  unfold matchAllFrom; fold matchAllFrom.
  destruct (search r suf pos) as [f|] eqn:E; [|done].
  apply search_found in E as (skipped & Hs & _).
  assert (Hlen : length suf = length skipped + length (f_text f) + length (f_rest f)).
  { rewrite Hs, !length_app. lia. }
  f_equal. destruct (f_text f) as [|x m]; destruct (f_rest f) as [|y rest]; try done.
  - apply IH; simpl in *; lia.
  - apply IH; simpl in *; lia.
  - apply IH; simpl in *; lia.
Qed.

Lemma matchedIn_shift (x s : str) (pos : nat) (matches : list (nat * str)) :
  matchedIn s (pos + length x) matches -> matchedIn (x ++ s) pos matches.
Proof.
  destruct matches as [|[index m] rest]; [done|]. simpl.
  intros (gap & after & -> & -> & H).
  exists (x ++ gap), after. rewrite length_app, <- app_assoc.
  split; [done|]. split; [lia | done].
Qed.

(** The matches of any pattern stand in the string, in order and without
    overlap. *)
Lemma matchAllFrom_matchedIn (r : regex) (fuel : nat) (suf : str) (pos : nat) :
  matchedIn suf pos (matchAllFrom fuel r suf pos).
Proof.
  revert suf pos; induction fuel as [|fuel IH]; intros suf pos; [done|].
  unfold matchAllFrom; fold matchAllFrom.
  destruct (search r suf pos) as [f|] eqn:E; [|done].
  apply search_found in E as (skipped & Hs & Hi).
  cbn [matchedIn]. exists skipped, (f_rest f). split; [done|]. split; [done|].
  destruct (f_text f) as [|x m]; destruct (f_rest f) as [|y rest];
    try done; try apply IH.
  apply (matchedIn_shift [y]). simpl.
  replace (f_index f + 0 + 1) with (S (f_index f)) by lia. apply IH.
Qed.

Section Marks.

Variable q : N -> bool.

Local Abbreviation runThenMark := (runThenMark q).
Local Abbreviation runMaybeMark := (runMaybeMark q).

Lemma many_0_cons (p : N -> bool) (c : N) (s : str) :
  many p 0 (c :: s) = (if p c then many p 0 s else []) ++ [c :: s].
Proof. done. Qed.

Lemma many_1_cons (p : N -> bool) (c : N) (s : str) :
  many p 1 (c :: s) = if p c then many p 0 s else [].
Proof. simpl. by rewrite app_nil_r. Qed.

Lemma fromMark_split (s : str) :
  exists run, s = run ++ fromMark q s /\ forallb (fun c => negb (q c)) run = true.
Proof.
  induction s as [|c s (run & IH & Hrun)]; simpl.
  - by exists [].
  - destruct (q c) eqn:E.
    + by exists [].
    + exists (c :: run). simpl. rewrite E, Hrun. split; [by f_equal | done].
Qed.

Lemma fromMark_head (s : str) (e : N) (rest : str) :
  fromMark q s = e :: rest -> q e = true.
Proof.
  induction s as [|c s IH]; simpl; [done|].
  destruct (q c) eqn:E; [|done]. by intros [= <- _].
Qed.

Lemma fromMark_none (s : str) :
  forallb (fun c => negb (q c)) s = true -> fromMark q s = [].
Proof.
  induction s as [|c s IH]; simpl; [done|].
  destruct (q c); simpl; [done | exact IH].
Qed.

Lemma length_fromMark (s : str) : length (fromMark q s) <= length s.
Proof.
  induction s as [|c s IH]; simpl; [done|]. destruct (q c); simpl; lia.
Qed.

(** After the greedy run, the mark: only the longest run is followed by
    one. *)
Lemma run_then_mark (s : str) :
  flat_map (rmatch (Cls q)) (many (fun c => negb (q c)) 0 s)
  = match fromMark q s with
    | _ :: rest => [rest]
    | [] => []
    end.
Proof.
  induction s as [|c s IH]; [done|].
  rewrite many_0_cons. cbn [fromMark].
  destruct (q c) eqn:E; cbn [negb].
  - cbn. by rewrite E.
  - rewrite flat_map_app, IH. cbn. rewrite E. by rewrite app_nil_r.
Qed.

Lemma run_maybe_mark (s : str) :
  exists others,
    flat_map (rmatch (Opt (Cls q))) (many (fun c => negb (q c)) 0 s)
    = match fromMark q s with
      | _ :: rest => rest
      | [] => []
      end :: others.
Proof.
  induction s as [|c s (others & IH)].
  - cbn. by eexists.
  - rewrite many_0_cons. cbn [fromMark].
    destruct (q c) eqn:E; cbn [negb].
    + cbn. rewrite E. cbn. by eexists.
    + rewrite flat_map_app, IH. cbn. by eexists.
Qed.

Lemma rmatch_runThenMark (s : str) :
  rmatch runThenMark s
  = match s with
    | c :: t =>
        if q c then []
        else match fromMark q t with
             | _ :: rest => [rest]
             | [] => []
             end
    | [] => []
    end.
Proof.
  destruct s as [|c t]; [done|].
  unfold SegmenterSpec.runThenMark. cbn [rmatch]. rewrite many_1_cons.
  destruct (q c); cbn [negb]; [done|]. apply run_then_mark.
Qed.

Lemma rmatch_runMaybeMark (c : N) (t : str) :
  q c = false ->
  exists others,
    rmatch runMaybeMark (c :: t)
    = match fromMark q t with
      | _ :: rest => rest
      | [] => []
      end :: others.
Proof.
  intros Hc.
  unfold SegmenterSpec.runMaybeMark. cbn [rmatch]. rewrite many_1_cons.
  rewrite Hc; cbn [negb]. apply run_maybe_mark.
Qed.

(** Where there is no mark, the first pattern matches nowhere. *)
Lemma search_runThenMark_none (s : str) (pos : nat) :
  forallb (fun c => negb (q c)) s = true ->
  search runThenMark s pos = None.
Proof.
  revert pos; induction s as [|c s IH]; intros pos H.
  - done.
  - simpl in H. apply andb_true_iff in H as [Hc Hs].
    unfold search; fold search. rewrite rmatch_runThenMark.
    apply negb_true_iff in Hc. rewrite Hc, (fromMark_none _ Hs).
    by apply IH.
Qed.

(** *** Lines whose marks are spaced out *)

Lemma spaced_weaken (a : bool) (s : str) :
  spaced q a s = true -> spaced q false s = true.
Proof.
  destruct s as [|c s]; simpl; [done|].
  destruct (q c); [|done]. rewrite andb_true_iff. intros [_ H]. done.
Qed.

Lemma spaced_run (a : bool) (run rest : str) :
  forallb (fun c => negb (q c)) run = true ->
  spaced q a (run ++ rest) = true ->
  spaced q (match run with [] => a | _ => false end) rest = true.
Proof.
  revert a; induction run as [|c run IH]; intros a Hrun H; simpl in *; [done|].
  apply andb_true_iff in Hrun as [Hc Hrun]. apply negb_true_iff in Hc.
  rewrite Hc in H. specialize (IH false Hrun H).
  destruct run; done.
Qed.

Lemma spaced_after_mark (a : bool) (e : N) (rest : str) :
  q e = true -> spaced q a (e :: rest) = true ->
  a = false /\ spaced q true rest = true.
Proof.
  simpl. intros ->. rewrite andb_true_iff, negb_true_iff. done.
Qed.

(** The shape of a spaced string that starts a match: a first character
    that is no mark, then either no mark at all, or a run, a mark, and a
    spaced rest. *)
Lemma spaced_shape (c : N) (t : str) :
  spaced q true (c :: t) = true ->
  q c = false
  /\ match fromMark q t with
     | e :: rest =>
         exists run, t = run ++ e :: rest /\ q e = true
                     /\ spaced q true rest = true
     | [] => forallb (fun c => negb (q c)) t = true
     end.
Proof.
  simpl. destruct (q c) eqn:E; [done|]. intros H. split; [done|].
  destruct (fromMark_split t) as (run & Ht & Hrun).
  destruct (fromMark q t) as [|e rest] eqn:F.
  - rewrite app_nil_r in Ht. by subst.
  - exists run. pose proof (fromMark_head _ _ _ F) as He.
    split; [done|]. split; [done|].
    rewrite Ht in H. apply spaced_run in H; [|done].
    by apply spaced_after_mark in H as [_ H].
Qed.

Lemma take_match (m rest : str) :
  take (length (m ++ rest) - length rest) (m ++ rest) = m.
Proof.
  rewrite length_app.
  replace (length m + length rest - length rest) with (length m) by lia.
  by rewrite take_app_length.
Qed.

(** On a spaced string the second pattern cuts the whole string into
    consecutive matches. *)
Lemma matchAll_runMaybeMark (fuel : nat) (s : str) (pos : nat) :
  length s < fuel ->
  spaced q true s = true ->
  exists phrases,
    matchAllFrom fuel runMaybeMark s pos = matchesAt pos phrases
    /\ concat phrases = s
    /\ Forall (fun p => p <> [] /\ spaced q true p = true) phrases.
Proof.
  revert s pos; induction fuel as [|fuel IH]; intros s pos Hf Hs; [lia|].
  destruct s as [|c t].
  - exists []. done.
  - pose proof (spaced_shape c t Hs) as [Hc Hshape].
    destruct (rmatch_runMaybeMark c t Hc) as (others & Hm).
    unfold matchAllFrom; fold matchAllFrom.
    unfold search; fold search. rewrite Hm.
    destruct (fromMark q t) as [|e rest] eqn:F.
    + (* the run reaches the end *)
      exists [c :: t]. simpl. rewrite app_nil_r. split; [|split; [done|]].
      * rewrite take_ge by lia. f_equal. by destruct fuel.
      * constructor; [|done]. split; [done | exact Hs].
    + destruct Hshape as (run & -> & He & Hrest).
      change (c :: run ++ e :: rest) with ((c :: run) ++ e :: rest).
      replace ((c :: run) ++ e :: rest) with (((c :: run) ++ [e]) ++ rest)
        by (by rewrite <- app_assoc).
      rewrite take_match.
      destruct (IH rest (pos + length ((c :: run) ++ [e]))) as (phrases & Hp & Hcat & Hne).
      { simpl in Hf. rewrite length_app in Hf. simpl in Hf. lia. }
      { done. }
      exists (((c :: run) ++ [e]) :: phrases). simpl. split; [|split].
      * f_equal. simpl in Hp. exact Hp.
      * by rewrite Hcat.
      * constructor; [|done]. split; [done|].
        simpl in Hs. rewrite Hc in Hs.
        assert (Hrun : forallb (fun c => negb (q c)) run = true).
        { destruct (fromMark_split (run ++ e :: rest)) as (run' & Ht & Hrun').
          rewrite F in Ht. apply app_inj_2 in Ht as [-> _]; done. }
        simpl. rewrite Hc.
        clear -Hrun He. induction run as [|x run IHr]; simpl in *.
        -- by rewrite He.
        -- apply andb_true_iff in Hrun as [Hx Hrun].
           apply negb_true_iff in Hx. rewrite Hx.
           specialize (IHr Hrun). destruct run; simpl in *; [by rewrite He in *|].
           done.
Qed.

Lemma matchAllFrom_nil_runThenMark (fuel pos : nat) :
  matchAllFrom fuel runThenMark [] pos = [].
Proof. by destruct fuel. Qed.

(** On a spaced string the first pattern cuts consecutive matches, each
    ending in a mark, and leaves a rest without any mark. *)
Lemma matchAll_runThenMark (fuel : nat) (s : str) (pos : nat) :
  length s < fuel ->
  spaced q true s = true ->
  exists phrases rem,
    matchAllFrom fuel runThenMark s pos = matchesAt pos phrases
    /\ concat phrases ++ rem = s
    /\ Forall (fun p => exists body e, p = body ++ [e] /\ q e = true) phrases
    /\ forallb (fun c => negb (q c)) rem = true.
Proof.
  revert s pos; induction fuel as [|fuel IH]; intros s pos Hf Hs; [lia|].
  destruct s as [|c t].
  - exists [], []. done.
  - pose proof (spaced_shape c t Hs) as [Hc Hshape].
    unfold matchAllFrom; fold matchAllFrom.
    destruct (fromMark q t) as [|e rest] eqn:F.
    + (* no mark at all: no match *)
      assert (Hall : forallb (fun c => negb (q c)) (c :: t) = true).
      { simpl. by rewrite Hc, Hshape. }
      rewrite (search_runThenMark_none _ _ Hall).
      exists [], (c :: t). done.
    + destruct Hshape as (run & -> & He & Hrest).
      unfold search; fold search. rewrite rmatch_runThenMark, Hc.
      rewrite F.
      change (c :: run ++ e :: rest) with ((c :: run) ++ e :: rest).
      replace ((c :: run) ++ e :: rest) with (((c :: run) ++ [e]) ++ rest)
        by (by rewrite <- app_assoc).
      rewrite take_match.
      destruct (IH rest (pos + length ((c :: run) ++ [e])))
        as (phrases & rem & Hp & Hcat & Hends & Hrem).
      { simpl in Hf. rewrite length_app in Hf. simpl in Hf. lia. }
      { done. }
      exists (((c :: run) ++ [e]) :: phrases), rem. simpl. repeat split.
      * f_equal. simpl in Hp. exact Hp.
      * rewrite <- Hcat. by rewrite <- !app_assoc.
      * constructor; [|done]. by exists (c :: run), e.
      * done.
Qed.

(** Cutting a spaced string after a mark leaves two spaced strings. *)
Lemma spaced_cut (a : bool) (body : str) (e : N) (rest : str) :
  q e = true ->
  spaced q a ((body ++ [e]) ++ rest) = true ->
  spaced q a (body ++ [e]) = true /\ spaced q true rest = true.
Proof.
  intros He. revert a; induction body as [|c body IH]; intros a; simpl.
  - rewrite He, !andb_true_iff. intros [-> H]. done.
  - destruct (q c).
    + rewrite !andb_true_iff. intros [-> H]. apply IH in H as [H1 H2]. done.
    + apply IH.
Qed.

Lemma spaced_phrases (phrases : list str) (rem : str) :
  Forall (fun p => exists body e, p = body ++ [e] /\ q e = true) phrases ->
  spaced q true (concat phrases ++ rem) = true ->
  Forall (fun p => spaced q true p = true) phrases /\ spaced q true rem = true.
Proof.
  induction 1 as [|p phrases (body & e & -> & He) _ IH]; simpl; [done|].
  rewrite <- app_assoc. fold (concat phrases).
  intros H. apply spaced_cut in H as [H1 H2]; [|done].
  apply IH in H2 as [H2 H3]. split; [by constructor | done].
Qed.

End Marks.

(** Spacing out the marks of a class spaces out those of a smaller one. *)
Lemma spaced_sub (q q' : N -> bool) (a : bool) (s : str) :
  (forall c, q' c = true -> q c = true) ->
  spaced q a s = true -> spaced q' a s = true.
Proof.
  intros Hsub. revert a; induction s as [|c s IH]; intros a; simpl; [done|].
  destruct (q' c) eqn:E'.
  - rewrite (Hsub _ E'), !andb_true_iff. intros [-> H]. split; [done | by apply IH].
  - destruct (q c).
    + rewrite andb_true_iff. intros [_ H]. apply IH.
      by apply (spaced_weaken q true).
    + apply IH.
Qed.

End RegexFacts.

(** ** The sentence and clause tiers *)

Module TierFacts.
Import JS JSFacts Segmenter SegmenterSpec ForceFacts RegexFacts.

Section Facts.

Variable measure : str -> Q.
Variable maxWidth : Q.

Local Abbreviation fits := (fits measure maxWidth).
Local Abbreviation emit := (emit measure maxWidth).
Local Abbreviation tier := (tier measure maxWidth).
Local Abbreviation forceSplitText := (forceSplitText measure maxWidth).
Local Abbreviation splitByPunctuation := (splitByPunctuation measure maxWidth).
Local Abbreviation smartSplitText := (smartSplitText measure maxWidth).

Lemma fold_clauses (base : nat) (matches : list (nat * str))
    (units : list TextUnit) (pos : nat) :
  fold_left
    (fun '(units, _) '(index, phrase) =>
       let start := base + index in
       let end_ := start + length phrase in
       (if fits phrase
        then units ++ [{| u_text := phrase; u_start := start; u_end := end_ |}]
        else units ++ forceSplitText phrase start,
        index + length phrase))
    matches (units, pos)
  = (units ++ flat_map (emit forceSplitText base) matches, endOf pos matches).
Proof.
  revert units pos; induction matches as [|[index phrase] matches IH];
    intros units pos; simpl.
  - by rewrite app_nil_r.
  - unfold endOf; simpl. rewrite IH. unfold endOf.
    destruct (fits phrase); by rewrite <- app_assoc.
Qed.

Lemma fold_sentences (matches : list (nat * str))
    (units : list TextUnit) (pos : nat) :
  fold_left
    (fun '(units, _) '(index, sentence) =>
       let start := index in
       let end_ := start + length sentence in
       (if fits sentence
        then units ++ [{| u_text := sentence; u_start := start; u_end := end_ |}]
        else units ++ splitByPunctuation sentence start,
        end_))
    matches (units, pos)
  = (units ++ flat_map (emit splitByPunctuation 0) matches, endOf pos matches).
Proof.
  revert units pos; induction matches as [|[index phrase] matches IH];
    intros units pos; simpl.
  - by rewrite app_nil_r.
  - unfold endOf; simpl. rewrite IH. unfold endOf.
    destruct (fits phrase); by rewrite <- app_assoc.
Qed.

(** [splitByPunctuation] is the clause tier over the hard split. *)
Lemma splitByPunctuation_tier (text : str) (base : nat) :
  splitByPunctuation text base
  = if 0 <? length (matchAll punctRegex text)
    then tier forceSplitText base text (matchAll punctRegex text)
    else forceSplitText text base.
Proof.
  unfold Segmenter.splitByPunctuation.
  destruct (0 <? length (matchAll punctRegex text)); [|done].
  rewrite fold_clauses. done.
Qed.

(** [smartSplitText] is the sentence tier over the clause tier. *)
Lemma smartSplitText_tier (text : str) :
  smartSplitText text
  = if fits text
    then [{| u_text := text; u_start := 0; u_end := length text |}]
    else if 0 <? length (matchAll sentenceRegex text)
         then tier splitByPunctuation 0 text (matchAll sentenceRegex text)
         else splitByPunctuation text 0.
Proof.
  unfold Segmenter.smartSplitText.
  destruct (fits text); [done|].
  destruct (0 <? length (matchAll sentenceRegex text)); [|done].
  rewrite fold_sentences. done.
Qed.

(** *** Every unit was measured *)

Lemma forceSplitText_width (text : str) (base : nat) :
  Forall (fun u => widthOk measure maxWidth (u_text u)) (forceSplitText text base).
Proof.
  destruct (forceSplitText_layout measure maxWidth text base)
    as (texts & -> & _ & _ & Hw).
  clear -Hw. revert base; induction Hw as [|t texts Ht _ IH]; intros base; simpl.
  - done.
  - constructor; [done | apply IH].
Qed.

Lemma tier_width (next : str -> nat -> list TextUnit) (base : nat)
    (text : str) (matches : list (nat * str)) :
  (forall s b, Forall (fun u => widthOk measure maxWidth (u_text u)) (next s b)) ->
  Forall (fun u => widthOk measure maxWidth (u_text u)) (tier next base text matches).
Proof.
  intros Hnext.
  assert (Hunits : Forall (fun u => widthOk measure maxWidth (u_text u))
                     (flat_map (emit next base) matches)).
  { induction matches as [|[index phrase] matches IH]; simpl; [done|].
    apply Forall_app. split; [|done].
    destruct (fits phrase) eqn:E; [|apply Hnext].
    constructor; [|done]. by left. }
  unfold SegmenterSpec.tier.
  destruct (endOf 0 matches <? length text); [|done].
  destruct (truthy (trim (drop (endOf 0 matches) text))); [|done].
  destruct (fits (drop (endOf 0 matches) text)) eqn:E.
  - apply Forall_app. split; [done|]. constructor; [|done]. by left.
  - apply Forall_app. split; [done | apply Hnext].
Qed.

Lemma splitByPunctuation_width (text : str) (base : nat) :
  Forall (fun u => widthOk measure maxWidth (u_text u)) (splitByPunctuation text base).
Proof.
  rewrite splitByPunctuation_tier.
  destruct (0 <? length (matchAll punctRegex text)).
  - apply tier_width, forceSplitText_width.
  - apply forceSplitText_width.
Qed.

Lemma smartSplitText_widthOk (text : str) :
  Forall (fun u => widthOk measure maxWidth (u_text u)) (smartSplitText text).
Proof.
  rewrite smartSplitText_tier.
  destruct (fits text) eqn:E.
  - constructor; [|done]. by left.
  - destruct (0 <? length (matchAll sentenceRegex text)).
    + apply tier_width, splitByPunctuation_width.
    + apply splitByPunctuation_width.
Qed.

(** *** Units are parts of the line, in order *)

Lemma cutFrom_shift (x s : str) (pos : nat) (units : list TextUnit) :
  cutFrom s (pos + length x) units -> cutFrom (x ++ s) pos units.
Proof.
  destruct units as [|u rest]; [done|]. simpl.
  intros (gap & after & -> & Hs & He & H).
  exists (x ++ gap), after. rewrite length_app, <- app_assoc.
  split; [done|]. split; [lia | done].
Qed.

Lemma cutFrom_app (x y : str) (pos : nat) (us vs : list TextUnit) :
  cutFrom x pos us -> cutFrom y (pos + length x) vs ->
  cutFrom (x ++ y) pos (us ++ vs).
Proof.
  revert x pos; induction us as [|u us IH]; intros x pos.
  - intros _. apply cutFrom_shift.
  - simpl. intros (gap & after & -> & Hs & He & H) Hvs.
    exists gap, (after ++ y). rewrite <- !app_assoc.
    split; [done|]. split; [done|]. split; [done|].
    apply IH; [done|].
    rewrite !length_app in Hvs.
    replace (u_end u + length after)
      with (pos + (length gap + (length (u_text u) + length after))) by lia.
    done.
Qed.

Lemma cutFrom_more (x y : str) (pos : nat) (us : list TextUnit) :
  cutFrom x pos us -> cutFrom (x ++ y) pos us.
Proof.
  intros H. rewrite <- (app_nil_r us). by apply cutFrom_app.
Qed.

Lemma layout_cutFrom (base : nat) (texts : list str) :
  cutFrom (concat texts) base (layout base texts).
Proof.
  revert base; induction texts as [|t texts IH]; intros base; simpl; [done|].
  exists [], (concat texts). simpl. split; [done|]. split; [lia|]. split; [lia|].
  replace (base + 0 + length t) with (base + length t) by lia. apply IH.
Qed.

Lemma forceSplitText_cutFrom (s : str) (base : nat) :
  cutFrom s base (forceSplitText s base).
Proof.
  destruct (forceSplitText_layout measure maxWidth s base)
    as (texts & -> & <- & _). apply layout_cutFrom.
Qed.

Lemma emit_cutFrom (next : str -> nat -> list TextUnit) (base : nat)
    (s : str) (pos : nat) (matches : list (nat * str)) :
  (forall s' b, cutFrom s' b (next s' b)) ->
  matchedIn s pos matches ->
  exists used rest,
    s = used ++ rest
    /\ endOf pos matches = pos + length used
    /\ cutFrom used (base + pos) (flat_map (emit next base) matches).
Proof.
  intros Hnext. revert s pos; induction matches as [|[index m] matches IH];
    intros s pos.
  - intros _. exists [], s. simpl. split; [done|]. split; [unfold endOf; simpl; lia | done].
  - simpl. intros (gap & after & -> & -> & H).
    destruct (IH _ _ H) as (used & rest & -> & Hend & Hcut).
    exists (gap ++ m ++ used), rest. rewrite <- !app_assoc.
    split; [done|]. split.
    + unfold endOf in *. simpl. rewrite Hend, !length_app. lia.
    + apply cutFrom_shift, cutFrom_app.
      * unfold SegmenterSpec.emit. destruct (fits m).
        -- simpl. exists [], []. rewrite app_nil_r. simpl.
           split; [done|]. split; [lia | done].
        -- replace (base + pos + length gap) with (base + (pos + length gap)) by lia.
           apply Hnext.
      * replace (base + pos + length gap + length m)
          with (base + (pos + length gap + length m)) by lia.
        done.
Qed.

Lemma tier_cutFrom (next : str -> nat -> list TextUnit) (base : nat)
    (s : str) (matches : list (nat * str)) :
  (forall s' b, cutFrom s' b (next s' b)) ->
  matchedIn s 0 matches ->
  cutFrom s base (tier next base s matches).
Proof.
  intros Hnext Hm.
  destruct (emit_cutFrom next base s 0 matches Hnext Hm)
    as (used & rest & -> & Hend & Hcut).
  simpl in Hend. rewrite Nat.add_0_r in Hcut.
  unfold SegmenterSpec.tier. rewrite Hend, drop_app_length.
  destruct (length used <? length (used ++ rest)); [|by apply cutFrom_more].
  destruct (truthy (trim rest)); [|by apply cutFrom_more].
  destruct (fits rest).
  - apply cutFrom_app; [done|]. simpl. exists [], []. rewrite app_nil_r. simpl.
    rewrite length_app. split; [done|]. split; [lia|]. split; [lia | done].
  - apply cutFrom_app; [done | apply Hnext].
Qed.

Lemma splitByPunctuation_cutFrom (s : str) (base : nat) :
  cutFrom s base (splitByPunctuation s base).
Proof.
  rewrite splitByPunctuation_tier.
  destruct (0 <? length (matchAll punctRegex s)).
  - apply tier_cutFrom; [apply forceSplitText_cutFrom|].
    apply matchAllFrom_matchedIn.
  - apply forceSplitText_cutFrom.
Qed.

(** The units of [smartSplitText] are parts of the line, in order and
    without overlap, each placed where its text stands. *)
Lemma smartSplitText_cutFrom (line : str) :
  cutFrom line 0 (smartSplitText line).
Proof.
  rewrite smartSplitText_tier. destruct (fits line).
  - simpl. exists [], []. by rewrite app_nil_r.
  - destruct (0 <? length (matchAll sentenceRegex line)).
    + apply tier_cutFrom; [apply splitByPunctuation_cutFrom|].
      apply matchAllFrom_matchedIn.
    + apply splitByPunctuation_cutFrom.
Qed.

(** *** Nothing is lost between spaced marks *)

Lemma trimStart_blank (s : str) :
  trimStart s = [] -> forallb isSpace s = true.
Proof.
  induction s as [|c s IH]; simpl; [done|].
  destruct (isSpace c); [exact IH | done].
Qed.

Lemma trimStart_head (s : str) (c : N) (t : str) :
  trimStart s = c :: t -> isSpace c = false.
Proof.
  induction s as [|x s IH]; simpl; [done|].
  destruct (isSpace x) eqn:E; [exact IH|]. by intros [= <- _].
Qed.

(** A string whose [trim] is empty is blank. *)
Lemma trim_blank (s : str) :
  truthy (trim s) = false -> forallb isSpace s = true.
Proof.
  unfold trim. intros H.
  destruct (rev (trimStart (rev (trimStart s)))) as [|x l] eqn:E; [|done].
  apply (f_equal (@rev N)) in E. rewrite rev_involutive in E. simpl in E.
  apply trimStart_blank in E.
  destruct (trimStart s) as [|c t] eqn:F; [by apply trimStart_blank|].
  apply trimStart_head in F.
  rewrite forallb_forall in E. specialize (E c).
  rewrite E in F; [done|]. apply in_rev. rewrite rev_involutive. by left.
Qed.

Lemma forceSplitText_covers (s : str) : covers forceSplitText s.
Proof.
  intros base.
  destruct (forceSplitText_layout measure maxWidth s base)
    as (texts & H1 & H2 & H3 & _). by exists texts.
Qed.

Lemma endOf_matchesAt (pos from : nat) (phrases : list str) :
  endOf pos (matchesAt from phrases)
  = match phrases with
    | [] => pos
    | _ => from + length (concat phrases)
    end.
Proof.
  unfold endOf. revert pos from; induction phrases as [|p phrases IH];
    intros pos from; simpl; [done|].
  rewrite IH. destruct phrases; simpl.
  - rewrite app_nil_r. done.
  - rewrite !length_app. lia.
Qed.

Lemma emit_layout (next : str -> nat -> list TextUnit) (base from : nat)
    (phrases : list str) :
  Forall (fun p => p <> [] /\ covers next p) phrases ->
  exists texts,
    flat_map (emit next base) (matchesAt from phrases) = layout (base + from) texts
    /\ concat texts = concat phrases
    /\ Forall (fun t => t <> []) texts.
Proof.
  intros H. revert from; induction H as [|p phrases [Hp Hcov] _ IH]; intros from.
  - by exists [].
  - destruct (IH (from + length p)) as (texts' & Hl' & Hc' & Hn').
    assert (Hone : exists texts,
               emit next base (from, p) = layout (base + from) texts
               /\ concat texts = p /\ Forall (fun t => t <> []) texts).
    { unfold SegmenterSpec.emit. destruct (fits p).
      - exists [p]. simpl. rewrite app_nil_r. repeat split; by repeat constructor.
      - apply Hcov. }
    destruct Hone as (texts & Hl & Hc & Hn).
    exists (texts ++ texts'). cbn [matchesAt flat_map concat].
    rewrite Hl, Hl', layout_app, Hc.
    split; [|split].
    + do 2 f_equal. lia.
    + by rewrite concat_app, Hc, Hc'.
    + by apply Forall_app.
Qed.

(** A tier over consecutive matches loses at most a blank rest. *)
Lemma tier_layout (next : str -> nat -> list TextUnit) (base : nat)
    (phrases : list str) (rem : str) :
  Forall (fun p => p <> [] /\ covers next p) phrases ->
  covers next rem ->
  exists texts dropped,
    tier next base (concat phrases ++ rem) (matchesAt 0 phrases) = layout base texts
    /\ concat texts ++ dropped = concat phrases ++ rem
    /\ Forall (fun t => t <> []) texts
    /\ forallb isSpace dropped = true
    /\ (dropped = [] \/ dropped = rem).
Proof.
  intros Hp Hrem.
  destruct (emit_layout next base 0 phrases Hp) as (texts & Hl & Hc & Hn).
  rewrite Nat.add_0_r in Hl.
  unfold SegmenterSpec.tier. rewrite Hl.
  assert (Hend : endOf 0 (matchesAt 0 phrases) = length (concat phrases)).
  { rewrite endOf_matchesAt. by destruct phrases. }
  rewrite Hend, length_app, drop_app_length.
  destruct (Nat.ltb_spec (length (concat phrases)) (length (concat phrases) + length rem))
    as [Hlt|Hge].
  - destruct (truthy (trim rem)) eqn:Ht.
    + assert (Hlast : exists texts',
                 (if fits rem
                  then layout base texts ++
                         [{| u_text := rem;
                             u_start := base + length (concat phrases);
                             u_end := base + (length (concat phrases) + length rem) |}]
                  else layout base texts ++ next rem (base + length (concat phrases)))
                 = layout base (texts ++ texts')
                 /\ concat texts' = rem /\ Forall (fun t => t <> []) texts').
      { destruct (fits rem).
        - exists [rem]. rewrite layout_app, Hc. simpl. rewrite app_nil_r.
          repeat split.
          + do 3 f_equal. lia.
          + constructor; [|done]. intros ->. simpl in Hlt. lia.
        - destruct (Hrem (base + length (concat phrases))) as (texts' & H1 & H2 & H3).
          exists texts'. by rewrite layout_app, Hc, H1. }
      destruct Hlast as (texts' & -> & Hc' & Hn').
      exists (texts ++ texts'), []. rewrite app_nil_r, concat_app, Hc, Hc'.
      repeat split; [by apply Forall_app | by left].
    + exists texts, rem. rewrite Hc. repeat split; [done | | by right].
      by apply trim_blank.
  - assert (rem = []) as -> by (destruct rem; [done | simpl in Hge; lia]).
    exists texts, []. rewrite Hc. repeat split; [done | by left].
Qed.

Lemma isClauseMark_isMark (c : N) : isClauseMark c = true -> isMark c = true.
Proof. unfold isMark. intros ->. by rewrite orb_true_r. Qed.

Lemma isSentenceEnd_isMark (c : N) : isSentenceEnd c = true -> isMark c = true.
Proof. unfold isMark. by intros ->. Qed.

Lemma splitByPunctuation_covers (s : str) :
  spaced isClauseMark true s = true -> covers splitByPunctuation s.
Proof.
  intros Hs base. rewrite splitByPunctuation_tier.
  destruct (matchAll_runMaybeMark isClauseMark (S (length s)) s 0)
    as (phrases & Hm & Hc & Hp); [lia | done |].
  change (matchAllFrom (S (length s)) (runMaybeMark isClauseMark) s 0)
    with (matchAll punctRegex s) in Hm.
  rewrite Hm.
  destruct phrases as [|p phrases].
  - simpl. apply forceSplitText_covers.
  - assert (Hlen : (0 <? length (matchesAt 0 (p :: phrases))) = true) by done.
    rewrite Hlen.
    destruct (tier_layout forceSplitText base (p :: phrases) [])
      as (texts & dropped & Hl & Hcat & Hn & _ & Hd).
    { eapply Forall_impl; [exact Hp|]. intros x [Hx _].
      split; [done | apply forceSplitText_covers]. }
    { apply forceSplitText_covers. }
    rewrite app_nil_r, Hc in Hl, Hcat.
    assert (dropped = []) as -> by (by destruct Hd).
    exists texts. by rewrite app_nil_r in Hcat.
Qed.

(** On a line whose marks are spaced out, [smartSplitText] cuts the whole
    line into consecutive units, up to a blank end. *)
Lemma smartSplitText_layout (line : str) :
  wellPunctuated line = true ->
  exists texts dropped,
    smartSplitText line = layout 0 texts
    /\ concat texts ++ dropped = line
    /\ (line <> [] -> Forall (fun t => t <> []) texts)
    /\ forallb isSpace dropped = true.
Proof.
  unfold wellPunctuated. intros Hs. rewrite smartSplitText_tier.
  destruct (fits line).
  { exists [line], []. simpl. rewrite !app_nil_r.
    repeat split. intros Hne. by repeat constructor. }
  pose proof (spaced_sub _ _ _ _ isSentenceEnd_isMark Hs) as Hs1.
  pose proof (spaced_sub _ _ _ _ isClauseMark_isMark Hs) as Hs2.
  destruct (matchAll_runThenMark isSentenceEnd (S (length line)) line 0)
    as (phrases & rem & Hm & Hc & Hends & Hrem); [lia | done |].
  change (matchAllFrom (S (length line)) (runThenMark isSentenceEnd) line 0)
    with (matchAll sentenceRegex line) in Hm.
  rewrite Hm.
  destruct phrases as [|p phrases].
  - simpl. destruct (splitByPunctuation_covers line Hs2 0) as (texts & H1 & H2 & H3).
    exists texts, []. by rewrite app_nil_r.
  - assert (Hlen : (0 <? length (matchesAt 0 (p :: phrases))) = true) by done.
    rewrite Hlen.
    assert (Hmarks : Forall (fun p => exists body e, p = body ++ [e] /\ isMark e = true)
                       (p :: phrases)).
    { eapply Forall_impl; [exact Hends|]. intros x (body & e & -> & He).
      exists body, e. split; [done | by apply isSentenceEnd_isMark]. }
    rewrite <- Hc in Hs.
    destruct (spaced_phrases isMark _ _ Hmarks Hs) as [Hsp Hsr].
    destruct (tier_layout splitByPunctuation 0 (p :: phrases) rem)
      as (texts & dropped & Hl & Hcat & Hn & Hb & _).
    { apply Forall_forall. intros x Hx.
      rewrite Forall_forall in Hsp, Hends.
      destruct (Hends x Hx) as (body & e & -> & _). split.
      - by destruct body.
      - apply splitByPunctuation_covers.
        by apply (spaced_sub isMark), Hsp; [apply isClauseMark_isMark|]. }
    { apply splitByPunctuation_covers.
      by apply (spaced_sub isMark); [apply isClauseMark_isMark|]. }
    rewrite Hc in Hl, Hcat. exists texts, dropped. done.
Qed.

End Facts.
End TierFacts.

(** ** The segmenter reads the oracle only through its comparisons *)

Module OracleFacts.
Import JS Segmenter SegmenterSpec TierFacts.

Lemma fits_Qeq (m1 m2 : str -> Q) (w1 w2 : Q) :
  (forall s, (m1 s == m2 s)%Q) -> (w1 == w2)%Q ->
  forall s, fits m1 w1 s = fits m2 w2 s.
Proof. intros Hm Hw s. unfold fits. by apply Qleb_comp. Qed.

Section Ext.

Variables m1 m2 : str -> Q.
Variables w1 w2 : Q.
Hypothesis same : forall s, fits m1 w1 s = fits m2 w2 s.

Lemma tooWide_ext (s : str) : tooWide m1 w1 s = tooWide m2 w2 s.
Proof. change (negb (fits m1 w1 s) = negb (fits m2 w2 s)). by rewrite same. Qed.

Lemma forceBody_ext (text : str) (base : nat) (st : ForceState) :
  forceBody m1 w1 text base st = forceBody m2 w2 text base st.
Proof. unfold forceBody. by rewrite tooWide_ext. Qed.

Lemma forceLoop_ext (fuel : nat) (text : str) (base : nat) (st : ForceState) :
  forceLoop m1 w1 fuel text base st = forceLoop m2 w2 fuel text base st.
Proof.
  revert st; induction fuel as [|fuel IH]; intros st; simpl; [done|].
  by rewrite forceBody_ext, IH.
Qed.

Lemma forceSplitText_ext (text : str) (base : nat) :
  forceSplitText m1 w1 text base = forceSplitText m2 w2 text base.
Proof. unfold forceSplitText, forceSplitTextFuel. by rewrite forceLoop_ext. Qed.

Lemma tier_ext (next1 next2 : str -> nat -> list TextUnit) (base : nat)
    (text : str) (matches : list (nat * str)) :
  (forall s b, next1 s b = next2 s b) ->
  tier m1 w1 next1 base text matches = tier m2 w2 next2 base text matches.
Proof.
  intros Hnext. unfold tier.
  assert (Hunits : flat_map (emit m1 w1 next1 base) matches
                   = flat_map (emit m2 w2 next2 base) matches).
  { induction matches as [|[index phrase] matches IH]; [done|].
    cbn [flat_map]. rewrite IH. unfold emit. by rewrite same, Hnext. }
  by rewrite Hunits, same, Hnext.
Qed.

Lemma splitByPunctuation_ext (text : str) (base : nat) :
  splitByPunctuation m1 w1 text base = splitByPunctuation m2 w2 text base.
Proof.
  rewrite !splitByPunctuation_tier.
  rewrite (tier_ext _ (forceSplitText m2 w2)) by apply forceSplitText_ext.
  by rewrite forceSplitText_ext.
Qed.

Lemma smartSplitText_ext (text : str) :
  smartSplitText m1 w1 text = smartSplitText m2 w2 text.
Proof.
  rewrite !smartSplitText_tier.
  rewrite (tier_ext _ (splitByPunctuation m2 w2)) by apply splitByPunctuation_ext.
  by rewrite same, splitByPunctuation_ext.
Qed.

End Ext.
End OracleFacts.

(** ** The segmenter: termination, width bound, determinism, coverage *)

Module SegmenterProperties.
Import JS JSFacts Segmenter SegmenterSpec ForceFacts RegexFacts TierFacts OracleFacts Samples.

(** C9. [forceSplitText] terminates for every text and every width oracle:
    two rounds per character always bring the loop to its exit, whatever
    the oracle answers, and the units it returns are non-empty consecutive
    parts of the text that together make up the whole text, so each unit
    consumes at least one character.  The scan always moves forward: every
    round of the loop lowers [rank], because the last character goes back
    only when the accumulated text has more than one. *)
Theorem forceSplitText_terminates (measure : str -> Q) (maxWidth : Q)
    (text : str) (basePosition : nat) :
  (exists st,
      (forall extra,
          forceLoop measure maxWidth (2 * length text + extra) text basePosition
            forceInit = Some st)
      /\ length text <= fs_i st
      /\ forceSplitText measure maxWidth text basePosition
         = forceFinish text basePosition st
      /\ exists texts,
          forceSplitText measure maxWidth text basePosition
          = layout basePosition texts
          /\ concat texts = text
          /\ Forall (fun t => t <> []) texts)
  /\ (forall st,
        fs_i st < length text ->
        rank text (forceBody measure maxWidth text basePosition st) < rank text st).
Proof.
  split; [|apply forceBody_rank].
  destruct (forceLoop_ends measure maxWidth text basePosition) as (st & Hst & Hi).
  exists st. split; [|split; [done|split]].
  - intros extra. apply Hst. lia.
  - unfold forceSplitText, forceSplitTextFuel. rewrite Hst by lia. done.
  - destruct (forceSplitText_layout measure maxWidth text basePosition)
      as (texts & H1 & H2 & H3 & _).
    by exists texts.
Qed.

Lemma forceSplitText_terminates_witness :
  fs_i forceInit < length (lit "abc")
  /\ rank (lit "abc") (forceBody alwaysWide 0 (lit "abc") 7 forceInit)
     < rank (lit "abc") forceInit.
Proof.
  assert (H : fs_i forceInit < length (lit "abc")) by (simpl; lia).
  split; [exact H|].
  exact (proj2 (forceSplitText_terminates alwaysWide 0 (lit "abc") 7) forceInit H).
Defined.

(** With an oracle for which nothing fits, every character is a unit. *)
Example forceSplitText_alwaysWide :
  forceSplitText alwaysWide 0 (lit "abc") 7
  = [{| u_text := lit "a"; u_start := 7; u_end := 8 |};
     {| u_text := lit "b"; u_start := 8; u_end := 9 |};
     {| u_text := lit "c"; u_start := 9; u_end := 10 |}].
Proof. reflexivity. Qed.

Lemma tooWide_lt (measure : str -> Q) (maxWidth : Q) (s : str) :
  tooWide measure maxWidth s = true <-> (maxWidth < measure s)%Q.
Proof.
  unfold tooWide. rewrite negb_true_iff, <- not_true_iff_false, Qle_bool_iff.
  split; [apply Qnot_le_lt | apply Qlt_not_le].
Qed.

Lemma forceSplitText_single (measure : str -> Q) (maxWidth : Q) (c : N)
    (base : nat) :
  tooWide measure maxWidth [c] = true ->
  forceSplitText measure maxWidth [c] base
  = [{| u_text := [c]; u_start := base + 0; u_end := base + 0 + 1 |}].
Proof.
  intros H.
  assert (Hb : forceBody measure maxWidth [c] base forceInit
               = {| fs_units :=
                      [{| u_text := [c]; u_start := base + 0; u_end := base + 0 + 1 |}];
                    fs_currentText := [];
                    fs_startPos := 1;
                    fs_i := 1 |}).
  { unfold forceBody.
    change (fs_currentText forceInit ++ charAt [c] (fs_i forceInit)) with [c].
    rewrite H. done. }
  unfold forceSplitText, forceSplitTextFuel. simpl. rewrite Hb. done.
Qed.

Lemma smartSplitText_single (measure : str -> Q) (maxWidth : Q) (c : N) :
  tooWide measure maxWidth [c] = true ->
  smartSplitText measure maxWidth [c]
  = [{| u_text := [c]; u_start := 0; u_end := 1 |}].
Proof.
  intros H.
  assert (Hf : fits measure maxWidth [c] = false).
  { rewrite fits_not_tooWide, H. done. }
  rewrite smartSplitText_tier, Hf.
  assert (Hs : matchAll sentenceRegex [c] = []).
  { unfold matchAll. cbn [length matchAllFrom search].
    change sentenceRegex with (runThenMark isSentenceEnd).
    rewrite rmatch_runThenMark. cbn [fromMark].
    destruct (isSentenceEnd c); done. }
  rewrite Hs. cbn [length Nat.ltb Nat.leb].
  rewrite splitByPunctuation_tier.
  destruct (isClauseMark c) eqn:E.
  - assert (Hp : matchAll punctRegex [c] = []).
    { unfold matchAll. cbn [length matchAllFrom search].
      unfold punctRegex. cbn [rmatch]. rewrite many_1_cons, E. done. }
    rewrite Hp. cbn [length Nat.ltb Nat.leb].
    by rewrite forceSplitText_single.
  - assert (Hp : matchAll punctRegex [c] = [(0, [c])]).
    { unfold matchAll. cbn [length matchAllFrom search].
      destruct (rmatch_runMaybeMark isClauseMark c [] E) as (others & Hm).
      change punctRegex with (runMaybeMark isClauseMark).
      rewrite Hm. done. }
    rewrite Hp. unfold tier, emit, endOf. cbn [length Nat.ltb Nat.leb flat_map fold_left].
    rewrite Hf, forceSplitText_single by done. done.
Qed.

(** C5. Every unit of [smartSplitText] measures at most [maxWidth], except
    a unit of a single character that is too wide by itself; and a text
    that is one such character is emitted as that single unit. *)
Theorem smartSplitText_width_bound (measure : str -> Q) (maxWidth : Q)
    (text : str) :
  Forall
    (fun u =>
       (measure (u_text u) <= maxWidth)%Q
       \/ (length (u_text u) = 1 /\ (maxWidth < measure (u_text u))%Q))
    (smartSplitText measure maxWidth text)
  /\ (forall c : N,
        (maxWidth < measure [c])%Q ->
        smartSplitText measure maxWidth [c]
        = [{| u_text := [c]; u_start := 0; u_end := 1 |}]).
Proof.
  split.
  - eapply Forall_impl; [apply smartSplitText_widthOk|].
    intros u [H | [H1 H2]].
    + left. by apply Qle_bool_iff.
    + right. split; [done | by apply tooWide_lt].
  - intros c H. apply smartSplitText_single. by apply tooWide_lt.
Qed.

Lemma smartSplitText_width_bound_witness :
  (5 < tenPerChar [97%N])%Q
  /\ smartSplitText tenPerChar 5 [97%N]
     = [{| u_text := [97%N]; u_start := 0; u_end := 1 |}].
Proof.
  assert (H : (5 < tenPerChar [97%N])%Q) by reflexivity.
  split; [exact H|].
  exact (proj2 (smartSplitText_width_bound tenPerChar 5 []) 97%N H).
Defined.

(** C8. Segmentation is a function of the line, the width budget and the
    widths the oracle reports, and of nothing else: two calls of
    [smartSplitText] on the same text, by instances that may differ in
    every other field but compare the same widths against the same budget,
    return the same units, with the same texts, starts and ends in the
    same order. *)
Theorem smartSplitText_deterministic (this this' : SmartSubtitle.t) (text : str) :
  (SmartSubtitle.maxLineWidth (SmartSubtitle.config this)
   == SmartSubtitle.maxLineWidth (SmartSubtitle.config this'))%Q ->
  (forall s, (SmartSubtitle.measureTextWidth this s
              == SmartSubtitle.measureTextWidth this' s)%Q) ->
  SmartSubtitle.smartSplitText this text = SmartSubtitle.smartSplitText this' text.
Proof.
  intros Hw Hm. unfold SmartSubtitle.smartSplitText.
  apply smartSplitText_ext. by apply fits_Qeq.
Qed.

Lemma smartSplitText_deterministic_witness :
  (SmartSubtitle.maxLineWidth (SmartSubtitle.config (smartSubtitle 30))
   == SmartSubtitle.maxLineWidth (SmartSubtitle.config (smartSubtitlePlain 30)))%Q
  /\ (forall s, (SmartSubtitle.measureTextWidth (smartSubtitle 30) s
                 == SmartSubtitle.measureTextWidth (smartSubtitlePlain 30) s)%Q)
  /\ SmartSubtitle.smartSplitText (smartSubtitle 30) (lit "A!!B!de,,fghijk,l m")
     = SmartSubtitle.smartSplitText (smartSubtitlePlain 30) (lit "A!!B!de,,fghijk,l m").
Proof.
  assert (Hw : (SmartSubtitle.maxLineWidth (SmartSubtitle.config (smartSubtitle 30))
                == SmartSubtitle.maxLineWidth
                     (SmartSubtitle.config (smartSubtitlePlain 30)))%Q)
    by reflexivity.
  assert (Hm : forall s, (SmartSubtitle.measureTextWidth (smartSubtitle 30) s
                          == SmartSubtitle.measureTextWidth (smartSubtitlePlain 30) s)%Q)
    by (intros s; reflexivity).
  split; [exact Hw|]. split; [exact Hm|].
  exact (smartSplitText_deterministic (smartSubtitle 30) (smartSubtitlePlain 30)
           (lit "A!!B!de,,fghijk,l m") Hw Hm).
Defined.

(** The readers measure with [getTextWidth]; the same holds for them. *)
Lemma reader_smartSplitText_deterministic (this this' : Reader.t) (text : str) :
  (Reader.maxTextWidth (Reader.config this)
   == Reader.maxTextWidth (Reader.config this'))%Q ->
  (forall s, (Reader.getTextWidth this s == Reader.getTextWidth this' s)%Q) ->
  Reader.smartSplitText this text = Reader.smartSplitText this' text.
Proof.
  intros Hw Hm. unfold Reader.smartSplitText.
  apply smartSplitText_ext. by apply fits_Qeq.
Qed.

Lemma last_app_nonempty (x d : str) :
  d <> [] -> last (x ++ d) = last d.
Proof.
  intros Hd. induction x as [|c x IH]; [done|].
  simpl. destruct (x ++ d) eqn:E; [|exact IH].
  apply app_eq_nil in E as [_ ->]. done.
Qed.

Lemma last_blank (d : str) (c : N) :
  forallb isSpace d = true -> last d = Some c -> isSpace c = true.
Proof.
  induction d as [|x d IH]; [done|]. simpl.
  rewrite andb_true_iff. intros [Hx Hd].
  destruct d; [by intros [= <-] | by apply IH].
Qed.

(** C2, amended. For every line, the units of [smartSplitText] are parts
    of the line taken in order and without overlap, each with its start
    and end where its text stands in the line: no character is duplicated.
    On a line in which no sentence or clause mark stands first or directly
    after another mark, the units are moreover consecutive, each starting
    where the previous one ends, and their concatenation is the line
    without a blank end: the units followed by what was dropped, which is
    whitespace only, make up the line exactly.  No unit of such a
    non-empty line is empty, and such a line that does not end in
    whitespace is reconstructed exactly. *)
Theorem smartSplitText_coverage (measure : str -> Q) (maxWidth : Q) (line : str) :
  cutFrom line 0 (smartSplitText measure maxWidth line)
  /\ (wellPunctuated line = true ->
      exists texts dropped,
        smartSplitText measure maxWidth line = layout 0 texts
        /\ concat texts ++ dropped = line
        /\ forallb isSpace dropped = true
        /\ (line <> [] -> Forall (fun t => t <> []) texts)
        /\ ((forall c, last line = Some c -> isSpace c = false) ->
            concat (List.map u_text (smartSplitText measure maxWidth line)) = line)).
Proof.
  split; [apply smartSplitText_cutFrom|].
  intros Hw.
  destruct (smartSplitText_layout measure maxWidth line Hw)
    as (texts & dropped & Hl & Hc & Hn & Hb).
  exists texts, dropped. repeat split; try done.
  intros Hlast. rewrite Hl, layout_texts.
  destruct dropped as [|d dropped]; [by rewrite app_nil_r in Hc|].
  exfalso. destruct (last (d :: dropped)) as [c|] eqn:E.
  - pose proof (last_blank _ _ Hb E) as Hs.
    rewrite (Hlast c) in Hs; [done|].
    rewrite <- Hc, last_app_nonempty; done.
  - by apply last_None in E.
Qed.

Lemma smartSplitText_coverage_witness :
  wellPunctuated (lit "ab! cd, ef! ") = true
  /\ exists texts dropped,
      smartSplitText tenPerChar 30 (lit "ab! cd, ef! ") = layout 0 texts
      /\ concat texts ++ dropped = lit "ab! cd, ef! "
      /\ forallb isSpace dropped = true.
Proof.
  assert (H : wellPunctuated (lit "ab! cd, ef! ") = true) by reflexivity.
  split; [exact H|].
  destruct (proj2 (smartSplitText_coverage tenPerChar 30 (lit "ab! cd, ef! ")) H)
    as (texts & dropped & H1 & H2 & H3 & _).
  exists texts, dropped. auto.
Defined.

(** The units of that line: the blank end is the only part left out. *)
Example smartSplitText_sample :
  List.map (fun u => (u_text u, u_start u, u_end u))
    (smartSplitText tenPerChar 30 (lit "ab! cd, ef! "))
  = [(lit "ab!", 0, 3); (lit " cd", 3, 6); (lit ",", 6, 7);
     (lit " ef", 7, 10); (lit "!", 10, 11)].
Proof. reflexivity. Qed.

(** C2 as stated fails: the blank that follows the last sentence is
    dropped, so the units do not make up the line. *)
Lemma smartSplitText_drops_blank_end :
  smartSplitText tenPerChar 30 (lit "ab! ")
  = [{| u_text := lit "ab!"; u_start := 0; u_end := 3 |}]
  /\ concat (List.map u_text (smartSplitText tenPerChar 30 (lit "ab! ")))
     <> lit "ab! ".
Proof. split; [reflexivity | discriminate]. Qed.

(** A mark that directly follows a match and precedes another is part of
    no unit: here the second [!] and the second [,]. *)
Example smartSplitText_skips_marks :
  List.map (fun u => (u_text u, u_start u, u_end u))
    (smartSplitText tenPerChar 30 (lit "A!!B!de,,fgh"))
  = [(lit "A!", 0, 2); (lit "B!", 3, 5); (lit "de,", 5, 8); (lit "fgh", 9, 12)].
Proof. reflexivity. Qed.

End SegmenterProperties.

(** ** The aligner keeps the index consistent *)

Module AlignerFacts.
Import JS JSFacts Aligner AlignerSpec.

Lemma cellOk_more (n m : nat) (cell : option Z) :
  n <= m -> cellOk n cell -> cellOk m cell.
Proof.
  intros Hnm [H | (i & H & Hi)]; [by left|].
  right. exists i. split; [done | lia].
Qed.

Lemma push_indexOk (cleanedText pat : str) (from unitPos : nat)
    (unit : DisplayUnit) (displayUnits : list DisplayUnit)
    (charToUnitMap : list (option Z)) :
  indexOf cleanedText pat from = Some unitPos ->
  indexOk cleanedText (displayUnits, charToUnitMap) ->
  indexOk cleanedText
    (displayUnits ++ [unit],
     fillRange charToUnitMap unitPos (unitPos + length pat)
       (Z.of_nat (length displayUnits))).
Proof.
  intros Hfound [Hlen Hcells]. simpl in *.
  apply indexOf_bound in Hfound as [_ Hfit].
  destruct (fillRange_in (cellOk (length (displayUnits ++ [unit])))
              charToUnitMap unitPos (unitPos + length pat)
              (Z.of_nat (length displayUnits))) as [Hl Hc].
  - lia.
  - right. exists (length displayUnits). split; [done|].
    rewrite length_app. simpl. lia.
  - eapply Forall_impl; [exact Hcells|]. intros cell.
    apply cellOk_more. rewrite length_app. lia.
  - split; simpl; [lia | done].
Qed.

Lemma init_indexOk (cleanedText : str) :
  indexOk cleanedText ([], replicate (length cleanedText) (Some (-1)%Z)).
Proof.
  split; simpl.
  - apply length_replicate.
  - apply Forall_replicate. by left.
Qed.

Section Aligner.

Variable smartSplitText : str -> list TextUnit.
Variable cleanUnitText : str -> str.
Variable displayLine : str -> str.

Lemma alignUnit_indexOk (cleanedText : str) (linePos : nat)
    (acc : list DisplayUnit * list (option Z)) (unit : TextUnit) :
  indexOk cleanedText acc ->
  indexOk cleanedText (alignUnit cleanUnitText cleanedText linePos acc unit).
Proof.
  destruct acc as [displayUnits charToUnitMap]. intros Hok.
  unfold alignUnit.
  destruct (indexOf cleanedText (cleanUnitText (u_text unit)) linePos)
    as [unitPos|] eqn:E; [|done].
  by eapply push_indexOk.
Qed.

Lemma alignUnits_indexOk (cleanedText : str) (linePos : nat)
    (units : list TextUnit) (acc : list DisplayUnit * list (option Z)) :
  indexOk cleanedText acc ->
  indexOk cleanedText
    (fold_left (alignUnit cleanUnitText cleanedText linePos) units acc).
Proof.
  revert acc; induction units as [|unit units IH]; intros acc Hok; simpl.
  - done.
  - by apply IH, alignUnit_indexOk.
Qed.

Lemma alignLine_indexOk (cleanedText : str) (cleanedLines : list str)
    (st : AlignState) (i : nat) (mdLine : str) :
  indexOk cleanedText st.1 ->
  indexOk cleanedText
    (alignLine smartSplitText cleanUnitText displayLine
       cleanedText cleanedLines st i mdLine).1.
Proof.
  destruct st as [[displayUnits charToUnitMap] currentPos]. intros Hok.
  unfold alignLine.
  destruct (cleanedLines !! i) as [cleanedLine|]; [|done].
  destruct (negb (truthy cleanedLine)); [done|].
  destruct (indexOf cleanedText cleanedLine currentPos) as [linePos|]; [|done].
  pose proof (alignUnits_indexOk cleanedText linePos
                (smartSplitText (displayLine mdLine)) _ Hok) as H.
  destruct (fold_left _ _ _) as [displayUnits' charToUnitMap']. done.
Qed.

Lemma alignLines_indexOk (cleanedText : str) (cleanedLines : list str)
    (i : nat) (mdLines : list str) (st : AlignState) :
  indexOk cleanedText st.1 ->
  indexOk cleanedText
    (alignLines smartSplitText cleanUnitText displayLine
       cleanedText cleanedLines i mdLines st).1.
Proof.
  revert i st; induction mdLines as [|mdLine mdLines IH]; intros i st Hok; simpl.
  - done.
  - by apply IH, alignLine_indexOk.
Qed.

Lemma align_wellIndexed (cleanedText : str) (cleanedLines mdLines : list str) :
  wellIndexed
    (align smartSplitText cleanUnitText displayLine
       cleanedText cleanedLines mdLines).
Proof.
  pose proof (alignLines_indexOk cleanedText cleanedLines 0 mdLines
                ([], replicate (length cleanedText) (Some (-1)%Z), 0)
                (init_indexOk cleanedText)) as H.
  unfold align. destruct (alignLines _ _ _ _ _ _ _ _) as [[du map] pos].
  exact H.
Qed.

(** The search cursor of the loop over the lines stays inside the spoken
    text and never moves back. *)
Lemma alignLine_cursor (cleanedText : str) (cleanedLines : list str)
    (st : AlignState) (i : nat) (mdLine : str) :
  st.2 <= length cleanedText ->
  st.2 <= (alignLine smartSplitText cleanUnitText displayLine
             cleanedText cleanedLines st i mdLine).2
  /\ (alignLine smartSplitText cleanUnitText displayLine
        cleanedText cleanedLines st i mdLine).2 <= length cleanedText.
Proof.
  destruct st as [[displayUnits charToUnitMap] currentPos]. simpl. intros Hpos.
  unfold alignLine.
  destruct (cleanedLines !! i) as [cleanedLine|]; [|done].
  destruct (negb (truthy cleanedLine)); [done|].
  destruct (indexOf cleanedText cleanedLine currentPos) as [linePos|] eqn:E;
    [|done].
  apply indexOf_bound in E as [Hfrom Hfit].
  destruct (fold_left _ _ _) as [displayUnits' charToUnitMap']. simpl. lia.
Qed.

Lemma alignLines_cursor (cleanedText : str) (cleanedLines : list str)
    (i : nat) (mdLines : list str) (st : AlignState) :
  st.2 <= length cleanedText ->
  st.2 <= (alignLines smartSplitText cleanUnitText displayLine
             cleanedText cleanedLines i mdLines st).2.
Proof.
  revert i st; induction mdLines as [|mdLine mdLines IH]; intros i st Hpos; simpl.
  - done.
  - destruct (alignLine_cursor cleanedText cleanedLines st i mdLine Hpos)
      as [H1 H2].
    specialize (IH (S i) _ H2). lia.
Qed.

End Aligner.

(** The loops of the length-preserving revision. *)
Lemma keepLength_claimLine_indexOk (cleanedText readingLine : str)
    (st : AlignState) (unit : TextUnit) :
  indexOk cleanedText st.1 ->
  indexOk cleanedText
    (SubtitleReaderKeepLength.claimLine cleanedText readingLine st unit).1.
Proof.
  destruct st as [[displayUnits charToUnitMap] currentPos]. intros Hok.
  unfold SubtitleReaderKeepLength.claimLine.
  destruct (indexOf cleanedText readingLine currentPos) as [unitPos|] eqn:E;
    [|done].
  by eapply push_indexOk.
Qed.

Lemma keepLength_alignPair_indexOk (this : Reader.t) (cleanedText : str)
    (st : AlignState) (line : str * str) :
  indexOk cleanedText st.1 ->
  indexOk cleanedText
    (SubtitleReaderKeepLength.alignPair this cleanedText st line).1.
Proof.
  destruct line as [displayLine readingLine]. intros Hok.
  unfold SubtitleReaderKeepLength.alignPair.
  destruct (negb (truthy displayLine)); [done|].
  revert st Hok.
  induction (Reader.smartSplitText this displayLine) as [|unit units IH];
    intros st Hok; simpl; [done|].
  by apply IH, keepLength_claimLine_indexOk.
Qed.

Lemma keepLength_wellIndexed (category : N -> GeneralCategory)
    (this : Reader.t) (text : str) (mdHtml : list str) :
  wellIndexed (SubtitleReaderKeepLength.processText category this text mdHtml).
Proof.
  unfold SubtitleReaderKeepLength.processText.
  set (textLines := fold_left _ mdHtml []).
  set (cleanedText := join _ _).
  set (lines := combine _ _).
  assert (H : forall st, indexOk cleanedText st.1 ->
            indexOk cleanedText
              (fold_left (SubtitleReaderKeepLength.alignPair this cleanedText)
                 lines st).1).
  { induction lines as [|line lines IH]; intros st Hok; simpl; [done|].
    by apply IH, keepLength_alignPair_indexOk. }
  specialize (H ([], replicate (length cleanedText) (Some (-1)%Z), 0)
                (init_indexOk cleanedText)).
  destruct (fold_left _ lines _) as [[du map] pos]. exact H.
Qed.

End AlignerFacts.

(** ** Replacing matches by blanks *)

Module SanitizerFacts.
Import JS JSFacts Patterns SegmenterSpec RegexFacts.

Lemma stitch_blank_length (s : str) (pos : nat) (matches : list (nat * str)) :
  matchedIn s pos matches ->
  length (stitch blank s pos matches) = length s.
Proof.
  revert s pos; induction matches as [|[index m] matches IH]; intros s pos;
    simpl; [done|].
  intros (gap & after & -> & -> & H).
  replace (pos + length gap - pos) with (length gap) by lia.
  rewrite take_app_length.
  replace (gap ++ m ++ after) with ((gap ++ m) ++ after) by (by rewrite <- app_assoc).
  replace (length gap + length m) with (length (gap ++ m))
    by (by rewrite length_app).
  rewrite drop_app_length, !length_app, (IH _ _ H).
  unfold blank. rewrite length_replicate. lia.
Qed.

(** Each of the four link replacements of [filterTextKeepLength] keeps the
    length of the text, whatever the pattern: the length is lost in the
    steps that follow them. *)
Lemma replace_blank_length (r : regex) (s : str) :
  length (replace r blank s) = length s.
Proof. apply stitch_blank_length, matchAllFrom_matchedIn. Qed.

End SanitizerFacts.

(** ** The aligner and the synchroniser *)

Module AlignerProperties.
Import JS JSFacts Aligner AlignerSpec AlignerFacts Reader Samples.

(** C3. Whatever the raw text and the lines, the aligner returns a
    [charToUnitMap] with exactly one cell per character of the
    [cleanedText] it returns, and every cell holds the sentinel [-1] or the
    index of an element of the [displayUnits] it returns.  This holds for
    [processSubtitleText] and for both revisions of [processText]. *)
Theorem charToUnitMap_wellIndexed (category : N -> GeneralCategory) :
  (forall (this : SmartSubtitle.t) (rawText : str) (mdHtml : option (list str)),
      wellIndexed (SmartSubtitle.processSubtitleText category this rawText mdHtml))
  /\ (forall (this : Reader.t) (text : str) (mdHtml : list str),
         wellIndexed (SubtitleReaderKeepLength.processText category this text mdHtml))
  /\ (forall (this : Reader.t) (text : str) (mdHtml : list str),
         wellIndexed (SubtitleReader.processText category this text mdHtml)).
Proof.
  split; [|split].
  - intros this rawText mdHtml. apply align_wellIndexed.
  - apply keepLength_wellIndexed.
  - intros this text mdHtml. apply align_wellIndexed.
Qed.

(** *** The handler of boundary events *)

Section Handler.

Variable displayUnits : list DisplayUnit.
Variable charToUnitMap : list (option Z).
Hypothesis cells : Forall (cellOk (length displayUnits)) charToUnitMap.

Lemma onboundary_other (event : BoundaryEvent) (current : option Z) :
  ~ isBoundary event ->
  onboundary displayUnits charToUnitMap event current = (current, []).
Proof.
  intros H. unfold onboundary.
  assert (H1 : ev_name event <> lit "word") by (intros E; apply H; by left).
  assert (H2 : ev_name event <> lit "sentence") by (intros E; apply H; by right).
  by rewrite (bool_decide_eq_false_2 _ H1), (bool_decide_eq_false_2 _ H2).
Qed.

Lemma isBoundary_test (event : BoundaryEvent) :
  isBoundary event ->
  negb (bool_decide (ev_name event = lit "word"))
  && negb (bool_decide (ev_name event = lit "sentence")) = false.
Proof.
  intros [H | H]; rewrite (bool_decide_eq_true_2 _ H); simpl; [done|].
  apply andb_false_r.
Qed.

Lemma onboundary_resolved (event : BoundaryEvent) (current cell : option Z) :
  isBoundary event ->
  resolves charToUnitMap event cell ->
  onboundary displayUnits charToUnitMap event current
  = if negb (bool_decide (cell = Some (-1)%Z))
       && negb (bool_decide (cell = current))
    then match elementAt displayUnits cell with
         | Some unit => (cell, showUnit unit)
         | None => (cell, [])
         end
    else (current, []).
Proof.
  intros Hb Hr. unfold onboundary. rewrite (isBoundary_test _ Hb).
  unfold resolves in Hr.
  pose proof (lookup_lt_Some _ _ _ Hr) as Hlt.
  destruct (Nat.ltb_spec (default 0 (ev_charIndex event)) (length charToUnitMap));
    [|lia].
  unfold arrayGet. rewrite Hr. done.
Qed.

Lemma onboundary_outside (event : BoundaryEvent) (current : option Z) :
  isBoundary event ->
  charToUnitMap !! default 0 (ev_charIndex event) = None ->
  onboundary displayUnits charToUnitMap event current = (current, []).
Proof.
  intros Hb Hr. unfold onboundary. rewrite (isBoundary_test _ Hb).
  apply lookup_ge_None in Hr.
  destruct (Nat.ltb_spec (default 0 (ev_charIndex event)) (length charToUnitMap));
    [lia | done].
Qed.

Lemma resolved_unit (event : BoundaryEvent) (cell : option Z) :
  resolves charToUnitMap event cell ->
  cell <> Some (-1)%Z ->
  exists unit, elementAt displayUnits cell = Some unit.
Proof.
  intros Hr Hne. unfold resolves in Hr.
  rewrite Forall_lookup in cells. destruct (cells _ _ Hr) as [E | (i & -> & Hi)];
    [done|].
  destruct (lookup_lt_is_Some_2 displayUnits i Hi) as [unit Hu].
  exists unit. simpl.
  destruct (Z.leb_spec 0 (Z.of_nat i)); [|lia]. by rewrite Nat2Z.id.
Qed.

Lemma onboundary_switch (event : BoundaryEvent) (current cell : option Z) :
  isBoundary event ->
  resolves charToUnitMap event cell ->
  cell <> Some (-1)%Z -> cell <> current ->
  exists unit,
    elementAt displayUnits cell = Some unit
    /\ onboundary displayUnits charToUnitMap event current = (cell, showUnit unit).
Proof.
  intros Hb Hr H1 H2. destruct (resolved_unit event cell Hr H1) as [unit Hu].
  exists unit. split; [done|].
  rewrite (onboundary_resolved _ _ _ Hb Hr), Hu.
  by rewrite !bool_decide_eq_false_2.
Qed.

Lemma onboundary_same (event : BoundaryEvent) (current : option Z) :
  isBoundary event ->
  resolves charToUnitMap event current ->
  onboundary displayUnits charToUnitMap event current = (current, []).
Proof.
  intros Hb Hr. rewrite (onboundary_resolved _ _ _ Hb Hr).
  rewrite (bool_decide_eq_true_2 (current = current)) by done.
  by rewrite andb_false_r.
Qed.

Lemma onboundary_sentinel (event : BoundaryEvent) (current : option Z) :
  isBoundary event ->
  resolves charToUnitMap event (Some (-1)%Z) ->
  onboundary displayUnits charToUnitMap event current = (current, []).
Proof.
  intros Hb Hr. by rewrite (onboundary_resolved _ _ _ Hb Hr).
Qed.

Lemma onboundaries_same (events : list BoundaryEvent) (current : option Z) :
  Forall (fun e => isBoundary e /\ resolves charToUnitMap e current) events ->
  onboundaries displayUnits charToUnitMap events current = (current, []).
Proof.
  induction 1 as [|event events [Hb Hr] _ IH]; simpl; [done|].
  by rewrite (onboundary_same _ _ Hb Hr), IH.
Qed.

Lemma onboundaries_once (event : BoundaryEvent) (events : list BoundaryEvent)
    (current cell : option Z) :
  cell <> Some (-1)%Z -> cell <> current ->
  Forall (fun e => isBoundary e /\ resolves charToUnitMap e cell) (event :: events) ->
  exists unit,
    elementAt displayUnits cell = Some unit
    /\ onboundaries displayUnits charToUnitMap (event :: events) current
       = (cell, showUnit unit).
Proof.
  intros H1 H2 Hall. apply Forall_cons in Hall as [[Hb Hr] Hrest].
  destruct (onboundary_switch event current cell Hb Hr H1 H2) as (unit & Hu & Hstep).
  exists unit. split; [done|]. simpl.
  rewrite Hstep, (onboundaries_same _ _ Hrest). done.
Qed.

End Handler.

(** C4. In a reading session of [startReading], with the display units and
    the index that [processText] returned: an event that is neither a word
    nor a sentence boundary changes nothing and emits nothing; a boundary
    event whose offset falls on a sentinel cell, on the cell of the current
    unit, or outside the index changes nothing and emits nothing; a
    boundary event whose offset falls on another unit makes that unit the
    current one and emits exactly one effect showing that unit's text; and
    a run of boundary events that all fall on one new unit emits that
    effect exactly once. *)
Theorem onboundary_synchronizes (category : N -> GeneralCategory)
    (this : Reader.t) (text : str) (mdHtml : list str)
    (event : BoundaryEvent) (current : option Z) :
  let session := SubtitleReader.processText category this text mdHtml in
  let handle := onboundary (displayUnits session) (charToUnitMap session) in
  (~ isBoundary event -> handle event current = (current, []))
  /\ (isBoundary event ->
      resolves (charToUnitMap session) event (Some (-1)%Z) ->
      handle event current = (current, []))
  /\ (isBoundary event ->
      resolves (charToUnitMap session) event current ->
      handle event current = (current, []))
  /\ (isBoundary event ->
      charToUnitMap session !! default 0 (ev_charIndex event) = None ->
      handle event current = (current, []))
  /\ (forall cell,
         isBoundary event ->
         resolves (charToUnitMap session) event cell ->
         cell <> Some (-1)%Z -> cell <> current ->
         exists unit,
           elementAt (displayUnits session) cell = Some unit
           /\ handle event current = (cell, showUnit unit))
  /\ (forall cell events,
         cell <> Some (-1)%Z -> cell <> current ->
         Forall (fun e => isBoundary e /\ resolves (charToUnitMap session) e cell)
           (event :: events) ->
         exists unit,
           elementAt (displayUnits session) cell = Some unit
           /\ onboundaries (displayUnits session) (charToUnitMap session)
                (event :: events) current
              = (cell, showUnit unit)).
Proof.
  intros session handle.
  assert (Hcells : Forall (cellOk (length (displayUnits session)))
                     (charToUnitMap session)).
  { apply (align_wellIndexed _ _ _ _ _ _). }
  repeat split.
  - apply onboundary_other.
  - apply onboundary_sentinel.
  - apply onboundary_same.
  - apply onboundary_outside.
  - intros cell. by apply onboundary_switch.
  - intros cell events. by apply onboundaries_once.
Qed.

Lemma onboundary_synchronizes_witness :
  let session := SubtitleReader.processText basic_latin (reader 1000) twoLines [twoLines] in
  let event := {| ev_name := lit "word"; ev_charIndex := Some 4 |} in
  isBoundary event
  /\ resolves (charToUnitMap session) event (Some 1%Z)
  /\ exists unit,
      elementAt (displayUnits session) (Some 1%Z) = Some unit
      /\ onboundary (displayUnits session) (charToUnitMap session) event (Some 0%Z)
         = (Some 1%Z, showUnit unit).
Proof.
  intros session event.
  assert (Hb : isBoundary event) by (left; reflexivity).
  assert (Hr : resolves (charToUnitMap session) event (Some 1%Z)) by reflexivity.
  split; [exact Hb|]. split; [exact Hr|].
  destruct (onboundary_synchronizes basic_latin (reader 1000) twoLines [twoLines]
              event (Some 0%Z)) as (_ & _ & _ & _ & H & _).
  apply (H (Some 1%Z) Hb Hr); discriminate.
Defined.

(** The session of the witness, and a reading of it: three boundary events
    in the second line show it once. *)
Example twoLines_session :
  let session := SubtitleReader.processText basic_latin (reader 1000) twoLines [twoLines] in
  cleanedText session = lit "Hi.Yes."
  /\ List.map span (displayUnits session) = [(lit "Hi.", 0, 3); (lit "Yes.", 3, 7)]
  /\ onboundaries (displayUnits session) (charToUnitMap session)
       [{| ev_name := lit "word"; ev_charIndex := None |};
        {| ev_name := lit "mark"; ev_charIndex := Some 3 |};
        {| ev_name := lit "word"; ev_charIndex := Some 3 |};
        {| ev_name := lit "sentence"; ev_charIndex := Some 3 |};
        {| ev_name := lit "word"; ev_charIndex := Some 6 |}]
       initialUnitIndex
     = (Some 1%Z,
        [SetSubtitle (lit "Hi."); AdjustWindowSize (lit "Hi.");
         SetSubtitle (lit "Yes."); AdjustWindowSize (lit "Yes.")]).
Proof. vm_compute. repeat split. Qed.

(** *** [getCurrentUnit] *)

(** [getCurrentUnit], case by case.  It returns [null] when [charIndex] is
    not below the length of the map, when the cell holds the sentinel [-1],
    when the cell is empty, and when the cell holds a number that is at
    least the number of display units; it returns the display unit at the
    index the cell holds when that index is valid; for a cell below [-1] it
    returns [undefined].  It is total. *)
Theorem getCurrentUnit_cases (charIndex : Z) (charToUnitMap : list (option Z))
    (displayUnits : list DisplayUnit) :
  let result := SmartSubtitle.getCurrentUnit charIndex charToUnitMap displayUnits in
  let cell := mjoin (elementAt charToUnitMap (Some charIndex)) in
  ((Z.of_nat (length charToUnitMap) <= charIndex)%Z -> result = SmartSubtitle.Null)
  /\ (cell = Some (-1)%Z -> result = SmartSubtitle.Null)
  /\ (cell = None -> result = SmartSubtitle.Null)
  /\ (forall z, cell = Some z -> (Z.of_nat (length displayUnits) <= z)%Z ->
       result = SmartSubtitle.Null)
  /\ (forall z, cell = Some z -> (0 <= z < Z.of_nat (length displayUnits))%Z ->
       exists unit,
         displayUnits !! Z.to_nat z = Some unit /\ result = SmartSubtitle.Unit unit)
  /\ (forall z, cell = Some z -> (z < -1)%Z -> result = SmartSubtitle.Undefined).
Proof.
  intros result cell.
  assert (Hin : forall z, cell = Some z ->
                  (charIndex <? Z.of_nat (length charToUnitMap))%Z = true).
  { intros z Hz. unfold cell in Hz. simpl in Hz.
    destruct (Z.leb_spec 0 charIndex); [|done].
    destruct (charToUnitMap !! Z.to_nat charIndex) eqn:E; [|done].
    apply lookup_lt_Some in E. apply Z.ltb_lt. lia. }
  unfold result, SmartSubtitle.getCurrentUnit. fold cell.
  repeat split.
  - intros H. destruct (Z.ltb_spec charIndex (Z.of_nat (length charToUnitMap))); [lia | done].
  - intros E. rewrite E. by destruct (_ <? _)%Z.
  - intros E. rewrite E. simpl. by destruct (_ <? _)%Z.
  - intros z E H. rewrite (Hin z E), E.
    destruct (Z.ltb_spec z (Z.of_nat (length displayUnits))); [lia|].
    by rewrite andb_false_r.
  - intros z E [H0 H1]. rewrite (Hin z E), E.
    destruct (lookup_lt_is_Some_2 displayUnits (Z.to_nat z)) as [unit Hu]; [lia|].
    exists unit. split; [done|].
    rewrite bool_decide_eq_false_2 by (intros [= ->]; lia).
    destruct (Z.ltb_spec z (Z.of_nat (length displayUnits))); [|lia].
    simpl. destruct (Z.leb_spec 0 z); [|lia]. by rewrite Hu.
  - intros z E H. rewrite (Hin z E), E.
    rewrite bool_decide_eq_false_2 by (intros [= ->]; lia).
    destruct (Z.ltb_spec z (Z.of_nat (length displayUnits))); [|lia].
    simpl. destruct (Z.leb_spec 0 z); [lia | done].
Qed.

Lemma getCurrentUnit_cases_witness :
  let unit := {| d_text := lit "Yes."; d_cleanedText := Some (lit "Yes.");
                 d_start := 1; d_end := 5 |} in
  mjoin (elementAt [Some (-1)%Z; Some 0%Z] (Some 1%Z)) = Some 0%Z
  /\ (0 <= 0 < Z.of_nat (length [unit]))%Z
  /\ exists u,
      [unit] !! Z.to_nat 0 = Some u
      /\ SmartSubtitle.getCurrentUnit 1 [Some (-1)%Z; Some 0%Z] [unit]
         = SmartSubtitle.Unit u.
Proof.
  intros unit.
  assert (Hc : mjoin (elementAt [Some (-1)%Z; Some 0%Z] (Some 1%Z)) = Some 0%Z)
    by reflexivity.
  assert (Hz : (0 <= 0 < Z.of_nat (length [unit]))%Z) by (simpl; lia).
  split; [exact Hc|]. split; [exact Hz|].
  destruct (getCurrentUnit_cases 1 [Some (-1)%Z; Some 0%Z] [unit])
    as (_ & _ & _ & _ & H & _).
  exact (H 0%Z Hc Hz).
Defined.

(** On every map whose cells are not below the sentinel, [getCurrentUnit]
    does what is asked of it: [null] when [charIndex] is not below the
    length of the map, when the cell holds the sentinel and when the cell
    names no display unit; the display unit the cell names otherwise. *)
Lemma getCurrentUnit_from_sentinel_up (charIndex : Z)
    (charToUnitMap : list (option Z)) (displayUnits : list DisplayUnit) :
  let result := SmartSubtitle.getCurrentUnit charIndex charToUnitMap displayUnits in
  let cell := mjoin (elementAt charToUnitMap (Some charIndex)) in
  (forall z, cell = Some z -> (-1 <= z)%Z) ->
  ((Z.of_nat (length charToUnitMap) <= charIndex)%Z
   \/ cell = Some (-1)%Z
   \/ elementAt displayUnits cell = None ->
   result = SmartSubtitle.Null)
  /\ (forall unit,
        cell <> Some (-1)%Z -> elementAt displayUnits cell = Some unit ->
        result = SmartSubtitle.Unit unit).
Proof.
  intros result cell Hfrom.
  destruct (getCurrentUnit_cases charIndex charToUnitMap displayUnits)
    as (Hout & Hsentinel & Hempty & Hhigh & Hvalid & _).
  fold result cell in Hout, Hsentinel, Hempty, Hhigh, Hvalid.
  split.
  - intros [H | [H | H]]; [by apply Hout | by apply Hsentinel |].
    destruct cell as [z|] eqn:E; [|by apply Hempty].
    destruct (decide (z = (-1)%Z)) as [->|Hne]; [by apply Hsentinel|].
    apply (Hhigh z eq_refl). specialize (Hfrom z eq_refl).
    simpl in H. destruct (Z.leb_spec 0 z); [|lia].
    apply lookup_ge_None in H. lia.
  - intros unit Hne H.
    destruct cell as [z|] eqn:E; [|done].
    specialize (Hfrom z eq_refl).
    assert (Hz : (0 <= z)%Z) by (destruct (decide (z = (-1)%Z)); [congruence | lia]).
    simpl in H. destruct (Z.leb_spec 0 z); [|lia].
    pose proof (lookup_lt_Some _ _ _ H) as Hlt.
    destruct (Hvalid z eq_refl) as (unit' & Hu & ->); [lia|].
    congruence.
Qed.

(** C10 (not met). [getCurrentUnit] checks the cell against the sentinel
    and against the number of display units, not against zero: for a cell
    below [-1] it reads [displayUnits] at a negative index and returns
    [undefined], where it is to return [null] for every cell that is not a
    valid index. *)
Theorem getCurrentUnit_below_sentinel :
  SmartSubtitle.getCurrentUnit 0 [Some (-2)%Z] [] = SmartSubtitle.Undefined
  /\ SmartSubtitle.getCurrentUnit 0 [Some (-2)%Z] [] <> SmartSubtitle.Null.
Proof. split; [reflexivity | discriminate]. Qed.

(** *** Where the aligner misses *)

(** Two identical lines, nothing else: each gets its own span, the second
    after the first. *)
Example twice_aligned :
  let r := SmartSubtitle.processSubtitleText basic_latin (smartSubtitle 1000)
             (lit "Yes." ++ [10%N] ++ lit "Yes.") None in
  cleanedText r = lit "Yes.Yes."
  /\ List.map span (displayUnits r) = [(lit "Yes.", 0, 4); (lit "Yes.", 4, 8)]
  /\ charToUnitMap r = replicate 4 (Some 0%Z) ++ replicate 4 (Some 1%Z).
Proof. vm_compute. repeat split. Qed.

(** C6 (not met). A line that cleans to nothing before the two identical
    lines shifts [cleanedLines] against [mdLines]: the first span [0, 4) of
    the spoken text is mapped to no unit, the unit of the first ["Yes."]
    line is mapped to the second span [4, 8), and the second ["Yes."] line
    gets no unit at all.  So it is in [processSubtitleText], with a line
    that is one star, and in the [processText] of subtitle-reader.js, with
    a line that is one link. *)
Theorem repeated_line_misaligned :
  let r := SmartSubtitle.processSubtitleText basic_latin (smartSubtitle 1000)
             starThenTwice None in
  let r' := SubtitleReader.processText basic_latin (reader 1000)
              linkThenTwice [linkThenTwice] in
  (cleanedText r = lit "Yes.Yes."
   /\ List.map span (displayUnits r) = [([0x2605%N], 0, 0); (lit "Yes.", 4, 8)]
   /\ charToUnitMap r = replicate 4 (Some (-1)%Z) ++ replicate 4 (Some 1%Z))
  /\ (cleanedText r' = lit "Yes.Yes."
      /\ List.map span (displayUnits r') = [([], 0, 0); (lit "Yes.", 4, 8)]
      /\ charToUnitMap r' = replicate 4 (Some (-1)%Z) ++ replicate 4 (Some 1%Z)).
Proof. vm_compute. repeat split. Qed.

(** C7 (not met). In [processSubtitleText] every unit is searched from the
    start of its line: the second of two equal units of a line takes the
    span of the first, and the positions of its own text stay unclaimed.
    In the length-preserving [processText] every unit searches for the
    whole line: the first unit of a line claims the span of the whole
    line, and the second unit, not found again, is not kept at all. *)
Theorem units_of_a_line_misaligned :
  let r := SmartSubtitle.processSubtitleText basic_latin (smartSubtitle 20)
             (lit "a,a,b") None in
  let r' := SubtitleReaderKeepLength.processText basic_latin (reader 100)
              [] [lit "aaa,bbb"] in
  (List.map u_text (SmartSubtitle.smartSplitText (smartSubtitle 20) (lit "a,a,b"))
   = [lit "a,"; lit "a,"; lit "b"]
   /\ cleanedText r = lit "a,a,b"
   /\ List.map span (displayUnits r)
      = [(lit "a,", 0, 2); (lit "a,", 0, 2); (lit "b", 4, 5)]
   /\ charToUnitMap r
      = [Some 1%Z; Some 1%Z; Some (-1)%Z; Some (-1)%Z; Some 2%Z])
  /\ (List.map u_text (Reader.smartSplitText (reader 100) (lit "aaa,bbb"))
      = [lit "aaa,"; lit "bbb"]
      /\ cleanedText r' = lit "aaa,bbb"
      /\ List.map span (displayUnits r') = [(lit "aaa,", 0, 7)]
      /\ charToUnitMap r' = replicate 7 (Some 0%Z)).
Proof. vm_compute. repeat split. Qed.

End AlignerProperties.

(** ** The length-preserving sanitizer *)

Module SanitizerProperties.
Import JS Patterns Samples.

(** C1 (not met). On a link followed by prose [filterTextKeepLength] first
    puts 24 spaces in place of the 24 characters of the link, which keeps
    the length, and its last step then collapses them, with the space that
    follows, into one: the result is [" hello"], 6 characters for an input
    of 30. *)
Theorem filterTextKeepLength_collapses_link :
  let input := lit "https://example.com/path hello" in
  let output := SubtitleReaderKeepLength.filterTextKeepLength basic_latin input in
  replace httpRe blank input = replicate 24 32%N ++ lit " hello"
  /\ output = lit " hello"
  /\ length input = 30
  /\ length output = 6.
Proof. vm_compute. repeat split. Qed.

End SanitizerProperties.

(** ** The sanitizers: whitespace, lengths and blanks *)

Module SanitizerMore.
Import JS JSFacts Patterns SegmenterSpec RegexFacts SanitizerSpec.

(** *** [trim] *)

Lemma trimStart_split (s : str) :
  exists lead, s = lead ++ trimStart s /\ forallb isSpace lead = true.
Proof.
  induction s as [|c s (lead & IH & Hl)]; simpl.
  - by exists [].
  - destruct (isSpace c) eqn:E.
    + exists (c :: lead). simpl. rewrite E, Hl. split; [by f_equal | done].
    + by exists [].
Qed.

Lemma trimStart_clean (s : str) (c : N) :
  head (trimStart s) = Some c -> isSpace c = false.
Proof.
  induction s as [|x s IH]; simpl; [done|].
  destruct (isSpace x) eqn:E; [exact IH|]. by intros [= <-].
Qed.

Lemma trimStart_id (s : str) :
  (forall c, head s = Some c -> isSpace c = false) -> trimStart s = s.
Proof.
  destruct s as [|c s]; [done|]. simpl. intros H. by rewrite (H c).
Qed.

(** [trim] removes a blank start and a blank end, and nothing else. *)
Lemma trim_split (s : str) :
  exists lead trail,
    s = lead ++ trim s ++ trail
    /\ forallb isSpace lead = true /\ forallb isSpace trail = true.
Proof.
  unfold trim.
  destruct (trimStart_split s) as (lead & Hs & Hlead).
  destruct (trimStart_split (rev (trimStart s))) as (trail & Hr & Htrail).
  exists lead, (rev trail). split; [|split; [done|]].
  - rewrite Hs at 1. f_equal.
    apply (f_equal (@rev N)) in Hr. rewrite rev_involutive, rev_app_distr in Hr.
    done.
  - rewrite forallb_forall in *. intros x Hx. apply Htrail. by apply in_rev.
Qed.

Lemma head_rev_last (s : str) : head (rev s) = last s.
Proof.
  induction s as [|c s IH]; [done|]. simpl.
  destruct s as [|d s]; [done|].
  simpl in *. destruct (rev s ++ [d]) eqn:E.
  - by apply app_eq_nil in E as [_ ?].
  - simpl in *. done.
Qed.

Lemma trim_trimmed (s : str) : trimmed (trim s).
Proof.
  unfold trim, trimmed.
  set (z := trimStart s). set (w := trimStart (rev z)).
  split.
  - (* the head of [rev w] is the head of [z] *)
    intros c Hc.
    destruct (trimStart_split (rev z)) as (lead & Hr & _). fold w in Hr.
    apply (f_equal (@rev N)) in Hr. rewrite rev_involutive, rev_app_distr in Hr.
    apply (trimStart_clean s). fold z. rewrite Hr.
    destruct (rev w); [done|]. done.
  - intros c Hc. rewrite <- head_rev_last, rev_involutive in Hc.
    by apply (trimStart_clean (rev z)).
Qed.

Lemma trim_id (s : str) : trimmed s -> trim s = s.
Proof.
  intros [Hh Hl]. unfold trim. rewrite (trimStart_id s Hh).
  rewrite trimStart_id, rev_involutive; [done|].
  intros c. rewrite head_rev_last. apply Hl.
Qed.

Lemma trim_idempotent (s : str) : trim (trim s) = trim s.
Proof. apply trim_id, trim_trimmed. Qed.

Lemma length_trim (s : str) : length (trim s) <= length s.
Proof.
  destruct (trim_split s) as (lead & trail & Hs & _).
  rewrite Hs at 2. rewrite !length_app. lia.
Qed.

(** *** [replace(/\s+/g, ' ')] *)

Lemma many_0_head (p : N -> bool) (s : str) :
  exists others,
    many p 0 s = fromMark (fun c => negb (p c)) s :: others.
Proof.
  induction s as [|c s (others & IH)]; [by eexists|].
  rewrite many_0_cons. cbn [fromMark].
  destruct (p c); cbn [negb].
  - rewrite IH. by eexists.
  - by eexists.
Qed.

Lemma stitch_skip (f : str -> str) (c : N) (t : str) (pos : nat)
    (matches : list (nat * str)) :
  matchedIn t (S pos) matches ->
  stitch f (c :: t) pos matches = c :: stitch f t (S pos) matches.
Proof.
  destruct matches as [|[index m] matches]; [done|]. simpl.
  intros (gap & after & -> & -> & _).
  replace (S (pos + length gap) - pos) with (S (length gap)) by lia.
  replace (S (pos + length gap) - S pos) with (length gap) by lia.
  done.
Qed.

Lemma squeeze_run (t : str) :
  squeeze true t = squeeze false (fromMark notSpace t).
Proof.
  induction t as [|c t IH]; [done|]. simpl. unfold notSpace at 1.
  destruct (isSpace c) eqn:E; simpl; [exact IH|]. by rewrite E.
Qed.

Lemma length_fromMark_le (q : N -> bool) (s : str) :
  length (fromMark q s) <= length s.
Proof. induction s as [|c s IH]; simpl; [done|]. destruct (q c); simpl; lia. Qed.

Lemma stitch_spaces (n : nat) (suf : str) (fuel pos : nat) :
  length suf <= n -> length suf < fuel ->
  stitch oneSpace suf pos (matchAllFrom fuel spacesRe suf pos) = squeeze false suf.
Proof.
  revert suf fuel pos; induction n as [|n IH]; intros suf fuel pos Hn Hf.
  - destruct suf; [|simpl in Hn; lia]. by destruct fuel.
  - revert fuel pos Hf. induction suf as [|c t IHt]; intros fuel pos Hf.
    + by destruct fuel.
    + destruct fuel as [|fuel]; [lia|].
      destruct (isSpace c) eqn:E.
      * (* a run of whitespace starts here *)
        destruct (many_0_head isSpace t) as (others & Hm).
        unfold matchAllFrom; fold matchAllFrom. unfold search; fold search.
        unfold spacesRe at 1. cbn [rmatch]. rewrite many_1_cons, E, Hm.
        set (rest := fromMark (fun c => negb (isSpace c)) t).
        destruct (fromMark_split (fun c => negb (isSpace c)) t) as (run & Ht & _).
        fold rest in Ht.
        assert (Hs : c :: t = (c :: run) ++ rest) by (simpl; by f_equal).
        rewrite (take_suffix _ _ _ Hs).
        cbn [f_index f_text f_rest stitch app].
        replace (pos - pos) with 0 by lia. rewrite take_0.
        cbn [app oneSpace length Nat.add].
        replace (drop (S (length run)) (c :: t)) with rest
          by (rewrite Hs; symmetry; apply (drop_app_length (c :: run))).
        rewrite (IH rest).
        -- simpl. rewrite E. rewrite squeeze_run. done.
        -- pose proof (length_fromMark_le (fun c => negb (isSpace c)) t).
           fold rest in H. simpl in Hn. lia.
        -- pose proof (length_fromMark_le (fun c => negb (isSpace c)) t).
           fold rest in H. simpl in Hf. lia.
      * (* no match starts here: the scan moves on *)
        assert (Hmove : matchAllFrom (S fuel) spacesRe (c :: t) pos
                        = matchAllFrom (S fuel) spacesRe t (S pos)).
        { unfold matchAllFrom; fold matchAllFrom.
          assert (Hsearch : search spacesRe (c :: t) pos = search spacesRe t (S pos)).
          { unfold search at 1; fold search. unfold spacesRe at 1. cbn [rmatch].
            rewrite many_1_cons, E. done. }
          by rewrite Hsearch. }
        rewrite Hmove, stitch_skip by apply matchAllFrom_matchedIn.
        rewrite IHt; [|simpl in Hn; lia | simpl in Hf; lia].
        simpl. by rewrite E.
Qed.

(** The whitespace normalisation of every sanitizer is [squeeze]. *)
Lemma replace_spaces_squeeze (s : str) :
  replace spacesRe oneSpace s = squeeze false s.
Proof. apply (stitch_spaces (length s)); lia. Qed.


(** *** What [squeeze] leaves *)

Lemma length_squeeze (inRun : bool) (s : str) :
  length (squeeze inRun s) <= length s.
Proof.
  revert inRun; induction s as [|c s IH]; intros inRun; simpl; [done|].
  destruct (isSpace c); [destruct inRun|]; simpl;
    try (specialize (IH true); lia); specialize (IH false); lia.
Qed.

Lemma squeeze_only_spaces (inRun : bool) (s : str) :
  Forall (fun c => isSpace c = true -> c = 32%N) (squeeze inRun s).
Proof.
  revert inRun; induction s as [|c s IH]; intros inRun; simpl; [done|].
  destruct (isSpace c) eqn:E; [destruct inRun|]; try apply IH.
  - by constructor.
  - constructor; [|apply IH]. by rewrite E.
Qed.

Lemma squeeze_run_head (s : str) (c : N) :
  head (squeeze true s) = Some c -> isSpace c = false.
Proof.
  induction s as [|x s IH]; simpl; [done|].
  destruct (isSpace x) eqn:E; [exact IH|]. by intros [= <-].
Qed.

Lemma squeeze_no_double (inRun : bool) (s : str) (k : nat) (a b : N) :
  squeeze inRun s !! k = Some a -> squeeze inRun s !! S k = Some b ->
  isSpace a = true -> isSpace b = false.
Proof.
  revert inRun k; induction s as [|c s IH]; intros inRun k; simpl; [done|].
  destruct (isSpace c) eqn:E; [destruct inRun|].
  - apply IH.
  - destruct k as [|k]; [|apply IH]. simpl. intros _ Hb _.
    apply (squeeze_run_head s). by destruct (squeeze true s).
  - destruct k as [|k]; [|apply IH]. simpl. intros [= <-] _ Ha. congruence.
Qed.

Lemma squeeze_singleSpaced (inRun : bool) (s : str) :
  singleSpaced (squeeze inRun s).
Proof. split; [apply squeeze_only_spaces | apply squeeze_no_double]. Qed.

(** A text that is single-spaced already is left alone. *)
Lemma squeeze_id (s : str) : singleSpaced s -> squeeze false s = s.
Proof.
  intros [Hall Hpair].
  assert (G : forall inRun,
             (inRun = true -> forall c, head s = Some c -> isSpace c = false) ->
             squeeze inRun s = s).
  { induction s as [|c s IH]; intros inRun Hrun; [done|]. simpl.
    apply Forall_cons in Hall as [Hc Hall].
    destruct (isSpace c) eqn:E.
    - destruct inRun; [specialize (Hrun eq_refl c eq_refl); congruence|].
      f_equal; [by rewrite Hc|]. apply IH; [done| |].
      + intros k a b Ha Hb. apply (Hpair (S k) a b Ha Hb).
      + intros _ d Hd. apply (Hpair 0 c d); [done| |done].
        by destruct s; simplify_eq/=.
    - f_equal. apply IH; [done| |done].
      intros k a b Ha Hb. apply (Hpair (S k) a b Ha Hb). }
  by apply G.
Qed.

Lemma singleSpaced_infix (lead s trail : str) :
  singleSpaced (lead ++ s ++ trail) -> singleSpaced s.
Proof.
  intros [Hall Hpair]. split.
  - apply Forall_app in Hall as [_ Hall]. by apply Forall_app in Hall as [Hall _].
  - intros k a b Ha Hb. apply (Hpair (length lead + k) a b).
    + rewrite lookup_app_r by lia.
      replace (length lead + k - length lead) with k by lia.
      by apply lookup_app_l_Some.
    + rewrite lookup_app_r by lia.
      replace (S (length lead + k) - length lead) with (S k) by lia.
      by apply lookup_app_l_Some.
Qed.

Lemma trim_singleSpaced (s : str) : singleSpaced s -> singleSpaced (trim s).
Proof.
  destruct (trim_split s) as (lead & trail & Hs & _).
  rewrite Hs at 1. apply singleSpaced_infix.
Qed.

(** *** Deleting never lengthens *)

Lemma length_stitch_erase (s : str) (pos : nat) (matches : list (nat * str)) :
  length (stitch erase s pos matches) <= length s.
Proof.
  revert s pos; induction matches as [|[index m] matches IH]; intros s pos;
    simpl; [done|].
  rewrite length_app, length_take.
  specialize (IH (drop (index - pos + length m) s) (index + length m)).
  rewrite length_drop in IH. lia.
Qed.

Lemma length_replace_erase (r : regex) (s : str) :
  length (replace r erase s) <= length s.
Proof. apply length_stitch_erase. Qed.

Lemma length_replace_spaces (s : str) :
  length (replace spacesRe oneSpace s) <= length s.
Proof. rewrite replace_spaces_squeeze. apply length_squeeze. Qed.

Lemma removeCodePoints_bound (p : N -> bool) (n : nat) (s : str) :
  length s <= n -> length (removeCodePoints p s) <= length s.
Proof.
  revert s; induction n as [|n IH]; intros s Hn.
  - destruct s; [done | simpl in Hn; lia].
  - destruct s as [|h [|l t]]; [done | simpl; destruct (p h); simpl; lia |].
    cbn [removeCodePoints].
    assert (Ht : length (removeCodePoints p t) <= length t)
      by (apply IH; simpl in Hn; lia).
    assert (Hlt : length (removeCodePoints p (l :: t)) <= length (l :: t))
      by (apply IH; simpl in *; lia).
    destruct (isHighSurrogate h && isLowSurrogate l).
    + destruct (p (codePoint h l)); simpl; lia.
    + destruct (p h); simpl in *; lia.
Qed.

Lemma length_removeCodePoints (p : N -> bool) (s : str) :
  length (removeCodePoints p s) <= length s.
Proof. by apply (removeCodePoints_bound p (length s)). Qed.


(** *** Texts without links *)

Lemma one_of_In (l : str) (c : N) : one_of l c = true -> In c l.
Proof.
  unfold one_of. rewrite existsb_exists. intros (x & Hx & E).
  apply N.eqb_eq in E. by subst.
Qed.

Lemma isPrefix_app (p s : str) : isPrefix p s = true -> s = p ++ drop (length p) s.
Proof.
  revert s; induction p as [|a p IH]; intros s; simpl; [done|].
  destruct s as [|b s]; [done|].
  destruct (N.eqb a b) eqn:E; [|done]. apply N.eqb_eq in E as ->.
  intros H. simpl. f_equal. by apply IH.
Qed.

Lemma rmatch_requires (c : N) (r : regex) (s rest : str) :
  requires c r = true -> In rest (rmatch r s) ->
  exists m, s = m ++ rest /\ In c m.
Proof.
  revert s rest; induction r as [p | l | r1 IH1 r2 IH2 | r IH | min p];
    intros s rest; simpl; try done.
  - intros Hc. destruct (isPrefix l s) eqn:E; [|done]. intros [<- | []].
    exists l. split; [by apply isPrefix_app | by apply one_of_In].
  - intros Hc. rewrite in_flat_map. intros (mid & H1 & H2).
    apply orb_true_iff in Hc as [Hc | Hc].
    + destruct (IH1 _ _ Hc H1) as (m1 & -> & Hm1).
      destruct (rmatch_suffix _ _ _ H2) as (m2 & ->).
      exists (m1 ++ m2). split; [by rewrite <- app_assoc|].
      apply in_app_iff. by left.
    + destruct (rmatch_suffix _ _ _ H1) as (m1 & ->).
      destruct (IH2 _ _ Hc H2) as (m2 & -> & Hm2).
      exists (m1 ++ m2). split; [by rewrite <- app_assoc|].
      apply in_app_iff. by right.
Qed.

Lemma lacks_not_In (c : N) (s : str) : lacks c s -> ~ In c s.
Proof.
  unfold lacks. rewrite Forall_forall. intros H Hin.
  apply list_elem_of_In in Hin. by apply (H c Hin).
Qed.

Lemma search_lacks (c : N) (r : regex) (suf : str) (pos : nat) :
  requires c r = true -> lacks c suf -> search r suf pos = None.
Proof.
  intros Hr. revert pos; induction suf as [|x suf IH]; intros pos Hl;
    unfold search; fold search.
  - destruct (rmatch r []) as [|rest l] eqn:E; [done|].
    destruct (rmatch_requires c r [] rest Hr) as (m & Hm & Hin);
      [rewrite E; by left|].
    symmetry in Hm. apply app_eq_nil in Hm as [-> _]. done.
  - destruct (rmatch r (x :: suf)) as [|rest l] eqn:E.
    + apply IH. by apply Forall_cons in Hl as [_ ?].
    + destruct (rmatch_requires c r (x :: suf) rest Hr) as (m & Hm & Hin);
        [rewrite E; by left|].
      exfalso. apply (lacks_not_In c (x :: suf) Hl).
      rewrite Hm. apply in_app_iff. by left.
Qed.

(** A pattern that needs a character the text lacks replaces nothing. *)
Lemma replace_lacks (c : N) (r : regex) (f : str -> str) (s : str) :
  requires c r = true -> lacks c s -> replace r f s = s.
Proof.
  intros Hr Hl. unfold replace, matchAll. cbn [matchAllFrom].
  by rewrite (search_lacks c r s 0 Hr Hl).
Qed.

Lemma replace_http_linkFree (f : str -> str) (s : str) :
  linkFree s -> replace httpRe f s = s.
Proof.
  intros [_ [H | H]].
  - by apply (replace_lacks 58%N).
  - by apply (replace_lacks 47%N).
Qed.

End SanitizerMore.

Module SanitizerFurther.
Import JS JSFacts Patterns SegmenterSpec RegexFacts SanitizerSpec SanitizerFacts
  SanitizerMore.

Lemma blanked_refl (s : str) : blanked s s.
Proof. induction s; constructor; [by left | done]. Qed.

Lemma blanked_trans (a b c : str) : blanked a b -> blanked b c -> blanked a c.
Proof.
  intros Hab; revert c; induction Hab as [|x y a b Hxy Hab IH]; intros c Hbc;
    inversion Hbc as [|y' z b' c' Hyz Hbc']; subst; constructor; [|by apply IH].
  destruct Hyz as [-> | ->]; [done | by right].
Qed.

Lemma blanked_blank (m : str) : blanked m (blank m).
Proof. induction m; constructor; [by right | done]. Qed.

Lemma stitch_blanked (s : str) (pos : nat) (matches : list (nat * str)) :
  matchedIn s pos matches -> blanked s (stitch blank s pos matches).
Proof.
  revert s pos; induction matches as [|[index m] matches IH]; intros s pos;
    simpl; [intros _; apply blanked_refl|].
  intros (gap & after & -> & -> & H).
  replace (pos + length gap - pos) with (length gap) by lia.
  rewrite take_app_length.
  replace (drop (length gap + length m) (gap ++ m ++ after)) with after.
  - apply Forall2_app; [apply blanked_refl|].
    apply Forall2_app; [apply blanked_blank | by apply IH].
  - rewrite app_assoc.
    replace (length gap + length m) with (length (gap ++ m))
      by (by rewrite length_app).
    by rewrite drop_app_length.
Qed.

Lemma replace_blanked (r : regex) (s : str) : blanked s (replace r blank s).
Proof. apply stitch_blanked, matchAllFrom_matchedIn. Qed.

Lemma removeCodePoints_Forall_bound (P : N -> Prop) (p : N -> bool) (n : nat)
    (s : str) :
  length s <= n -> Forall P s -> Forall P (removeCodePoints p s).
Proof.
  revert s; induction n as [|n IH]; intros s Hn Hs.
  - destruct s; [done | simpl in Hn; lia].
  - destruct s as [|h [|l t]]; [done | simpl; by destruct (p h) |].
    cbn [removeCodePoints].
    apply Forall_cons in Hs as [Hh Hs].
    pose proof Hs as Hlt. apply Forall_cons in Hs as [Hl Ht].
    assert (Ht' : Forall P (removeCodePoints p t))
      by (apply IH; [simpl in Hn; lia | done]).
    assert (Hlt' : Forall P (removeCodePoints p (l :: t)))
      by (apply IH; [simpl in *; lia | done]).
    destruct (isHighSurrogate h && isLowSurrogate l).
    + destruct (p (codePoint h l)); [done|]. by repeat constructor.
    + destruct (p h); [done|]. by constructor.
Qed.

(** Deleting code points brings in no character. *)
Lemma removeCodePoints_Forall (P : N -> Prop) (p : N -> bool) (s : str) :
  Forall P s -> Forall P (removeCodePoints p s).
Proof. by apply (removeCodePoints_Forall_bound P p (length s)). Qed.

Lemma removeCodePoints_linkFree (p : N -> bool) (s : str) :
  linkFree s -> linkFree (removeCodePoints p s).
Proof.
  intros [H46 H]. split; [by apply removeCodePoints_Forall|].
  destruct H; [left | right]; by apply removeCodePoints_Forall.
Qed.

Section Category.
Variable category : N -> GeneralCategory.

(** X1.  No sanitizer of the three files returns more characters than it
    was given. *)
Theorem sanitizers_never_lengthen (s : SmartSubtitle.t) (text : str) :
  length (SmartSubtitle.cleanText category s text) <= length text
  /\ length (SmartSubtitleReader.cleanText category text) <= length text
  /\ length (SubtitleReader.cleanWhole category text) <= length text
  /\ length (SubtitleReader.cleanLine category text) <= length text
  /\ length (SubtitleReader.filterLine text) <= length text
  /\ length (SubtitleReader.cleanUnit category text) <= length text
  /\ length (SubtitleReaderKeepLength.filterTextKeepLength category text)
     <= length text
  /\ length (SubtitleReaderKeepLength.filterTextComplete category text)
     <= length text.
Proof.
  repeat split.
  - unfold SmartSubtitle.cleanText.
    destruct (SmartSubtitle.cleanEmoji _), (SmartSubtitle.cleanSpecialChars _),
      (SmartSubtitle.normalizeSpaces _);
      repeat first
        [ lia
        | etrans; [apply length_replace_spaces|]
        | etrans; [apply length_removeCodePoints|] ].
  - unfold SmartSubtitleReader.cleanText.
    etrans; [apply length_replace_spaces|].
    etrans; [apply length_removeCodePoints|].
    apply length_removeCodePoints.
  - unfold SubtitleReader.cleanWhole.
    etrans; [apply length_replace_spaces|].
    etrans; [apply length_removeCodePoints|].
    etrans; [apply length_replace_erase|].
    etrans; [apply length_replace_erase|].
    apply length_removeCodePoints.
  - unfold SubtitleReader.cleanLine.
    etrans; [apply length_trim|].
    etrans; [apply length_replace_spaces|].
    etrans; [apply length_removeCodePoints|].
    etrans; [apply length_removeCodePoints|].
    etrans; [apply length_replace_erase|].
    apply length_replace_erase.
  - unfold SubtitleReader.filterLine.
    etrans; [apply length_trim|].
    etrans; [apply length_replace_spaces|].
    etrans; [apply length_replace_erase|].
    apply length_replace_erase.
  - unfold SubtitleReader.cleanUnit.
    etrans; [apply length_trim|].
    etrans; [apply length_replace_spaces|].
    etrans; [apply length_removeCodePoints|].
    etrans; [apply length_replace_erase|].
    etrans; [apply length_replace_erase|].
    apply length_removeCodePoints.
  - unfold SubtitleReaderKeepLength.filterTextKeepLength.
    etrans; [apply length_replace_spaces|].
    etrans; [apply length_removeCodePoints|].
    etrans; [apply length_removeCodePoints|].
    by rewrite !replace_blank_length.
  - unfold SubtitleReaderKeepLength.filterTextComplete.
    etrans; [apply length_trim|].
    etrans; [apply length_replace_spaces|].
    etrans; [apply length_removeCodePoints|].
    etrans; [apply length_removeCodePoints|].
    etrans; [apply length_replace_erase|].
    etrans; [apply length_replace_erase|].
    etrans; [apply length_replace_erase|].
    apply length_replace_erase.
Qed.

(** X2.  The whitespace step [replace(/\s+/g, ' ')] turns every maximal
    run of whitespace into one U+0020 and touches nothing else; doing it
    twice changes nothing more. *)
Theorem normalizeSpaces_squeezes (text : str) :
  replace spacesRe oneSpace text = squeeze false text
  /\ replace spacesRe oneSpace (replace spacesRe oneSpace text)
     = replace spacesRe oneSpace text.
Proof.
  split; [apply replace_spaces_squeeze|].
  rewrite !replace_spaces_squeeze. apply squeeze_id, squeeze_singleSpaced.
Qed.

(** X3.  What the sanitizers return is tidy: the only whitespace left is
    U+0020, never two in a row, and the chains that end in [trim] leave
    none at either end. *)
Theorem sanitizers_tidy (text : str) :
  singleSpaced (SmartSubtitleReader.cleanText category text)
  /\ singleSpaced (SubtitleReader.cleanWhole category text)
  /\ singleSpaced (SubtitleReaderKeepLength.filterTextKeepLength category text)
  /\ (singleSpaced (SubtitleReader.cleanLine category text)
      /\ trimmed (SubtitleReader.cleanLine category text))
  /\ (singleSpaced (SubtitleReader.filterLine text)
      /\ trimmed (SubtitleReader.filterLine text))
  /\ (singleSpaced (SubtitleReader.cleanUnit category text)
      /\ trimmed (SubtitleReader.cleanUnit category text))
  /\ (singleSpaced (SubtitleReaderKeepLength.filterTextComplete category text)
      /\ trimmed (SubtitleReaderKeepLength.filterTextComplete category text)).
Proof.
  unfold SmartSubtitleReader.cleanText,
    SubtitleReader.cleanWhole, SubtitleReader.cleanLine,
    SubtitleReader.filterLine, SubtitleReader.cleanUnit,
    SubtitleReaderKeepLength.filterTextKeepLength,
    SubtitleReaderKeepLength.filterTextComplete.
  rewrite !replace_spaces_squeeze.
  repeat split;
    first [ apply squeeze_singleSpaced
          | apply trim_singleSpaced, squeeze_singleSpaced
          | apply trim_trimmed ].
Qed.

(** X4.  With [normalizeSpaces] on, [cleanText] returns a single-spaced
    text. *)
Theorem cleanText_singleSpaced (s : SmartSubtitle.t) (text : str) :
  SmartSubtitle.normalizeSpaces (SmartSubtitle.config s) = true ->
  singleSpaced (SmartSubtitle.cleanText category s text).
Proof.
  intros H. unfold SmartSubtitle.cleanText. rewrite H, replace_spaces_squeeze.
  apply squeeze_singleSpaced.
Qed.

(** X5.  The four link replacements of [filterTextKeepLength] overwrite
    characters with U+0020 position by position and move nothing; what
    the function returns is that text with the symbols deleted and the
    whitespace squeezed. *)
Theorem filterTextKeepLength_blanks (text : str) :
  blanked text (blankLinks text)
  /\ SubtitleReaderKeepLength.filterTextKeepLength category text
     = squeeze false
         (removeCodePoints (notLNPZM category)
            (removeCodePoints emojiWide (blankLinks text))).
Proof.
  split.
  - unfold blankLinks.
    eapply blanked_trans; [|apply replace_blanked].
    eapply blanked_trans; [|apply replace_blanked].
    eapply blanked_trans; [|apply replace_blanked].
    apply replace_blanked.
  - unfold SubtitleReaderKeepLength.filterTextKeepLength.
    by rewrite replace_spaces_squeeze.
Qed.

(** X6.  On a text without a full stop and without a colon or a slash no
    link pattern matches: the displayed text is the spoken text trimmed,
    and a line and its unit clean to the same string. *)
Theorem linkFree_untouched (text : str) :
  linkFree text ->
  blankLinks text = text
  /\ SubtitleReaderKeepLength.filterTextComplete category text
     = trim (SubtitleReaderKeepLength.filterTextKeepLength category text)
  /\ SubtitleReader.filterLine text = trim (squeeze false text)
  /\ SubtitleReader.cleanLine category text
     = SubtitleReader.cleanUnit category text.
Proof.
  intros Hfree. pose proof Hfree as [Hdot _].
  assert (Hhttp : forall f, replace httpRe f text = text)
    by (intros f; by apply replace_http_linkFree).
  assert (Hwww : forall f, replace wwwRe f text = text)
    by (intros f; by apply (replace_lacks 46%N)).
  assert (Hdomain : forall f, replace domainRe f text = text)
    by (intros f; by apply (replace_lacks 46%N)).
  assert (Hemail : forall f, replace emailRe f text = text)
    by (intros f; by apply (replace_lacks 46%N)).
  assert (Htld : forall f, replace wwwTldRe f text = text)
    by (intros f; by apply (replace_lacks 46%N)).
  repeat split.
  - unfold blankLinks. by rewrite Hhttp, Hwww, Hdomain, Hemail.
  - unfold SubtitleReaderKeepLength.filterTextComplete,
      SubtitleReaderKeepLength.filterTextKeepLength.
    by rewrite !Hhttp, !Hwww, !Hdomain, !Hemail.
  - unfold SubtitleReader.filterLine.
    by rewrite Hhttp, Htld, replace_spaces_squeeze.
  - unfold SubtitleReader.cleanLine, SubtitleReader.cleanUnit.
    rewrite Hhttp, Htld.
    pose proof (removeCodePoints_linkFree emoji text Hfree) as Hfree'.
    rewrite (replace_http_linkFree _ _ Hfree').
    rewrite (replace_lacks 46%N wwwTldRe); [done | done | apply Hfree'].
Qed.

End Category.

Lemma cleanText_singleSpaced_witness :
  singleSpaced
    (SmartSubtitle.cleanText basic_latin (Samples.smartSubtitle 100)
       (lit "Hi  there")).
Proof. by apply cleanText_singleSpaced. Defined.

Lemma linkFree_untouched_witness :
  let text := lit "Hi  there, you" in
  blankLinks text = text
  /\ SubtitleReaderKeepLength.filterTextComplete basic_latin text
     = trim (SubtitleReaderKeepLength.filterTextKeepLength basic_latin text)
  /\ SubtitleReader.filterLine text = trim (squeeze false text)
  /\ SubtitleReader.cleanLine basic_latin text
     = SubtitleReader.cleanUnit basic_latin text.
Proof.
  apply (linkFree_untouched basic_latin).
  split; [|left]; unfold lacks; repeat (constructor; [done|]); constructor.
Defined.

End SanitizerFurther.

(** ** The segmenter: greedy cuts, positions and empty units *)

Module SegmenterMore.
Import JS JSFacts Segmenter SegmenterSpec ForceFacts RegexFacts TierFacts UnitSpec.

Section Facts.

Variable measure : str -> Q.
Variable maxWidth : Q.

Local Abbreviation fits := (Segmenter.fits measure maxWidth).
Local Abbreviation tooWide := (Segmenter.tooWide measure maxWidth).
Local Abbreviation forceBody := (Segmenter.forceBody measure maxWidth).
Local Abbreviation forceLoop := (Segmenter.forceLoop measure maxWidth).
Local Abbreviation forceSplitText := (Segmenter.forceSplitText measure maxWidth).
Local Abbreviation splitByPunctuation := (Segmenter.splitByPunctuation measure maxWidth).
Local Abbreviation smartSplitText := (Segmenter.smartSplitText measure maxWidth).
Local Abbreviation maximal := (UnitSpec.maximal measure maxWidth).
Local Abbreviation ForceInv := (SegmenterSpec.ForceInv measure maxWidth).
Local Abbreviation tier := (SegmenterSpec.tier measure maxWidth).
Local Abbreviation emit := (SegmenterSpec.emit measure maxWidth).

(** *** The cut of [forceSplitText] is greedy *)

Lemma forceBody_maximal (text : str) (base : nat) (st : ForceState) :
  fs_i st < length text ->
  ForceInv text base st ->
  Forall (maximal text base) (fs_units st) ->
  Forall (maximal text base) (fs_units (forceBody text base st)).
Proof.
  intros Hi [Hb Hpos Hcur Hok _] Hmax.
  destruct (charAt_in text _ Hi) as (c & Hlk & Hc').
  unfold Segmenter.forceBody. rewrite Hc'.
  destruct (tooWide (fs_currentText st ++ [c])) eqn:Hwide; [|done].
  destruct (Nat.ltb_spec 1 (length (fs_currentText st ++ [c]))) as [H|H];
    rewrite length_app in H; simpl in H.
  - assert (Htake : take (length (fs_currentText st ++ [c]) - 1)
                      (fs_currentText st ++ [c]) = fs_currentText st).
    { rewrite length_app; simpl.
      replace (length (fs_currentText st) + 1 - 1)
        with (length (fs_currentText st)) by lia.
      by rewrite take_app_length. }
    rewrite Htake. simpl. apply Forall_app. split; [done|].
    constructor; [|done]. intros d. simpl.
    replace (base + fs_startPos st + length (fs_currentText st) - base)
      with (fs_i st) by lia.
    rewrite Hlk. intros [= <-]. by left.
  - assert (E : fs_currentText st = []).
    { destruct (fs_currentText st); [done | simpl in H; lia]. }
    rewrite E in *. simpl. apply Forall_app. split; [done|].
    constructor; [|done]. intros d _. by right.
Qed.

Lemma forceLoop_maximal (text : str) (base : nat) (fuel : nat)
    (st st' : ForceState) :
  ForceInv text base st ->
  Forall (maximal text base) (fs_units st) ->
  forceLoop fuel text base st = Some st' ->
  Forall (maximal text base) (fs_units st').
Proof.
  revert st; induction fuel as [|fuel IH]; intros st Hinv Hmax; simpl.
  - destruct (Nat.ltb_spec (fs_i st) (length text)) as [H|H]; [done|].
    by intros [= <-].
  - destruct (Nat.ltb_spec (fs_i st) (length text)) as [H|H].
    + apply IH; [by apply forceBody_inv | by apply forceBody_maximal].
    + by intros [= <-].
Qed.

Lemma forceSplitText_maximal (text : str) (base : nat) :
  Forall (maximal text base) (forceSplitText text base).
Proof.
  destruct (forceSplitText_unfold measure maxWidth text base) as (st & Hloop & ->).
  pose proof (forceLoop_maximal text base _ _ _
                (forceInit_inv measure maxWidth text base) (Forall_nil_2 _) Hloop)
    as Hmax.
  unfold forceFinish. destruct (truthy (fs_currentText st)); [|done].
  apply Forall_app. split; [done|]. constructor; [|done].
  intros c. simpl.
  replace (base + length text - base) with (length text) by lia.
  rewrite lookup_ge_None_2; [done | lia].
Qed.

(** *** Positions are relative to [basePosition] *)

Lemma forceBody_shift (text : str) (b b' : nat) (st : ForceState) :
  forceBody text (b + b') (shiftState b st) = shiftState b (forceBody text b' st).
Proof.
  unfold Segmenter.forceBody, shiftState. simpl.
  destruct (tooWide (fs_currentText st ++ charAt text (fs_i st))); [|done].
  destruct (1 <? length (fs_currentText st ++ charAt text (fs_i st)));
    simpl; rewrite List.map_app; simpl; unfold shift; simpl;
    repeat first [done | lia | f_equal].
Qed.

Lemma forceLoop_shift (fuel : nat) (text : str) (b b' : nat) (st : ForceState) :
  forceLoop fuel text (b + b') (shiftState b st)
  = shiftState b <$> forceLoop fuel text b' st.
Proof.
  revert st; induction fuel as [|fuel IH]; intros st; simpl.
  - by destruct (fs_i st <? length text).
  - destruct (fs_i st <? length text); [|done].
    by rewrite forceBody_shift, IH.
Qed.

Lemma forceFinish_shift (text : str) (b b' : nat) (st : ForceState) :
  forceFinish text (b + b') (shiftState b st)
  = List.map (shift b) (forceFinish text b' st).
Proof.
  unfold forceFinish. simpl. destruct (truthy (fs_currentText st)); [|done].
  rewrite List.map_app. simpl. unfold shift; simpl.
  repeat first [done | lia | f_equal].
Qed.

Lemma forceSplitText_shift (text : str) (b b' : nat) :
  forceSplitText text (b + b') = List.map (shift b) (forceSplitText text b').
Proof.
  unfold Segmenter.forceSplitText, forceSplitTextFuel.
  change forceInit with (shiftState b forceInit) at 1.
  rewrite forceLoop_shift.
  destruct (Segmenter.forceLoop measure maxWidth (2 * length text) text b' forceInit)
    as [st|]; simpl; [apply forceFinish_shift | done].
Qed.

Lemma tier_shift (next : str -> nat -> list TextUnit) (b b' : nat) (text : str)
    (matches : list (nat * str)) :
  (forall s k, next s (b + k) = List.map (shift b) (next s k)) ->
  tier next (b + b') text matches = List.map (shift b) (tier next b' text matches).
Proof.
  intros Hnext.
  assert (Hunits : flat_map (emit next (b + b')) matches
                   = List.map (shift b) (flat_map (emit next b') matches)).
  { induction matches as [|[index phrase] matches IH]; [done|].
    cbn [flat_map]. rewrite List.map_app, IH. f_equal.
    unfold SegmenterSpec.emit. destruct (fits phrase).
    - simpl. unfold shift. simpl. repeat first [done | lia | f_equal].
    - rewrite <- Hnext. f_equal. lia. }
  unfold SegmenterSpec.tier. rewrite Hunits.
  destruct (endOf 0 matches <? length text); [|done].
  destruct (truthy (trim (drop (endOf 0 matches) text))); [|done].
  destruct (fits (drop (endOf 0 matches) text)); rewrite List.map_app; f_equal.
  - simpl. unfold shift. simpl. repeat first [done | lia | f_equal].
  - rewrite <- Hnext. f_equal. lia.
Qed.

Lemma splitByPunctuation_shift (text : str) (b b' : nat) :
  splitByPunctuation text (b + b')
  = List.map (shift b) (splitByPunctuation text b').
Proof.
  rewrite !splitByPunctuation_tier.
  destruct (0 <? length (matchAll punctRegex text)).
  - apply tier_shift. intros s k. apply forceSplitText_shift.
  - apply forceSplitText_shift.
Qed.

(** *** No unit is empty *)

Lemma many_consumes (p : N -> bool) (min : nat) (s rest : str) :
  0 < min -> In rest (many p min s) -> length rest < length s.
Proof.
  intros Hmin. destruct s as [|c t]; simpl.
  - destruct (Nat.eqb_spec min 0); [lia | done].
  - destruct (Nat.eqb_spec min 0); [lia|]. rewrite app_nil_r.
    destruct (p c); [|done]. intros H.
    apply many_suffix in H as [m ->]. rewrite length_app. lia.
Qed.

Lemma run_consumes (p : N -> bool) (r : regex) (s rest : str) :
  In rest (rmatch (Seq (Many 1 p) r) s) -> length rest < length s.
Proof.
  cbn [rmatch]. rewrite in_flat_map. intros (mid & H1 & H2).
  apply many_consumes in H1; [|lia].
  apply rmatch_suffix in H2 as [m ->]. rewrite length_app in H1. lia.
Qed.

Lemma search_nonempty (r : regex) (suf : str) (pos : nat) (f : found) :
  (forall s rest, In rest (rmatch r s) -> length rest < length s) ->
  search r suf pos = Some f -> f_text f <> [].
Proof.
  intros Hr. revert pos; induction suf as [|c suf IH]; intros pos;
    unfold search; fold search.
  - destruct (rmatch r []) as [|rest l] eqn:E; [done|].
    specialize (Hr [] rest). rewrite E in Hr. simpl in Hr.
    specialize (Hr (or_introl eq_refl)). lia.
  - destruct (rmatch r (c :: suf)) as [|rest l] eqn:E; [apply IH|].
    intros [= <-]. cbn [f_text].
    specialize (Hr (c :: suf) rest). rewrite E in Hr.
    specialize (Hr (or_introl eq_refl)). simpl in Hr.
    replace (S (length suf) - length rest)
      with (S (length suf - length rest)) by lia.
    done.
Qed.

Lemma matchAllFrom_nonempty (r : regex) (fuel : nat) (suf : str) (pos : nat) :
  (forall s rest, In rest (rmatch r s) -> length rest < length s) ->
  Forall (fun m => m.2 <> []) (matchAllFrom fuel r suf pos).
Proof.
  intros Hr. revert suf pos; induction fuel as [|fuel IH]; intros suf pos; [done|].
  unfold matchAllFrom; fold matchAllFrom.
  destruct (search r suf pos) as [f|] eqn:E; [|done].
  apply search_nonempty in E; [|done].
  constructor; [done|].
  destruct (f_text f) as [|x m]; [done|]. apply IH.
Qed.

Lemma forceSplitText_nonempty (text : str) (base : nat) :
  Forall (fun u => u_text u <> []) (forceSplitText text base).
Proof.
  destruct (forceSplitText_layout measure maxWidth text base)
    as (texts & -> & _ & Hne & _).
  apply Forall_forall. intros u Hu.
  apply list_elem_of_fmap_2 with (f := u_text) in Hu.
  change (u_text <$> layout base texts) with (List.map u_text (layout base texts)) in Hu.
  rewrite layout_texts in Hu.
  by apply (proj1 (Forall_forall _ _) Hne).
Qed.

Lemma truthy_nonempty (s : str) : truthy s = true -> s <> [].
Proof. by destruct s. Qed.

Lemma trim_nonempty (s : str) : truthy (trim s) = true -> s <> [].
Proof. by intros H ->. Qed.

Lemma tier_nonempty (next : str -> nat -> list TextUnit) (base : nat)
    (text : str) (matches : list (nat * str)) :
  (forall s b, Forall (fun u => u_text u <> []) (next s b)) ->
  Forall (fun m => m.2 <> []) matches ->
  Forall (fun u => u_text u <> []) (tier next base text matches).
Proof.
  intros Hnext Hm.
  assert (Hunits : Forall (fun u => u_text u <> [])
                     (flat_map (emit next base) matches)).
  { induction Hm as [|[index phrase] matches Hp _ IH]; [done|].
    cbn [flat_map]. apply Forall_app. split; [|done].
    unfold SegmenterSpec.emit. destruct (fits phrase); [|apply Hnext].
    by constructor. }
  unfold SegmenterSpec.tier.
  destruct (endOf 0 matches <? length text); [|done].
  destruct (truthy (trim (drop (endOf 0 matches) text))) eqn:E; [|done].
  apply trim_nonempty in E.
  destruct (fits (drop (endOf 0 matches) text));
    apply Forall_app; (split; [done|]); [by constructor | apply Hnext].
Qed.

Lemma splitByPunctuation_nonempty (text : str) (base : nat) :
  Forall (fun u => u_text u <> []) (splitByPunctuation text base).
Proof.
  rewrite splitByPunctuation_tier.
  destruct (0 <? length (matchAll punctRegex text)).
  - apply tier_nonempty; [apply forceSplitText_nonempty|].
    apply matchAllFrom_nonempty. intros s rest. apply run_consumes.
  - apply forceSplitText_nonempty.
Qed.

Lemma smartSplitText_nonempty (text : str) :
  text <> [] -> Forall (fun u => u_text u <> []) (smartSplitText text).
Proof.
  intros Hne. rewrite smartSplitText_tier.
  destruct (fits text); [by constructor|].
  destruct (0 <? length (matchAll sentenceRegex text)).
  - apply tier_nonempty; [apply splitByPunctuation_nonempty|].
    apply matchAllFrom_nonempty. intros s rest. apply run_consumes.
  - apply splitByPunctuation_nonempty.
Qed.

(** Non-empty units cut from a text lie inside it, one after the other,
    and there are at most as many as characters. *)
Lemma cutFrom_inside (s : str) (pos : nat) (units : list TextUnit) :
  cutFrom s pos units ->
  Forall (fun u => u_text u <> []) units ->
  Forall (inside pos (length s)) units
  /\ ordered units
  /\ length units <= length s.
Proof.
  revert s pos; induction units as [|u units IH]; intros s pos; [simpl; by auto with lia|].
  cbn [cutFrom]. intros (gap & after & -> & Hs & He & Hcut) Hne.
  apply Forall_cons in Hne as [Hu Hne].
  destruct (IH _ _ Hcut Hne) as (Hin & Hord & Hlen).
  assert (Htext : 0 < length (u_text u)) by (destruct (u_text u); [done | simpl; lia]).
  rewrite !length_app. repeat split.
  - constructor.
    + unfold inside. repeat split; [done | lia | done | lia].
    + eapply Forall_impl; [exact Hin|]. intros v (H1 & H2 & H3 & H4).
      unfold inside. repeat split; [done | lia | done | lia].
  - destruct units as [|v units]; [done|]. split; [|done].
    apply Forall_cons in Hin as [(_ & H & _) _]. done.
  - simpl. lia.
Qed.

(** Every character of a unit is a character of the text. *)
Lemma cutFrom_chars (s : str) (pos : nat) (units : list TextUnit) :
  cutFrom s pos units ->
  Forall (fun u => forall c, In c (u_text u) -> In c s) units.
Proof.
  revert s pos; induction units as [|u units IH]; intros s pos; [done|].
  cbn [cutFrom]. intros (gap & after & -> & _ & _ & Hcut).
  constructor.
  - intros c Hc. rewrite !in_app_iff. auto.
  - eapply Forall_impl; [exact (IH _ _ Hcut)|]. intros v Hv c Hc.
    rewrite !in_app_iff. auto.
Qed.

End Facts.
End SegmenterMore.

Module SegmenterFurther.
Import JS JSFacts Segmenter SegmenterSpec ForceFacts RegexFacts TierFacts UnitSpec
  SegmenterMore Samples.

(** X7.  [forceSplitText] cuts greedily: no unit could have taken the
    character that follows it in the text, because with that character
    it measures more than [maxWidth], unless the unit is one character
    that is too wide alone. *)
Theorem forceSplitText_greedy (measure : str -> Q) (maxWidth : Q)
    (text : str) (basePosition : nat) :
  Forall (maximal measure maxWidth text basePosition)
    (forceSplitText measure maxWidth text basePosition).
Proof. apply forceSplitText_maximal. Qed.

(** X8.  [basePosition] only moves the units: the two lower tiers cut a
    text the same way wherever it stands, and report every start and end
    [basePosition] further. *)
Theorem basePosition_shifts (measure : str -> Q) (maxWidth : Q)
    (text : str) (basePosition : nat) :
  forceSplitText measure maxWidth text basePosition
  = List.map (shift basePosition) (forceSplitText measure maxWidth text 0)
  /\ splitByPunctuation measure maxWidth text basePosition
     = List.map (shift basePosition) (splitByPunctuation measure maxWidth text 0).
Proof.
  split.
  - rewrite <- (Nat.add_0_r basePosition) at 1. apply forceSplitText_shift.
  - rewrite <- (Nat.add_0_r basePosition) at 1. apply splitByPunctuation_shift.
Qed.

(** X9.  The units of a non-empty line are non-empty parts of it, each
    between the end of the previous one and the end of the line, and there
    are at most as many units as characters; the same holds for every text
    given to [splitByPunctuation]. *)
Theorem smartSplitText_units_inside (measure : str -> Q) (maxWidth : Q)
    (text : str) :
  text <> [] ->
  (Forall (inside 0 (length text)) (smartSplitText measure maxWidth text)
   /\ ordered (smartSplitText measure maxWidth text)
   /\ length (smartSplitText measure maxWidth text) <= length text)
  /\ forall basePosition,
      Forall (inside basePosition (length text))
        (splitByPunctuation measure maxWidth text basePosition)
      /\ ordered (splitByPunctuation measure maxWidth text basePosition)
      /\ length (splitByPunctuation measure maxWidth text basePosition)
         <= length text.
Proof.
  intros Hne. split.
  - apply cutFrom_inside;
      [apply smartSplitText_cutFrom | by apply smartSplitText_nonempty].
  - intros base. apply cutFrom_inside;
      [apply splitByPunctuation_cutFrom | apply splitByPunctuation_nonempty].
Qed.

Lemma smartSplitText_units_inside_witness :
  let text := lit "A!!B!de,,fgh" in
  (Forall (inside 0 (length text)) (smartSplitText tenPerChar 30 text)
   /\ ordered (smartSplitText tenPerChar 30 text)
   /\ length (smartSplitText tenPerChar 30 text) <= length text)
  /\ forall basePosition,
      Forall (inside basePosition (length text))
        (splitByPunctuation tenPerChar 30 text basePosition)
      /\ ordered (splitByPunctuation tenPerChar 30 text basePosition)
      /\ length (splitByPunctuation tenPerChar 30 text basePosition)
         <= length text.
Proof. by apply (smartSplitText_units_inside tenPerChar 30). Defined.

(** X10.  When every character of the line fits by itself, no unit
    overflows: the exception of a single character that is too wide
    cannot occur. *)
Theorem smartSplitText_no_overflow (measure : str -> Q) (maxWidth : Q)
    (text : str) :
  (forall c, In c text -> (measure [c] <= maxWidth)%Q) ->
  Forall (fun u => (measure (u_text u) <= maxWidth)%Q)
    (smartSplitText measure maxWidth text).
Proof.
  intros Hchars.
  pose proof (smartSplitText_widthOk measure maxWidth text) as Hw.
  pose proof (cutFrom_chars _ _ _ (smartSplitText_cutFrom measure maxWidth text))
    as Hc.
  rewrite Forall_forall in *. intros u Hu.
  destruct (Hw u Hu) as [Hfit | [Hlen Hwide]].
  - by apply Qle_bool_iff.
  - destruct (u_text u) as [|c [|d t]] eqn:E; try done.
    exfalso. unfold tooWide in Hwide.
    apply negb_true_iff, not_true_iff_false in Hwide. apply Hwide.
    apply Qle_bool_iff, Hchars, (Hc u Hu). rewrite E. by left.
Qed.

Lemma smartSplitText_no_overflow_witness :
  Forall (fun u => (tenPerChar (u_text u) <= 30)%Q)
    (smartSplitText tenPerChar 30 (lit "A!!B!de,,fghijk,l m")).
Proof.
  apply smartSplitText_no_overflow. intros c _. by apply Qle_bool_iff.
Defined.

End SegmenterFurther.

(** ** The aligner: spans, cells and the session *)

Module AlignerMore.
Import JS JSFacts Aligner AlignerSpec AlignerFacts SpanSpec Reader.

(** *** Searches and range fills *)

Lemma isPrefix_take (pat s : str) :
  isPrefix pat s = true -> take (length pat) s = pat.
Proof.
  rewrite isPrefix_spec. intros [rest ->]. apply take_app_length.
Qed.

Lemma findFrom_sound (pat suf : str) (k p : nat) :
  findFrom pat suf k = Some p ->
  take (length pat) (drop (p - k) suf) = pat.
Proof.
  revert k; induction suf as [|c suf IH]; intros k; simpl.
  - destruct (isPrefix pat []) eqn:E; [|done]. intros [= <-].
    rewrite Nat.sub_diag. by apply isPrefix_take.
  - destruct (isPrefix pat (c :: suf)) eqn:E.
    + intros [= <-]. rewrite Nat.sub_diag. by apply isPrefix_take.
    + intros H. pose proof (findFrom_bound _ _ _ _ H) as [Hk _].
      apply IH in H.
      replace (p - k) with (S (p - S k)) by lia. done.
Qed.

(** Where [indexOf] finds the pattern, the pattern stands. *)
Lemma indexOf_sound (s pat : str) (from p : nat) :
  indexOf s pat from = Some p ->
  take (length pat) (drop p s) = pat.
Proof.
  unfold indexOf. intros H.
  pose proof (findFrom_bound _ _ _ _ H) as [Hk _].
  apply findFrom_sound in H. rewrite drop_drop in H.
  by replace (Nat.min from (length s) + (p - Nat.min from (length s)))
    with p in H by lia.
Qed.

Lemma foldSet_lookup (ks : list nat) (a : list (option Z)) (v : Z) (k : nat) :
  (forall j, j ∈ ks -> j < length a) ->
  fold_left (fun a k => arraySet a k v) ks a !! k
  = if decide (k ∈ ks) then Some (Some v) else a !! k.
Proof.
  revert a; induction ks as [|j ks IH]; intros a Hks; simpl.
  - destruct (decide (k ∈ [])) as [H|H]; [by apply elem_of_nil in H | done].
  - assert (Hj : j < length a) by (apply Hks; left).
    rewrite IH.
    2:{ intros i Hi. rewrite length_arraySet_in by done. apply Hks. by right. }
    unfold arraySet. destruct (Nat.ltb_spec j (length a)); [|lia].
    destruct (decide (k ∈ ks)) as [H1|H1].
    + rewrite decide_True; [done | by right].
    + destruct (decide (k = j)) as [->|Hne].
      * rewrite decide_True by left. by apply list_lookup_insert_eq.
      * rewrite decide_False.
        -- by apply list_lookup_insert_ne.
        -- intros H2. apply elem_of_cons in H2 as [?|?]; done.
Qed.

(** A range fill inside the array writes the cells of the range and no
    other. *)
Lemma fillRange_lookup (a : list (option Z)) (from to : nat) (v : Z) (k : nat) :
  to <= length a ->
  fillRange a from to v !! k
  = if decide (from <= k < to) then Some (Some v) else a !! k.
Proof.
  intros Hto. unfold fillRange. rewrite foldSet_lookup.
  - destruct (decide (k ∈ seq from (to - from))) as [H|H];
      rewrite elem_of_seq in H;
      destruct (decide (from <= k < to)); try done; lia.
  - intros j Hj. apply elem_of_seq in Hj. lia.
Qed.

(** *** Spans and cells in the loops of [align] *)

Lemma push_pointsInside (units : list DisplayUnit) (map : list (option Z))
    (u : DisplayUnit) :
  d_end u <= length map ->
  pointsInside units map ->
  pointsInside (units ++ [u])
    (fillRange map (d_start u) (d_end u) (Z.of_nat (length units))).
Proof.
  intros Hend Hp k i. rewrite fillRange_lookup by done.
  destruct (decide (d_start u <= k < d_end u)) as [Hk|Hk].
  - intros [= Hi]. apply Nat2Z.inj in Hi. subst i. exists u. split; [|done].
    rewrite lookup_app_r by lia. by rewrite Nat.sub_diag.
  - intros H. destruct (Hp k i H) as (v & Hv & Hs). exists v.
    split; [by apply lookup_app_l_Some | done].
Qed.

Lemma length_fillRange (a : list (option Z)) (from to : nat) (v : Z) :
  to <= length a -> length (fillRange a from to v) = length a.
Proof.
  intros Hto.
  by destruct (fillRange_in (fun _ => True) a from to v Hto I)
    as [H _]; [apply Forall_forall|].
Qed.

Section Aligner.

Variable smartSplitText : str -> list TextUnit.
Variable cleanUnitText : str -> str.
Variable displayLine : str -> str.
Variable P : str -> Prop.

Local Abbreviation spanInv := (SpanSpec.spanInv cleanUnitText P).

Lemma alignUnit_spanInv (cleanedText : str) (linePos : nat)
    (acc : list DisplayUnit * list (option Z)) (unit : TextUnit) :
  P (u_text unit) ->
  spanInv cleanedText acc ->
  spanInv cleanedText (alignUnit cleanUnitText cleanedText linePos acc unit).
Proof.
  destruct acc as [displayUnits charToUnitMap]. intros HP (Hlen & Hin & Hall).
  unfold alignUnit.
  destruct (indexOf cleanedText (cleanUnitText (u_text unit)) linePos)
    as [unitPos|] eqn:E; [|done].
  pose proof (indexOf_bound _ _ _ _ E) as [_ Hfit].
  apply indexOf_sound in E. simpl in *.
  set (u := {| d_text := u_text unit;
               d_cleanedText := Some (cleanUnitText (u_text unit));
               d_start := unitPos;
               d_end := unitPos + length (cleanUnitText (u_text unit)) |}).
  repeat split; simpl.
  - rewrite length_fillRange; [done | lia].
  - apply (push_pointsInside displayUnits charToUnitMap u); [simpl; lia | done].
  - apply Forall_app. split; [done|]. constructor; [|done].
    repeat split; simpl; done.
Qed.

Lemma alignUnits_spanInv (cleanedText : str) (linePos : nat)
    (units : list TextUnit) (acc : list DisplayUnit * list (option Z)) :
  Forall (fun u => P (u_text u)) units ->
  spanInv cleanedText acc ->
  spanInv cleanedText
    (fold_left (alignUnit cleanUnitText cleanedText linePos) units acc).
Proof.
  intros Hunits; revert acc;
    induction Hunits as [|unit units HP _ IH]; intros acc Hok; simpl; [done|].
  by apply IH, alignUnit_spanInv.
Qed.

Lemma alignLine_spanInv (cleanedText : str) (cleanedLines : list str)
    (st : AlignState) (i : nat) (mdLine : str) :
  Forall (fun u => P (u_text u)) (smartSplitText (displayLine mdLine)) ->
  spanInv cleanedText st.1 ->
  spanInv cleanedText
    (alignLine smartSplitText cleanUnitText displayLine
       cleanedText cleanedLines st i mdLine).1.
Proof.
  destruct st as [[displayUnits charToUnitMap] currentPos]. intros HP Hok.
  unfold alignLine.
  destruct (cleanedLines !! i) as [cleanedLine|]; [|done].
  destruct (negb (truthy cleanedLine)); [done|].
  destruct (indexOf cleanedText cleanedLine currentPos) as [linePos|]; [|done].
  pose proof (alignUnits_spanInv cleanedText linePos _ _ HP Hok) as H.
  destruct (fold_left _ _ _) as [displayUnits' charToUnitMap']. done.
Qed.

Lemma alignLines_spanInv (cleanedText : str) (cleanedLines : list str)
    (i : nat) (mdLines : list str) (st : AlignState) :
  Forall (fun line => Forall (fun u => P (u_text u))
                        (smartSplitText (displayLine line))) mdLines ->
  spanInv cleanedText st.1 ->
  spanInv cleanedText
    (alignLines smartSplitText cleanUnitText displayLine
       cleanedText cleanedLines i mdLines st).1.
Proof.
  intros Hlines; revert i st;
    induction Hlines as [|mdLine mdLines HP _ IH]; intros i st Hok; simpl; [done|].
  by apply IH, alignLine_spanInv.
Qed.

Lemma align_cleanedText (spoken : str) (cleanedLines mdLines : list str) :
  cleanedText
    (align smartSplitText cleanUnitText displayLine spoken cleanedLines mdLines)
  = spoken.
Proof.
  unfold align. by destruct (alignLines _ _ _ _ _ _ _ _) as [[du map] pos].
Qed.

Lemma align_spanInv (spoken : str) (cleanedLines mdLines : list str) :
  Forall (fun line => Forall (fun u => P (u_text u))
                        (smartSplitText (displayLine line))) mdLines ->
  let r := align smartSplitText cleanUnitText displayLine
             spoken cleanedLines mdLines in
  spanInv (cleanedText r) (displayUnits r, charToUnitMap r).
Proof.
  intros Hlines r. unfold r. rewrite align_cleanedText.
  pose proof (alignLines_spanInv spoken cleanedLines 0 mdLines
                ([], replicate (length spoken) (Some (-1)%Z), 0) Hlines)
    as H.
  unfold align. destruct (alignLines _ _ _ _ _ _ _ _) as [[du map] pos].
  apply H. repeat split; simpl; [apply length_replicate | | done].
  intros k i Hk. apply lookup_replicate in Hk as [Hk _].
  injection Hk as Hk. lia.
Qed.

End Aligner.

(** *** The aligner depends on its three parameters through their values *)




(** *** The loops of the length-preserving revision *)

Lemma init_KeepInv (cleanedText : str) :
  KeepInv cleanedText ([], replicate (length cleanedText) (Some (-1)%Z), 0).
Proof.
  split; simpl.
  - apply length_replicate.
  - lia.
  - done.
  - intros i j u v _ Hu. done.
  - intros k c Hk. apply lookup_replicate in Hk as [-> _]. left.
    split; [done|]. intros u Hu. by apply elem_of_nil in Hu.
Qed.

Lemma claimLine_KeepInv (cleanedText readingLine : str)
    (st : AlignState) (unit : TextUnit) :
  KeepInv cleanedText st ->
  KeepInv cleanedText
    (SubtitleReaderKeepLength.claimLine cleanedText readingLine st unit).
Proof.
  destruct st as [[displayUnits charToUnitMap] currentPos].
  intros [Hlen Hcur Hbefore Horder Hcells]. simpl in *.
  unfold SubtitleReaderKeepLength.claimLine.
  destruct (indexOf cleanedText readingLine currentPos) as [unitPos|] eqn:E;
    [|by split].
  apply indexOf_bound in E as [Hfrom Hfit].
  assert (Hpos : currentPos <= unitPos) by lia.
  set (u := {| d_text := u_text unit;
               d_cleanedText := None;
               d_start := unitPos;
               d_end := unitPos + length readingLine |}).
  split; simpl.
  - rewrite length_fillRange; [done | lia].
  - done.
  - apply Forall_app. split.
    + eapply Forall_impl; [exact Hbefore|]. simpl. intros v Hv. lia.
    + constructor; [|done]. simpl. lia.
  - intros i j a b Hij Ha Hb.
    destruct (decide (j < length displayUnits)) as [Hj|Hj].
    + rewrite lookup_app_l in Ha by lia. rewrite lookup_app_l in Hb by lia.
      by apply (Horder i j).
    + pose proof (lookup_lt_Some _ _ _ Hb) as Hjl.
      rewrite length_app in Hjl. simpl in Hjl.
      assert (j = length displayUnits) as -> by lia.
      rewrite lookup_app_l in Ha by lia.
      rewrite lookup_app_r, Nat.sub_diag in Hb by lia. injection Hb as <-.
      rewrite Forall_forall in Hbefore.
      apply list_elem_of_lookup_2 in Ha. specialize (Hbefore a Ha).
      simpl in *. lia.
  - intros k c. rewrite fillRange_lookup by lia.
    destruct (decide (unitPos <= k < unitPos + length readingLine)) as [Hk|Hk].
    + intros [= <-]. right. exists (length displayUnits), u.
      split; [done|]. split; [|done].
      rewrite lookup_app_r by lia. by rewrite Nat.sub_diag.
    + intros Hc. destruct (Hcells k c Hc) as [[-> Hno] | (i & v & -> & Hv & Hs)].
      * left. split; [done|]. intros v Hv.
        apply elem_of_app in Hv as [Hv | Hv]; [by apply Hno|].
        apply list_elem_of_singleton in Hv as ->. done.
      * right. exists i, v. split; [done|]. split; [|done].
        by apply lookup_app_l_Some.
Qed.

Lemma alignPair_KeepInv (this : Reader.t) (cleanedText : str)
    (st : AlignState) (line : str * str) :
  KeepInv cleanedText st ->
  KeepInv cleanedText (SubtitleReaderKeepLength.alignPair this cleanedText st line).
Proof.
  destruct line as [displayLine readingLine]. intros Hok.
  unfold SubtitleReaderKeepLength.alignPair.
  destruct (negb (truthy displayLine)); [done|].
  revert st Hok.
  induction (Reader.smartSplitText this displayLine) as [|unit units IH];
    intros st Hok; simpl; [done|].
  by apply IH, claimLine_KeepInv.
Qed.

Lemma alignPairs_KeepInv (this : Reader.t) (cleanedText : str)
    (lines : list (str * str)) (st : AlignState) :
  KeepInv cleanedText st ->
  KeepInv cleanedText
    (fold_left (SubtitleReaderKeepLength.alignPair this cleanedText) lines st).
Proof.
  revert st; induction lines as [|line lines IH]; intros st Hok; simpl; [done|].
  by apply IH, alignPair_KeepInv.
Qed.

(** The texts shown by the length-preserving revision are units of the
    segmenter on non-empty lines. *)
Lemma alignPairs_texts (this : Reader.t) (P : str -> Prop) (cleanedText : str)
    (lines : list (str * str)) (st : AlignState) :
  (forall line, line <> [] ->
     Forall (fun u => P (u_text u)) (Reader.smartSplitText this line)) ->
  Forall (fun u => P (d_text u)) st.1.1 ->
  Forall (fun u => P (d_text u))
    (fold_left (SubtitleReaderKeepLength.alignPair this cleanedText) lines st).1.1.
Proof.
  intros HP. revert st; induction lines as [|[displayLine readingLine] lines IH];
    intros st Hok; simpl; [done|].
  apply IH. unfold SubtitleReaderKeepLength.alignPair.
  destruct (truthy displayLine) eqn:E; simpl; [|done].
  assert (Hunits : Forall (fun u => P (u_text u))
                     (Reader.smartSplitText this displayLine)).
  { apply HP. by destruct displayLine. }
  revert st Hok. induction Hunits as [|unit units Hu _ IHu]; intros st Hok;
    simpl; [done|].
  apply IHu. destruct st as [[displayUnits charToUnitMap] currentPos].
  unfold SubtitleReaderKeepLength.claimLine.
  destruct (indexOf cleanedText readingLine currentPos); [|done]. simpl.
  apply Forall_app. split; [done|]. by constructor.
Qed.

End AlignerMore.

(** *** The lines of a text *)

Module LinesMore.
Import JS JSFacts Lines SanitizerSpec SanitizerMore.

Lemma split_lacks (sep : N) (s : str) : Forall (lacks sep) (split sep s).
Proof.
  unfold lacks.
  induction s as [|c s IH]; simpl; [by repeat constructor|].
  destruct (N.eqb_spec c sep) as [->|Hne]; [by constructor|].
  destruct (split sep s) as [|w ws]; [by repeat constructor|].
  apply Forall_cons in IH as [Hw Hws]. constructor; [|done]. by constructor.
Qed.

Lemma trim_lacks (c : N) (s : str) : lacks c s -> lacks c (trim s).
Proof.
  destruct (trim_split s) as (lead & trail & Hs & _). unfold lacks.
  rewrite Hs at 1. rewrite !Forall_app. tauto.
Qed.

(** A line of [linesOf] is not empty, has no whitespace at either end and
    holds no line feed. *)
Lemma linesOf_lines (text : str) :
  Forall (fun l => l <> [] /\ trim l = l /\ lacks 10%N l) (linesOf text).
Proof.
  unfold linesOf. apply Forall_forall. intros l Hl.
  apply list_elem_of_In, filter_In in Hl as [Hl Ht].
  apply in_map_iff in Hl as (w & <- & Hw).
  split; [by destruct (trim w)|]. split; [apply trim_idempotent|].
  apply trim_lacks.
  apply list_elem_of_In in Hw.
  by apply (proj1 (Forall_forall _ _) (split_lacks 10%N text)).
Qed.

Lemma extractLinesFromHTML_lines (nodes : list str) :
  Forall (fun l => l <> [] /\ trim l = l /\ lacks 10%N l)
    (extractLinesFromHTML nodes).
Proof.
  unfold extractLinesFromHTML.
  generalize (List.map trim (List.filter (fun n => truthy (trim n)) nodes)).
  intros textNodes.
  assert (H : forall lines,
             Forall (fun l => l <> [] /\ trim l = l /\ lacks 10%N l) lines ->
             Forall (fun l => l <> [] /\ trim l = l /\ lacks 10%N l)
               (fold_left (fun lines text => lines ++ linesOf text) textNodes lines)).
  { induction textNodes as [|t ts IH]; intros lines Hl; simpl; [done|].
    apply IH, Forall_app. split; [done | apply linesOf_lines]. }
  by apply H.
Qed.

End LinesMore.

Module AlignerFurther.
Import JS JSFacts Patterns Lines Aligner AlignerSpec AlignerFacts SpanSpec Reader
  SegmenterSpec TierFacts SegmenterMore SanitizerSpec SanitizerMore
  SanitizerFurther LinesMore AlignerMore Samples.

Section Category.
Variable category : N -> GeneralCategory.

(** X11.  The lines the aligners work on, those of [linesOf] and of
    [extractLinesFromHTML], are never empty, have no whitespace at either
    end and hold no line feed. *)
Theorem lines_are_trimmed (text : str) (nodes : list str) :
  Forall (fun l => l <> [] /\ trim l = l /\ lacks 10%N l) (linesOf text)
  /\ Forall (fun l => l <> [] /\ trim l = l /\ lacks 10%N l)
       (extractLinesFromHTML nodes).
Proof. split; [apply linesOf_lines | apply extractLinesFromHTML_lines]. Qed.

(** X12.  In [processSubtitleText] and in the [processText] of
    smart-subtitle-reader.js and of subtitle-reader.js every display unit records the cleaned text of its
    own text, its span lies in the spoken text and reads exactly that
    cleaned text there, and every cell of the index that names a unit
    lies in the span of that unit. *)
Theorem spans_read_cleaned_units :
  (forall (this : SmartSubtitle.t) (rawText : str) (mdHtml : option (list str)),
      let r := SmartSubtitle.processSubtitleText category this rawText mdHtml in
      pointsInside (displayUnits r) (charToUnitMap r)
      /\ Forall (fun u =>
                   d_cleanedText u
                   = Some (SmartSubtitle.cleanText category this (d_text u))
                   /\ reads (cleanedText r) u
                        (SmartSubtitle.cleanText category this (d_text u)))
           (displayUnits r))
  /\ (forall (this : Reader.t) (text : str) (mdHtml : list str),
         let r := SmartSubtitleReader.processText category this text mdHtml in
         pointsInside (displayUnits r) (charToUnitMap r)
         /\ Forall (fun u =>
                      d_cleanedText u
                      = Some (SmartSubtitleReader.cleanText category (d_text u))
                      /\ reads (cleanedText r) u
                           (SmartSubtitleReader.cleanText category (d_text u)))
              (displayUnits r))
  /\ (forall (this : Reader.t) (text : str) (mdHtml : list str),
         let r := SubtitleReader.processText category this text mdHtml in
         pointsInside (displayUnits r) (charToUnitMap r)
         /\ Forall (fun u =>
                      d_cleanedText u
                      = Some (SubtitleReader.cleanUnit category (d_text u))
                      /\ reads (cleanedText r) u
                           (SubtitleReader.cleanUnit category (d_text u)))
              (displayUnits r)).
Proof.
  split; [|split].
  - intros this rawText mdHtml r.
    destruct (align_spanInv (SmartSubtitle.smartSplitText this)
                (SmartSubtitle.cleanText category this) (fun line => line)
                (fun _ => True)
                (SmartSubtitle.cleanText category this rawText)
                (List.filter truthy
                   (List.map (SmartSubtitle.cleanText category this)
                      match mdHtml with
                      | Some nodes => extractLinesFromHTML nodes
                      | None => linesOf rawText
                      end))
                match mdHtml with
                | Some nodes => extractLinesFromHTML nodes
                | None => linesOf rawText
                end) as (_ & Hin & Hall).
    { apply Forall_forall. intros line _. by apply Forall_forall. }
    split; [exact Hin|].
    eapply Forall_impl; [exact Hall|]. intros u (_ & H1 & H2).
    split; [exact H1 | exact H2].
  - intros this text mdHtml r.
    destruct (align_spanInv (Reader.smartSplitText this)
                (SmartSubtitleReader.cleanText category) (fun line => line)
                (fun _ => True)
                (SmartSubtitleReader.cleanText category text)
                (List.filter truthy
                   (List.map (SmartSubtitleReader.cleanText category)
                      (extractLinesFromHTML mdHtml)))
                (extractLinesFromHTML mdHtml)) as (_ & Hin & Hall).
    { apply Forall_forall. intros line _. by apply Forall_forall. }
    split; [exact Hin|].
    eapply Forall_impl; [exact Hall|]. intros u (_ & H1 & H2).
    split; [exact H1 | exact H2].
  - intros this text mdHtml r.
    destruct (align_spanInv (Reader.smartSplitText this)
                (SubtitleReader.cleanUnit category) SubtitleReader.filterLine
                (fun _ => True)
                (SubtitleReader.cleanWhole category text)
                (List.filter truthy
                   (List.map (SubtitleReader.cleanLine category)
                      (extractLinesFromHTML mdHtml)))
                (extractLinesFromHTML mdHtml)) as (_ & Hin & Hall).
    { apply Forall_forall. intros line _. by apply Forall_forall. }
    split; [exact Hin|].
    eapply Forall_impl; [exact Hall|]. intros u (_ & H1 & H2).
    split; [exact H1 | exact H2].
Qed.

(** X13.  Every text the four aligners hand to the display obeys the
    width bound of the segmenter: it measures at most the budget of its
    class, or is one character that is too wide alone. *)
Theorem displayed_units_fit :
  (forall (this : SmartSubtitle.t) (rawText : str) (mdHtml : option (list str)),
      Forall (fun u =>
                widthOk (SmartSubtitle.measureTextWidth this)
                  (SmartSubtitle.maxLineWidth (SmartSubtitle.config this))
                  (d_text u))
        (displayUnits
           (SmartSubtitle.processSubtitleText category this rawText mdHtml)))
  /\ (forall (this : Reader.t) (text : str) (mdHtml : list str),
         Forall (fun u =>
                   widthOk (getTextWidth this) (maxTextWidth (config this))
                     (d_text u))
           (displayUnits
              (SmartSubtitleReader.processText category this text mdHtml)))
  /\ (forall (this : Reader.t) (text : str) (mdHtml : list str),
         Forall (fun u =>
                   widthOk (getTextWidth this) (maxTextWidth (config this))
                     (d_text u))
           (displayUnits (SubtitleReader.processText category this text mdHtml)))
  /\ (forall (this : Reader.t) (text : str) (mdHtml : list str),
         Forall (fun u =>
                   widthOk (getTextWidth this) (maxTextWidth (config this))
                     (d_text u))
           (displayUnits
              (SubtitleReaderKeepLength.processText category this text mdHtml))).
Proof.
  split; [|split; [|split]].
  - intros this rawText mdHtml.
    destruct (align_spanInv (SmartSubtitle.smartSplitText this)
                (SmartSubtitle.cleanText category this) (fun line => line)
                (widthOk (SmartSubtitle.measureTextWidth this)
                   (SmartSubtitle.maxLineWidth (SmartSubtitle.config this)))
                (SmartSubtitle.cleanText category this rawText)
                (List.filter truthy
                   (List.map (SmartSubtitle.cleanText category this)
                      match mdHtml with
                      | Some nodes => extractLinesFromHTML nodes
                      | None => linesOf rawText
                      end))
                match mdHtml with
                | Some nodes => extractLinesFromHTML nodes
                | None => linesOf rawText
                end) as (_ & _ & Hall).
    { apply Forall_forall. intros line _. apply smartSplitText_widthOk. }
    eapply Forall_impl; [exact Hall|]. by intros u (H & _).
  - intros this text mdHtml.
    destruct (align_spanInv (Reader.smartSplitText this)
                (SmartSubtitleReader.cleanText category) (fun line => line)
                (widthOk (getTextWidth this) (maxTextWidth (config this)))
                (SmartSubtitleReader.cleanText category text)
                (List.filter truthy
                   (List.map (SmartSubtitleReader.cleanText category)
                      (extractLinesFromHTML mdHtml)))
                (extractLinesFromHTML mdHtml)) as (_ & _ & Hall).
    { apply Forall_forall. intros line _. apply smartSplitText_widthOk. }
    eapply Forall_impl; [exact Hall|]. by intros u (H & _).
  - intros this text mdHtml.
    destruct (align_spanInv (Reader.smartSplitText this)
                (SubtitleReader.cleanUnit category) SubtitleReader.filterLine
                (widthOk (getTextWidth this) (maxTextWidth (config this)))
                (SubtitleReader.cleanWhole category text)
                (List.filter truthy
                   (List.map (SubtitleReader.cleanLine category)
                      (extractLinesFromHTML mdHtml)))
                (extractLinesFromHTML mdHtml)) as (_ & _ & Hall).
    { apply Forall_forall. intros line _. apply smartSplitText_widthOk. }
    eapply Forall_impl; [exact Hall|]. by intros u (H & _).
  - intros this text mdHtml.
    unfold SubtitleReaderKeepLength.processText.
    set (textLines := fold_left _ mdHtml []).
    set (cleaned := join _ _).
    set (lines := combine _ _).
    pose proof (alignPairs_texts this
                  (widthOk (getTextWidth this) (maxTextWidth (config this)))
                  cleaned lines
                  ([], replicate (length cleaned) (Some (-1)%Z), 0)) as H.
    destruct (fold_left _ lines _) as [[du map] pos]. simpl in *.
    apply H; [|done]. intros line _. apply smartSplitText_widthOk.
Qed.

(** X14.  [processSubtitleText], the [processText] of
    smart-subtitle-reader.js and the length-preserving [processText] never
    hand an empty text to the display. *)
Theorem displayed_units_nonempty :
  (forall (this : SmartSubtitle.t) (rawText : str) (mdHtml : option (list str)),
      Forall (fun u => d_text u <> [])
        (displayUnits
           (SmartSubtitle.processSubtitleText category this rawText mdHtml)))
  /\ (forall (this : Reader.t) (text : str) (mdHtml : list str),
         Forall (fun u => d_text u <> [])
           (displayUnits
              (SmartSubtitleReader.processText category this text mdHtml)))
  /\ (forall (this : Reader.t) (text : str) (mdHtml : list str),
         Forall (fun u => d_text u <> [])
           (displayUnits
              (SubtitleReaderKeepLength.processText category this text mdHtml))).
Proof.
  split; [|split].
  - intros this rawText mdHtml.
    destruct (align_spanInv (SmartSubtitle.smartSplitText this)
                (SmartSubtitle.cleanText category this) (fun line => line)
                (fun t => t <> [])
                (SmartSubtitle.cleanText category this rawText)
                (List.filter truthy
                   (List.map (SmartSubtitle.cleanText category this)
                      match mdHtml with
                      | Some nodes => extractLinesFromHTML nodes
                      | None => linesOf rawText
                      end))
                match mdHtml with
                | Some nodes => extractLinesFromHTML nodes
                | None => linesOf rawText
                end) as (_ & _ & Hall).
    { assert (Hlines : Forall (fun l => l <> [] /\ trim l = l /\ lacks 10%N l)
                         match mdHtml with
                         | Some nodes => extractLinesFromHTML nodes
                         | None => linesOf rawText
                         end)
        by (destruct mdHtml; [apply extractLinesFromHTML_lines | apply linesOf_lines]).
      eapply Forall_impl; [exact Hlines|]. intros line (Hne & _).
      by apply smartSplitText_nonempty. }
    eapply Forall_impl; [exact Hall|]. by intros u (H & _).
  - intros this text mdHtml.
    destruct (align_spanInv (Reader.smartSplitText this)
                (SmartSubtitleReader.cleanText category) (fun line => line)
                (fun t => t <> [])
                (SmartSubtitleReader.cleanText category text)
                (List.filter truthy
                   (List.map (SmartSubtitleReader.cleanText category)
                      (extractLinesFromHTML mdHtml)))
                (extractLinesFromHTML mdHtml)) as (_ & _ & Hall).
    { eapply Forall_impl; [apply extractLinesFromHTML_lines|].
      intros line (Hne & _). by apply smartSplitText_nonempty. }
    eapply Forall_impl; [exact Hall|]. by intros u (H & _).
  - intros this text mdHtml.
    unfold SubtitleReaderKeepLength.processText.
    set (textLines := fold_left _ mdHtml []).
    set (cleaned := join _ _).
    set (lines := combine _ _).
    pose proof (alignPairs_texts this (fun t => t <> [])
                  cleaned lines
                  ([], replicate (length cleaned) (Some (-1)%Z), 0)) as H.
    destruct (fold_left _ lines _) as [[du map] pos]. simpl in *.
    apply H; [|done]. intros line Hne. by apply smartSplitText_nonempty.
Qed.

(** X15.  In the length-preserving [processText] the spans of the display
    units lie in the spoken text, one after the other without overlap,
    and the index is exact: a cell holds the index of a unit exactly when
    it lies in the span of that unit. *)
Theorem keepLength_index_exact (this : Reader.t) (text : str)
    (mdHtml : list str) :
  let r := SubtitleReaderKeepLength.processText category this text mdHtml in
  Forall (fun u => d_start u <= d_end u /\ d_end u <= length (cleanedText r))
    (displayUnits r)
  /\ inOrder (displayUnits r)
  /\ forall k i,
      k < length (cleanedText r) ->
      (charToUnitMap r !! k = Some (Some (Z.of_nat i))
       <-> exists u, displayUnits r !! i = Some u /\ spans u k).
Proof.
  unfold SubtitleReaderKeepLength.processText.
  set (textLines := fold_left _ mdHtml []).
  set (cleaned := join _ _).
  set (lines := combine _ _).
  pose proof (alignPairs_KeepInv this cleaned lines _ (init_KeepInv cleaned))
    as [Hlen Hcur Hbefore Horder Hcells].
  destruct (fold_left _ lines _) as [[du map] pos]. simpl in *.
  split; [|split].
  - eapply Forall_impl; [exact Hbefore|]. simpl. intros u Hu. lia.
  - exact Horder.
  - intros k i Hk. split.
    + intros Hc. destruct (Hcells k _ Hc) as [[E _] | (j & u & E & Hu & Hs)];
        [injection E as E; lia|].
      injection E as E. apply Nat2Z.inj in E as ->. by exists u.
    + intros (u & Hu & Hs).
      destruct (lookup_lt_is_Some_2 map k) as [c Hc]; [lia|].
      destruct (Hcells k c Hc) as [[_ Hno] | (j & v & -> & Hv & Hsv)].
      * exfalso. apply (Hno u); [|done]. by eapply list_elem_of_lookup_2.
      * rewrite Hc. do 3 f_equal. unfold spans in *.
        destruct (Nat.lt_trichotomy i j) as [H | [H | H]]; [|done|].
        -- pose proof (Horder i j u v H Hu Hv). lia.
        -- pose proof (Horder j i v u H Hv Hu). lia.
Qed.

(** X16.  The text [startReading] of the length-preserving revision hands
    to the speech engine is never longer than the index: every offset in
    the spoken text has a cell. *)
Theorem utterance_within_index (this : Reader.t) (text : str)
    (mdHtml : list str) :
  length (Playback.utteranceText category this text mdHtml)
  <= length
       (charToUnitMap
          (SubtitleReaderKeepLength.processText category this text mdHtml)).
Proof.
  unfold Playback.utteranceText.
  destruct (keepLength_wellIndexed category this text mdHtml) as [-> _].
  etrans; [apply length_trim|].
  etrans; [apply length_replace_spaces|].
  etrans; [apply length_removeCodePoints|].
  etrans; [apply length_removeCodePoints|].
  etrans; [apply length_replace_erase|].
  etrans; [apply length_replace_erase|].
  etrans; [apply length_replace_erase|].
  apply length_replace_erase.
Qed.


(** X22.  [processText] of [SmartSubtitleReader] returns an index with one
    cell per character of the text it hands to the speech engine, each
    cell the sentinel or the index of a display unit it returns. *)
Theorem smartSubtitleReader_wellIndexed (this : Reader.t) (text : str)
    (mdHtml : list str) :
  wellIndexed (SmartSubtitleReader.processText category this text mdHtml).
Proof. apply align_wellIndexed. Qed.

End Category.


(** With an empty [mdHtml] and the text ["abc"] the two classes differ:
    [processSubtitleText] shows the text as one unit, [processText] shows
    nothing. *)
Example empty_page_differs :
  let s := {| SmartSubtitle.config :=
                SmartSubtitle.config (smartSubtitle 1000);
              SmartSubtitle.measureText :=
                fun t => (tenPerChar t + 60)%Q |} in
  List.map span
    (displayUnits (SmartSubtitle.processSubtitleText basic_latin s (lit "abc") None))
  = [(lit "abc", 0, 3)]
  /\ displayUnits
       (SmartSubtitleReader.processText basic_latin (reader 1000) (lit "abc") [])
     = [].
Proof. vm_compute. by split. Qed.

End AlignerFurther.

(** ** The reader: the boundary handler, the voice and the window *)

Module ReaderMore.
Import JS JSFacts AlignerSpec SpanSpec Reader.

(** *** One run of the handler *)

Lemma onboundary_step (units : list DisplayUnit) (map : list (option Z))
    (event : BoundaryEvent) (current : option Z) :
  Forall (cellOk (length units)) map ->
  onboundary units map event current = (current, [])
  \/ exists i u,
      units !! i = Some u
      /\ current <> Some (Z.of_nat i)
      /\ onboundary units map event current = (Some (Z.of_nat i), showUnit u).
Proof.
  intros Hcells. unfold onboundary.
  destruct (negb (bool_decide (ev_name event = lit "word"))
            && negb (bool_decide (ev_name event = lit "sentence")));
    [by left|].
  destruct (Nat.ltb_spec (default 0 (ev_charIndex event)) (length map)) as [Hk|Hk];
    [|by left].
  destruct (lookup_lt_is_Some_2 map _ Hk) as [c Hc].
  unfold arrayGet. rewrite Hc. simpl.
  rewrite Forall_lookup in Hcells.
  destruct (Hcells _ _ Hc) as [-> | (i & -> & Hi)]; [by left|].
  rewrite bool_decide_eq_false_2 by (intros [= E]; lia). simpl.
  destruct (decide (Some (Z.of_nat i) = current)) as [E|E].
  - rewrite (bool_decide_eq_true_2 _ E). by left.
  - rewrite (bool_decide_eq_false_2 _ E). simpl.
    destruct (lookup_lt_is_Some_2 units i Hi) as [u Hu].
    destruct (Z.leb_spec 0 (Z.of_nat i)); [|lia].
    rewrite Nat2Z.id, Hu. right. exists i, u. split; [done|]. split; [|done].
    by intros ->.
Qed.

Lemma lastShown_app (current : option Z) (xs ys : list nat) :
  lastShown current (xs ++ ys) = lastShown (lastShown current xs) ys.
Proof.
  unfold lastShown. rewrite last_app.
  by destruct (last ys).
Qed.

Lemma onboundaries_trace (units : list DisplayUnit) (map : list (option Z))
    (events : list BoundaryEvent) (current : option Z) :
  Forall (cellOk (length units)) map ->
  exists indices,
    onboundaries units map events current
    = (lastShown current indices, shows units indices)
    /\ Forall (fun i => i < length units) indices
    /\ changing current indices
    /\ length indices <= length events.
Proof.
  intros Hcells. revert current;
    induction events as [|event events IH]; intros current.
  - exists []. by repeat split.
  - cbn [onboundaries].
    destruct (onboundary_step units map event current Hcells)
      as [-> | (i & u & Hu & Hne & ->)].
    + destruct (IH current) as (indices & -> & Hall & Hch & Hlen).
      exists indices. repeat split; try done. simpl. lia.
    + destruct (IH (Some (Z.of_nat i))) as (indices & -> & Hall & Hch & Hlen).
      exists (i :: indices). repeat split.
      * f_equal.
        -- change (i :: indices) with ([i] ++ indices).
           by rewrite lastShown_app.
        -- unfold shows. simpl. by rewrite Hu.
      * constructor; [|done]. by eapply lookup_lt_Some.
      * done.
      * done.
      * simpl. lia.
Qed.

(** *** Numbers *)




End ReaderMore.

Module ReaderFurther.
Import JS JSFacts AlignerSpec SpanSpec Reader Voices Window ReaderMore Samples.

(** X17.  Over an index whose cells are sentinels or valid unit indices,
    whatever the stream of events, the handler of [startReading] only
    ever shows display units that exist, never the unit that is already
    shown, at most one per event, and it ends on the unit it showed
    last. *)
Theorem onboundaries_show_changes (r : Processed)
    (events : list BoundaryEvent) (current : option Z) :
  wellIndexed r ->
  exists indices,
    onboundaries (displayUnits r) (charToUnitMap r) events current
    = (lastShown current indices, shows (displayUnits r) indices)
    /\ Forall (fun i => i < length (displayUnits r)) indices
    /\ changing current indices
    /\ length indices <= length events.
Proof. intros [_ Hcells]. by apply onboundaries_trace. Qed.

Lemma onboundaries_show_changes_witness :
  let unit := {| d_text := lit "Yes."; d_cleanedText := Some (lit "Yes.");
                 d_start := 1; d_end := 5 |} in
  let r := {| displayUnits := [unit];
              charToUnitMap := Some (-1)%Z :: replicate 4 (Some 0%Z);
              cleanedText := lit " Yes." |} in
  let events := [{| ev_name := lit "word"; ev_charIndex := Some 0 |};
                 {| ev_name := lit "word"; ev_charIndex := Some 2 |};
                 {| ev_name := lit "word"; ev_charIndex := Some 3 |}] in
  exists indices,
    onboundaries (displayUnits r) (charToUnitMap r) events initialUnitIndex
    = (lastShown initialUnitIndex indices, shows (displayUnits r) indices)
    /\ Forall (fun i => i < length (displayUnits r)) indices
    /\ changing initialUnitIndex indices
    /\ length indices <= length events.
Proof.
  intros unit r events. apply onboundaries_show_changes.
  split; [reflexivity|]. simpl.
  constructor; [by left|].
  repeat (constructor; [right; exists 0; split; [reflexivity | lia]|]).
  constructor.
Defined.

(** X18.  For a word or sentence boundary the handler shows exactly what
    [getCurrentUnit] of [SmartSubtitle] reports at the offset of the
    event, unless the cell there names the unit that is already current,
    in which case it shows nothing. *)
Theorem onboundary_shows_current_unit (units : list DisplayUnit)
    (map : list (option Z)) (event : BoundaryEvent) (current : option Z) :
  isBoundary event ->
  let charIndex := default 0 (ev_charIndex event) in
  (onboundary units map event current).2
  = if bool_decide (arrayGet map charIndex = current) then []
    else match SmartSubtitle.getCurrentUnit (Z.of_nat charIndex) map units with
         | SmartSubtitle.Unit u => showUnit u
         | _ => []
         end.
Proof.
  intros Hb charIndex. unfold onboundary, SmartSubtitle.getCurrentUnit.
  fold charIndex.
  assert (Hname : negb (bool_decide (ev_name event = lit "word"))
                  && negb (bool_decide (ev_name event = lit "sentence")) = false).
  { destruct Hb as [H | H]; rewrite (bool_decide_eq_true_2 _ H); simpl; [done|].
    apply andb_false_r. }
  rewrite Hname. clear Hname.
  assert (Hcell : mjoin (elementAt map (Some (Z.of_nat charIndex)))
                  = arrayGet map charIndex).
  { unfold elementAt, arrayGet.
    destruct (Z.leb_spec 0 (Z.of_nat charIndex)); [|lia].
    rewrite Nat2Z.id. by destruct (map !! charIndex). }
  rewrite Hcell.
  destruct (Nat.ltb_spec charIndex (length map)) as [Hk|Hk];
    destruct (Z.ltb_spec (Z.of_nat charIndex) (Z.of_nat (length map))) as [Hz|Hz];
    try lia.
  - destruct (arrayGet map charIndex) as [z|] eqn:Hc.
    + destruct (decide (Some z = Some (-1)%Z)) as [E|E].
      * rewrite (bool_decide_eq_true_2 _ E). simpl. by case_bool_decide.
      * rewrite (bool_decide_eq_false_2 _ E). simpl.
        destruct (bool_decide (Some z = current)); simpl; [done|].
        destruct (Z.ltb_spec z (Z.of_nat (length units))) as [Hlt|Hge].
        -- unfold elementAt. destruct (0 <=? z)%Z; [|done].
           by destruct (units !! Z.to_nat z).
        -- unfold elementAt. destruct (Z.leb_spec 0 z); [|done].
           rewrite lookup_ge_None_2; [done | lia].
    + rewrite bool_decide_eq_false_2 by done. simpl.
      by case_bool_decide.
  - simpl. by case_bool_decide.
Qed.

Lemma onboundary_shows_current_unit_witness :
  let unit := {| d_text := lit "Yes."; d_cleanedText := Some (lit "Yes.");
                 d_start := 1; d_end := 5 |} in
  let map := Some (-1)%Z :: replicate 4 (Some 0%Z) in
  let event := {| ev_name := lit "word"; ev_charIndex := Some 2 |} in
  (onboundary [unit] map event initialUnitIndex).2
  = if bool_decide (arrayGet map 2 = initialUnitIndex) then []
    else match SmartSubtitle.getCurrentUnit 2 map [unit] with
         | SmartSubtitle.Unit u => showUnit u
         | _ => []
         end.
Proof.
  intros unit map event.
  apply (onboundary_shows_current_unit [unit] map event initialUnitIndex).
  by left.
Defined.

(** X19.  [findTargetVoice] returns one of the installed voices, and none
    only when there is none; it is a voice whose name contains the
    configured name when there is one, otherwise a voice whose language
    contains [zh] when there is one, otherwise the first voice. *)
Theorem findTargetVoice_priority (this : Reader.t) (voices : list Voice) :
  let named v := includes (v_name v) (targetVoiceName (config this)) in
  let chinese v := includes (v_lang v) (lit "zh") in
  (findTargetVoice this voices = None <-> voices = [])
  /\ (forall v, findTargetVoice this voices = Some v ->
        In v voices
        /\ (named v = true
            \/ (Forall (fun w => named w = false) voices /\ chinese v = true)
            \/ (Forall (fun w => named w = false /\ chinese w = false) voices
                /\ voices !! 0 = Some v))).
Proof.
  intros named chinese. unfold findTargetVoice.
  fold named. fold chinese.
  destruct (List.find named voices) as [v1|] eqn:E1.
  { apply find_some in E1 as [Hin Hn]. split.
    - split; [done|]. intros ->. done.
    - intros v [= <-]. split; [done|]. by left. }
  assert (H1 : Forall (fun w => named w = false) voices).
  { apply Forall_forall. intros w Hw. apply list_elem_of_In in Hw.
    by apply (find_none _ _ E1). }
  destruct (List.find chinese voices) as [v2|] eqn:E2.
  { apply find_some in E2 as [Hin Hc]. split.
    - split; [done|]. intros ->. done.
    - intros v [= <-]. split; [done|]. right. by left. }
  assert (H2 : Forall (fun w => named w = false /\ chinese w = false) voices).
  { apply Forall_forall. intros w Hw. split.
    - by apply (proj1 (Forall_forall _ _) H1).
    - apply list_elem_of_In in Hw. by apply (find_none _ _ E2). }
  split.
  - destruct voices; [done|]. split; done.
  - intros v Hv. split.
    + apply list_elem_of_In. by eapply list_elem_of_lookup_2.
    + right. by right.
Qed.



End ReaderFurther.
